(** * maxflow-client-js: the debounced push queue and the pulse.find query builder

    A shallow embedding of the three revisions of the client class that the
    repository carries,

    - [MaxflowClient_ts]      src/maxflowClient.ts      (class MaxflowClient)
    - [MaxFlow_ts]            src/maxflow.ts            (class MaxFlow)
    - [Src_MaxflowClient_ts]  src/src/maxflowClient.ts  (class MaxflowClient,
                                                         with applicationId)

    The definitions take the revision as their first argument and branch on it
    exactly where the source texts differ.

    Modelling conventions.
    - A JavaScript object used as a string-keyed record is the [gmap string _]
      of its own properties, which is what [JSON.stringify] writes; an
      assignment to the key ["__proto__"] creates none ([set_property]).
    - JavaScript numbers are modelled by [Z] (the integer-valued numbers).
    - A thrown exception is [Throw e]; an [async] function never throws to its
      caller: it returns a promise, rejected with [e] when its body threw.
    - Promises, timeouts and requests in flight belong to the JavaScript host;
      the [state] record holds them next to the fields of the class. Time is
      not measured: a live timeout may fire at any moment, and the transport
      may answer the requests in flight in any order. *)

From Stdlib Require Import ZArith String.
From stdpp Require Import base option list gmap strings pretty.

#[local] Set Warnings "-register-all".
#[local] Open Scope string_scope.
#[local] Open Scope Z_scope.
#[local] Open Scope list_scope.

(** ** JavaScript values *)

Inductive jsval : Type :=
| JUndefined
| JNull
| JBool (b : bool)
| JNum (n : Z)
| JStr (s : string)
| JArr (xs : list jsval)
| JObj (props : gmap string jsval).

(** ToBoolean, on the values of the model. *)
Definition truthy (x : jsval) : bool :=
  match x with
  | JUndefined | JNull => false
  | JBool b => b
  | JNum n => negb (n =? 0)
  | JStr s => negb (String.eqb s "")
  | JArr _ | JObj _ => true
  end.

(** ToString, as used by a template literal and by a computed property key. *)
Fixpoint ToString (x : jsval) : string :=
  match x with
  | JUndefined => "undefined"
  | JNull => "null"
  | JBool true => "true"
  | JBool false => "false"
  | JNum n => pretty n
  | JStr s => s
  | JArr xs =>
      let element y :=
        match y with JUndefined | JNull => "" | _ => ToString y end in
      (fix join (ys : list jsval) : string :=
         match ys with
         | [] => ""
         | [y] => element y
         | y :: rest => element y +:+ "," +:+ join rest
         end) xs
  | JObj _ => "[object Object]"
  end.

(** [o.k] on a record: the value of the property, [undefined] when absent. *)
Definition member (o : gmap string jsval) (k : string) : jsval :=
  default JUndefined (o !! k).

(** ** Errors and completions *)

Inductive error : Type :=
| Error (message : string)
| TypeError (message : string)
| AxiosError (reason : jsval).

Inductive completion (A : Type) : Type :=
| Return (a : A)
| Throw (e : error).
Arguments Return {A} a.
Arguments Throw {A} e.

Definition cbind {A B} (c : completion A) (k : A → completion B) : completion B :=
  match c with
  | Return a => k a
  | Throw e => Throw e
  end.

(** [o[k] = x], an assignment to a property of an ordinary object that was
    created by an object literal. It writes an own property, but for the key
    ["__proto__"]: that assignment runs the setter that the object inherits
    from [Object.prototype], which replaces the prototype of [o] when [x] is
    an object and does nothing otherwise; in either case no own property is
    created, and nothing of it shows among the properties of [o] or in its
    JSON text. (A computed key of an object literal, as in [condition] and
    in [match_record], always defines an own property.) *)
Definition set_property (o : gmap string jsval) (k : string) (x : jsval)
  : gmap string jsval :=
  if decide (k = "__proto__") then o else <[k := x]> o.

(** [base[k] = x] where [base] is the value found in a property slot: it
    throws a TypeError when the slot holds no object. *)
Definition member_assign (base : option jsval) (k : string) (x : jsval)
  : completion jsval :=
  match base with
  | Some (JObj o) => Return (JObj (set_property o k x))
  | _ => Throw (TypeError "Cannot set properties of undefined")
  end.

(** ** The three revisions *)

Inductive variant : Type :=
| MaxflowClient_ts
| MaxFlow_ts
| Src_MaxflowClient_ts.

#[global] Instance variant_eq_dec : EqDecision variant.
Proof. solve_decision. Defined.

(** ** findData *)

Record MatchItem : Type := {
  field : string;
  operator : string;
  value : jsval;
}.

Inductive MatchArg : Type :=
| MatchArray (items : list MatchItem)
| MatchRecord (r : gmap string jsval).

Record OrderItem : Type := {
  order_field : string;
  order : option string;
  direction : option Z;
}.

Record SearchConfig : Type := {
  fields : list string;
  text : string;
}.

Record findData : Type := {
  match_ : option MatchArg;
  page : option Z;
  pageSize : option Z;
  sort : option string;
  orderBy : option (list OrderItem);
  search : option SearchConfig;
}.

Definition SearchConfig_value (s : SearchConfig) : jsval :=
  JObj {[ "fields" := JArr (JStr <$> fields s); "text" := JStr (text s) ]}.

(** ** The query builder of pulse.find *)

(** [{ [`$${operator}`]: value }] *)
Definition condition (operator : string) (value : jsval) : jsval :=
  JObj {[ "$" +:+ operator := value ]}.

(** The body of [for (const item of data.match)], on the object held by
    [query.match]. The test of src/maxflow.ts reads an own property; the
    assignment that follows it is made whatever the test finds. *)
Definition match_assign (v : variant) (m : gmap string jsval) (item : MatchItem)
  : gmap string jsval :=
  match v with
  | MaxFlow_ts =>
      let m1 :=
        if negb (truthy (member m (field item)))
        then set_property m (field item) (JObj ∅)
        else m in
      set_property m1 (field item) (condition (operator item) (value item))
  | MaxflowClient_ts | Src_MaxflowClient_ts =>
      set_property m (field item) (condition (operator item) (value item))
  end.

(** The [else] branch of [Array.isArray(data.match)]: [data.match] is read as
    one [{field, operator, value}] object. *)
Definition match_record (v : variant) (query : gmap string jsval)
    (r : gmap string jsval) : completion (gmap string jsval) :=
  let key := ToString (member r "field") in
  let cond := condition (ToString (member r "operator")) (member r "value") in
  match v with
  | MaxFlow_ts =>
      cbind (member_assign (query !! "match") key cond)
            (λ m, Return (<["match" := m]> query))
  | MaxflowClient_ts | Src_MaxflowClient_ts =>
      Return (<["match" := JObj {[ key := cond ]}]> query)
  end.

(** [item.direction ?? (item.order === 'desc' ? -1 : 1)], and with [||] in
    src/maxflow.ts. *)
Definition order_direction (v : variant) (item : OrderItem) : Z :=
  let by_order := if decide (order item = Some "desc") then -1 else 1 in
  match v with
  | MaxFlow_ts =>
      match direction item with
      | Some d => if truthy (JNum d) then d else by_order
      | None => by_order
      end
  | MaxflowClient_ts | Src_MaxflowClient_ts =>
      default by_order (direction item)
  end.

Definition order_entry (v : variant) (item : OrderItem) : jsval :=
  JObj {[ "field" := JStr (order_field item);
          "direction" := JNum (order_direction v item) ]}.

(** The part of [pulse.find] that builds [query] from [data]. *)
Definition find_query (v : variant) (data : findData)
  : completion (gmap string jsval) :=
  let query : gmap string jsval := ∅ in
  cbind
    (match match_ data with
     | Some (MatchArray items) =>
         Return (<["match" := JObj (foldl (match_assign v) ∅ items)]> query)
     | Some (MatchRecord r) => match_record v query r
     | None => Return query
     end)
    (λ query,
       let query :=
         match page data with
         | Some n => <["page" := JNum n]> query
         | None => query
         end in
       let query :=
         match pageSize data with
         | Some n => <["pageSize" := JNum n]> query
         | None => query
         end in
       let query :=
         match search data with
         | Some s => <["search" := SearchConfig_value s]> query
         | None => query
         end in
       let query :=
         match orderBy data with
         | Some items => <["orderBy" := JArr (order_entry v <$> items)]> query
         | None => query
         end in
       Return query).

(** ** The client instance and the JavaScript host *)

Record PushOptions : Type := {
  debounce : option Z;
  debounce_max_wait : option Z;
  immediately : option bool;
}.

(** [promise] stands for the pair [resolve], [reject] of the promise that
    [push] returned for the item. *)
Record QueueItem : Type := {
  data : jsval;
  timestamp : Z;
  promise : nat;
  options : option PushOptions;
}.

Record RunOptions : Type := {
  run_data : option jsval;
  params : option jsval;
  callback_url : option string;
}.

(** [instance.defaults]: the headers given to [axios.create] are kept at the
    top level of [defaults.headers], beside [defaults.headers.common]. *)
Record AxiosInstance : Type := {
  defaults_baseURL : string;
  defaults_timeout : Z;
  defaults_headers : gmap string jsval;
  defaults_headers_common : gmap string jsval;
}.

Inductive request : Type :=
| POST (url : string) (body : jsval)
| GET (url : string)
| GET_pulse_query (query : gmap string jsval)
| PUT (url : string) (body : jsval)
| DELETE (url : string) (body : option jsval).

Inductive outcome : Type :=
| Fulfilled (response : jsval)
| Rejected (reason : error).

(** The fields of the class, followed by what the host keeps: the live
    timeouts (handle ↦ delay; the callback of every timeout of the class is
    [() => this.processQueue()]), the requests in flight (keyed by the promise
    of their response), the queue items whose map callback awaits such a
    promise together with the snapshot they were flushed in, and the log of
    the calls that settled a promise. *)
Record state : Type := {
  apiKey : option string;
  apiSecret : option string;
  teamId : option string;
  applicationId : option string;
  baseURL : string;
  queue : list QueueItem;
  pushTimeout : option nat;
  maxAgeTimeout : option nat;
  axiosInstance : option AxiosInstance;
  timers : gmap nat Z;
  next_timer : nat;
  requests : gmap nat request;
  awaiting : gmap nat (QueueItem * list QueueItem);
  next_promise : nat;
  settled : list (nat * outcome);
}.

Definition QUEUE_DELAY : Z := 360.
Definition MAX_QUEUE_TIME : Z := 1000.

Definition set_apiKey (x : option string) (s : state) : state :=
  let 'Build_state _ b c d e f g h i j k l m n o := s in
  Build_state x b c d e f g h i j k l m n o.
Definition set_apiSecret (x : option string) (s : state) : state :=
  let 'Build_state a _ c d e f g h i j k l m n o := s in
  Build_state a x c d e f g h i j k l m n o.
Definition set_teamId (x : option string) (s : state) : state :=
  let 'Build_state a b _ d e f g h i j k l m n o := s in
  Build_state a b x d e f g h i j k l m n o.
Definition set_applicationId (x : option string) (s : state) : state :=
  let 'Build_state a b c _ e f g h i j k l m n o := s in
  Build_state a b c x e f g h i j k l m n o.
Definition set_baseURL (x : string) (s : state) : state :=
  let 'Build_state a b c d _ f g h i j k l m n o := s in
  Build_state a b c d x f g h i j k l m n o.
Definition set_queue (x : list QueueItem) (s : state) : state :=
  let 'Build_state a b c d e _ g h i j k l m n o := s in
  Build_state a b c d e x g h i j k l m n o.
Definition set_pushTimeout (x : option nat) (s : state) : state :=
  let 'Build_state a b c d e f _ h i j k l m n o := s in
  Build_state a b c d e f x h i j k l m n o.
Definition set_maxAgeTimeout (x : option nat) (s : state) : state :=
  let 'Build_state a b c d e f g _ i j k l m n o := s in
  Build_state a b c d e f g x i j k l m n o.
Definition set_axiosInstance (x : option AxiosInstance) (s : state) : state :=
  let 'Build_state a b c d e f g h _ j k l m n o := s in
  Build_state a b c d e f g h x j k l m n o.
Definition set_timers (x : gmap nat Z) (s : state) : state :=
  let 'Build_state a b c d e f g h i _ k l m n o := s in
  Build_state a b c d e f g h i x k l m n o.
Definition set_next_timer (x : nat) (s : state) : state :=
  let 'Build_state a b c d e f g h i j _ l m n o := s in
  Build_state a b c d e f g h i j x l m n o.
Definition set_requests (x : gmap nat request) (s : state) : state :=
  let 'Build_state a b c d e f g h i j k _ m n o := s in
  Build_state a b c d e f g h i j k x m n o.
Definition set_awaiting (x : gmap nat (QueueItem * list QueueItem)) (s : state)
  : state :=
  let 'Build_state a b c d e f g h i j k l _ n o := s in
  Build_state a b c d e f g h i j k l x n o.
Definition set_next_promise (x : nat) (s : state) : state :=
  let 'Build_state a b c d e f g h i j k l m _ o := s in
  Build_state a b c d e f g h i j k l m x o.
Definition set_settled (x : list (nat * outcome)) (s : state) : state :=
  let 'Build_state a b c d e f g h i j k l m n _ := s in
  Build_state a b c d e f g h i j k l m n x.

(** ** Methods run in a state-and-exception monad *)

Definition M (A : Type) : Type := state → completion A * state.

Definition ret {A} (a : A) : M A := λ s, (Return a, s).
Definition throw {A} (e : error) : M A := λ s, (Throw e, s).
Definition bind {A B} (m : M A) (k : A → M B) : M B :=
  λ s, match m s with
       | (Return a, s') => k a s'
       | (Throw e, s') => (Throw e, s')
       end.
Definition try_catch {A} (m : M A) (handler : error → M A) : M A :=
  λ s, match m s with
       | (Return a, s') => (Return a, s')
       | (Throw e, s') => handler e s'
       end.
Definition gets {A} (f : state → A) : M A := λ s, (Return (f s), s).
Definition modify (f : state → state) : M unit := λ s, (Return tt, f s).

Declare Scope js_scope.
Delimit Scope js_scope with js.
Notation "x <- m ;; k" := (bind m (λ x, k))
  (at level 100, m at next level, right associativity) : js_scope.
Notation "m ;; k" := (bind m (λ _, k))
  (at level 100, right associativity) : js_scope.
#[local] Open Scope js_scope.

Fixpoint forEach {A} (xs : list A) (f : A → M unit) : M unit :=
  match xs with
  | [] => ret tt
  | x :: rest => f x ;; forEach rest f
  end.

Fixpoint mapM {A B} (f : A → M B) (xs : list A) : M (list B) :=
  match xs with
  | [] => ret []
  | x :: rest => y <- f x ;; ys <- mapM f rest ;; ret (y :: ys)
  end.

(** *** Host operations *)

Definition setTimeout (delay : Z) : M nat :=
  h <- gets next_timer ;;
  modify (λ s, set_timers (<[h := delay]> (timers s)) s) ;;
  modify (set_next_timer (S h)) ;;
  ret h.

Definition clearTimeout (h : nat) : M unit :=
  modify (λ s, set_timers (delete h (timers s)) s).

Definition new_promise : M nat :=
  p <- gets next_promise ;;
  modify (set_next_promise (S p)) ;;
  ret p.

(** One call of a resolving function of promise [p]. *)
Definition settle (p : nat) (o : outcome) : M unit :=
  modify (λ s, set_settled (settled s ++ [(p, o)]) s).

(** State of promise [p]: the first call that settled it. *)
Definition promise_state (p : nat) (s : state) : option outcome :=
  snd <$> head (filter (λ c, c.1 = p) (settled s)).

(** [instance.post(...)], [instance.get(...)], ...: the request goes out and
    the promise of its response is returned. *)
Definition send (instance : AxiosInstance) (r : request) : M nat :=
  p <- new_promise ;;
  modify (λ s, set_requests (<[p := r]> (requests s)) s) ;;
  ret p.

(** An async function, whose body returns a promise: the promise
    returned to the caller is settled like that one, or rejected with what
    the body threw. *)
Definition async (body : M nat) : M nat :=
  try_catch body (λ e, p <- new_promise ;; settle p (Rejected e) ;; ret p).

(** ** The class *)

Record MaxflowConfig : Type := {
  config_apiKey : option string;
  config_teamId : option string;
  config_applicationId : option string;
  config_baseURL : option string;
  config_apiSecret : option string;
}.

(** [!this.apiKey] and the like: [null] and the empty string are falsy. *)
Definition not_set (x : option string) : bool :=
  match x with
  | Some k => String.eqb k ""
  | None => true
  end.

Definition string_or_null (x : option string) : jsval :=
  from_option JStr JNull x.

Definition constructor (v : variant) (config : option MaxflowConfig) : state :=
  {| apiKey := config ≫= config_apiKey;
     apiSecret := config ≫= config_apiSecret;
     teamId := config ≫= config_teamId;
     applicationId :=
       match v with
       | Src_MaxflowClient_ts => config ≫= config_applicationId
       | MaxflowClient_ts | MaxFlow_ts => None
       end;
     baseURL :=
       default
         match v with
         | Src_MaxflowClient_ts => "https://app.gomaxflow.ai"
         | MaxflowClient_ts | MaxFlow_ts => "https://maxflow.cloud"
         end
         (config ≫= config_baseURL);
     queue := [];
     pushTimeout := None;
     maxAgeTimeout := None;
     axiosInstance := None;
     timers := ∅;
     next_timer := 1;
     requests := ∅;
     awaiting := ∅;
     next_promise := 0;
     settled := [] |}.

Definition validateConfig (v : variant) : M unit :=
  s <- gets id ;;
  match v with
  | MaxflowClient_ts | MaxFlow_ts =>
      if not_set (apiKey s) then throw (Error "API Key is not set")
      else if not_set (teamId s) then throw (Error "Team ID is not set")
      else if not_set (apiSecret s) then throw (Error "API Secret is not set")
      else ret tt
  | Src_MaxflowClient_ts =>
      if not_set (teamId s) then throw (Error "Team ID is not set")
      else if not_set (applicationId s)
      then throw (Error "Application ID is not set")
      else if not_set (apiKey s) then throw (Error "API Key is not set")
      else if not_set (apiSecret s) then throw (Error "API Secret is not set")
      else ret tt
  end.

(** [axios.create({ baseURL, timeout: 10000, headers })] *)
Definition axios_create (baseURL : string) (headers : gmap string jsval)
  : AxiosInstance :=
  {| defaults_baseURL := baseURL;
     defaults_timeout := 10000;
     defaults_headers := headers;
     defaults_headers_common := ∅ |}.

(** The auth headers and base URL that [http()] writes on every call. *)
Definition with_auth (v : variant) (s : state) (i : AxiosInstance)
  : AxiosInstance :=
  let headers := defaults_headers_common i in
  let headers := <["x-api-key" := string_or_null (apiKey s)]> headers in
  let headers := <["x-max-team-id" := string_or_null (teamId s)]> headers in
  let headers := <["x-api-secret" := string_or_null (apiSecret s)]> headers in
  let headers :=
    match v with
    | Src_MaxflowClient_ts =>
        <["x-max-application-id" := string_or_null (applicationId s)]> headers
    | MaxflowClient_ts | MaxFlow_ts => headers
    end in
  {| defaults_baseURL := baseURL s;
     defaults_timeout := defaults_timeout i;
     defaults_headers := defaults_headers i;
     defaults_headers_common := headers |}.

(** [http()]; the parameter [auth] exists in src/src/maxflowClient.ts only,
    the other two revisions always take the authenticated path. *)
Definition http (v : variant) (auth : bool) : M AxiosInstance :=
  match v, auth with
  | Src_MaxflowClient_ts, false =>
      s <- gets id ;;
      let i :=
        axios_create (baseURL s)
                     {[ "x-max-team-id" := string_or_null (teamId s) ]} in
      modify (set_axiosInstance (Some i)) ;;
      ret i
  | _, _ =>
      inst <- gets axiosInstance ;;
      i <- match inst with
           | None =>
               validateConfig v ;;
               s <- gets id ;;
               ret (axios_create (baseURL s) ∅)
           | Some i => ret i
           end ;;
      s <- gets id ;;
      let i := with_auth v s i in
      modify (set_axiosInstance (Some i)) ;;
      ret i
  end.

Definition setApiKey (v : variant) (key : string) (secret : string) : M unit :=
  modify (set_apiKey (Some key)) ;;
  match v with
  | Src_MaxflowClient_ts => modify (set_apiSecret (Some secret))
  | MaxflowClient_ts | MaxFlow_ts => ret tt
  end.
Definition setTeamId (id : string) : M unit := modify (set_teamId (Some id)).
Definition setApplicationId (id : string) : M unit :=
  modify (set_applicationId (Some id)).
Definition setBaseURL (url : string) : M unit := modify (set_baseURL url).

(** [pulse.create], named [pulse.push] in src/src/maxflowClient.ts. *)
Definition pulse_create (v : variant) (data : jsval) : M nat :=
  async (i <- http v true ;; send i (POST "/api/pulse" data)).

Definition pulse_get (v : variant) (pulse_id : string) : M nat :=
  async (i <- http v true ;; send i (GET ("/api/pulse/" +:+ pulse_id))).

(** The request carries [query] for the URL
    [`/api/pulse/?o=${encodeURIComponent(JSON.stringify(query))}`]. *)
Definition pulse_find (v : variant) (data : findData) : M nat :=
  async (
    match find_query v data with
    | Throw e => throw e
    | Return query => i <- http v true ;; send i (GET_pulse_query query)
    end).

Definition pulse_delete (v : variant) (pulse_id : jsval) : M nat :=
  async (
    match v with
    | Src_MaxflowClient_ts =>
        let pulseIds :=
          match pulse_id with
          | JArr _ => pulse_id
          | _ => JArr [pulse_id]
          end in
        i <- http v true ;; send i (DELETE "/api/pulse" (Some pulseIds))
    | MaxflowClient_ts | MaxFlow_ts =>
        i <- http v true ;;
        send i (DELETE ("/api/pulse/" +:+ ToString pulse_id) None)
    end).

Definition pulse_update (v : variant) (pulse_id : string) (data : jsval)
  : M nat :=
  async (i <- http v true ;; send i (PUT ("/api/pulse/" +:+ pulse_id) data)).

Definition optional (x : option jsval) : jsval := default JUndefined x.

(** [options?.callbackUrl ? '?callbackUrl=' + options.callbackUrl : ''] *)
Definition callback_suffix (options : RunOptions) : string :=
  match callback_url options with
  | Some u => if String.eqb u "" then "" else "?callbackUrl=" +:+ u
  | None => ""
  end.

Definition run (v : variant) (workflow_id : string) (options : RunOptions)
  : M nat :=
  async (
    try_catch
      (i <- http v true ;;
       match v with
       | Src_MaxflowClient_ts =>
           send i (POST ("/api/workflow/run/" +:+ workflow_id
                           +:+ callback_suffix options)
                        (JObj {[ "params" := optional (params options);
                                 "data" := optional (run_data options) ]}))
       | MaxflowClient_ts | MaxFlow_ts =>
           send i (POST ("/api/workflow/run/" +:+ workflow_id)
                        (JObj {[ "params" := optional (params options);
                                 "payload" := optional (run_data options);
                                 "callback_url" :=
                                   from_option JStr JUndefined
                                               (callback_url options) ]}))
       end)
      (λ error, throw error)).

Definition getExecutionStatus (v : variant) (execution_id : string) : M nat :=
  async (
    try_catch
      (i <- http v true ;;
       send i (GET ("/api/workflow/log?logId=" +:+ execution_id)))
      (λ error, throw error)).

(** src/src/maxflowClient.ts only. *)
Definition runPublic (public_id : string) (options : RunOptions) : M nat :=
  async (
    try_catch
      (i <- http Src_MaxflowClient_ts false ;;
       s <- gets id ;;
       send i (POST ("/api/integration/"
                       +:+ ToString (string_or_null (teamId s))
                       +:+ "/" +:+ public_id +:+ callback_suffix options)
                    (JObj {[ "params" := optional (params options);
                             "data" := optional (run_data options) ]})))
      (λ error, throw error)).

(** src/src/maxflowClient.ts only. *)
Definition getExecutionPublicStatus (execution_id public_id : string) : M nat :=
  async (
    try_catch
      (i <- http Src_MaxflowClient_ts false ;;
       send i (GET ("/api/workflow/log?logId=" +:+ execution_id
                      +:+ "&publicId=" +:+ public_id)))
      (λ error, throw error)).

(** *** push and processQueue *)

(** [item.resolve(response)], [item.reject(error)] *)
Definition resolve (item : QueueItem) (response : jsval) : M unit :=
  settle (promise item) (Fulfilled response).
Definition reject (item : QueueItem) (e : error) : M unit :=
  settle (promise item) (Rejected e).

(** What remains of processQueue for [item] once the promise that its map
    callback awaits is settled with [o]:
    [try { item.resolve(await ...) } catch (error) { item.reject(error) }]
    (written with [.then(...).catch(...)] in src/src/maxflowClient.ts), and
    around it the [catch] clause that guards [await Promise.all(...)]. *)
Definition resume_item (v : variant) (item : QueueItem)
    (snapshot : list QueueItem) (o : outcome) : M unit :=
  try_catch
    (try_catch
       (match o with
        | Fulfilled response => resolve item response
        | Rejected e => throw e
        end)
       (λ error, reject item error))
    (λ error,
       match v with
       | Src_MaxflowClient_ts => ret tt (* console.log(error) *)
       | MaxflowClient_ts | MaxFlow_ts =>
           forEach snapshot (λ item, reject item error)
       end).

(** [await p] in the map callback of [item]: the callback resumes at once
    when [p] is settled already, and is parked on [p] otherwise. *)
Definition await_item (v : variant) (snapshot : list QueueItem)
    (waiting : QueueItem * nat) : M unit :=
  let '(item, p) := waiting in
  st <- gets (promise_state p) ;;
  match st with
  | Some o => resume_item v item snapshot o
  | None => modify (λ s, set_awaiting (<[p := (item, snapshot)]> (awaiting s)) s)
  end.

(** [options?.immediately] *)
Definition is_immediately (options : option PushOptions) : bool :=
  default false (options ≫= immediately).

(** [push(reqdata, options)]; [now] is the value of [Date.now()]. *)
Definition push (v : variant) (reqdata : jsval) (options : option PushOptions)
    (now : Z) : M nat :=
  async (
    if is_immediately options then pulse_create v reqdata
    else
      p <- new_promise ;;
      modify (λ s, set_queue (queue s ++ [ {| data := reqdata;
                                             timestamp := now;
                                             promise := p;
                                             options := options |} ]) s) ;;
      t <- gets pushTimeout ;;
      match t with Some h => clearTimeout h | None => ret tt end ;;
      let debounceDelay := default QUEUE_DELAY (options ≫= debounce) in
      h <- setTimeout debounceDelay ;;
      modify (set_pushTimeout (Some h)) ;;
      q <- gets queue ;;
      (if (length q =? 1)%nat then
         let maxWait :=
           default MAX_QUEUE_TIME (options ≫= debounce_max_wait) in
         h <- setTimeout maxWait ;;
         modify (set_maxAgeTimeout (Some h))
       else ret tt) ;;
      ret p).

(** [processQueue()]: the map callbacks run one after the other up to their
    [await]; those whose promise is rejected already resume next. *)
Definition processQueue (v : variant) : M unit :=
  q <- gets queue ;;
  if (length q =? 0)%nat then ret tt
  else
    let snapshot := q in
    modify (set_queue []) ;;
    t <- gets pushTimeout ;;
    match t with
    | Some h => clearTimeout h ;; modify (set_pushTimeout None)
    | None => ret tt
    end ;;
    t <- gets maxAgeTimeout ;;
    match t with
    | Some h => clearTimeout h ;; modify (set_maxAgeTimeout None)
    | None => ret tt
    end ;;
    started <- mapM (λ item, p <- pulse_create v (data item) ;; ret (item, p))
                    snapshot ;;
    forEach started (await_item v snapshot).

(** ** Runs of a client *)

Inductive operation : Type :=
| Push (reqdata : jsval) (options : option PushOptions) (now : Z)
| Run (workflow_id : string) (options : RunOptions)
| GetExecutionStatus (execution_id : string)
| PulseCreate (data : jsval)
| PulseGet (pulse_id : string)
| PulseFind (data : findData)
| PulseDelete (pulse_id : jsval)
| PulseUpdate (pulse_id : string) (data : jsval)
| RunPublic (public_id : string) (options : RunOptions)
| GetExecutionPublicStatus (execution_id public_id : string)
| SetApiKey (key secret : string)
| SetTeamId (id : string)
| SetApplicationId (id : string)
| SetBaseURL (url : string).

(** The methods of each revision. *)
Definition has_method (v : variant) (op : operation) : bool :=
  match op, v with
  | (PulseUpdate _ _), Src_MaxflowClient_ts => false
  | (RunPublic _ _ | GetExecutionPublicStatus _ _ | SetApplicationId _),
    (MaxflowClient_ts | MaxFlow_ts) => false
  | _, _ => true
  end.

(** A call of a public method: [Some p] is the promise it returned, [None]
    stands for the [this] that a setter returns. *)
Definition call (v : variant) (op : operation) : M (option nat) :=
  let promised (m : M nat) : M (option nat) := p <- m ;; ret (Some p) in
  let chained (m : M unit) : M (option nat) := m ;; ret None in
  match op with
  | Push reqdata options now => promised (push v reqdata options now)
  | Run workflow_id options => promised (run v workflow_id options)
  | GetExecutionStatus execution_id =>
      promised (getExecutionStatus v execution_id)
  | PulseCreate data => promised (pulse_create v data)
  | PulseGet pulse_id => promised (pulse_get v pulse_id)
  | PulseFind data => promised (pulse_find v data)
  | PulseDelete pulse_id => promised (pulse_delete v pulse_id)
  | PulseUpdate pulse_id data => promised (pulse_update v pulse_id data)
  | RunPublic public_id options => promised (runPublic public_id options)
  | GetExecutionPublicStatus execution_id public_id =>
      promised (getExecutionPublicStatus execution_id public_id)
  | SetApiKey key secret => chained (setApiKey v key secret)
  | SetTeamId id => chained (setTeamId id)
  | SetApplicationId id => chained (setApplicationId id)
  | SetBaseURL url => chained (setBaseURL url)
  end.

(** What can happen to a client: the program calls a method; the host runs
    the callback of a live timeout; the transport answers a request in
    flight; and [Flush], a further invocation of [processQueue] by a timer
    callback that raced with another one. *)
Inductive event : Type :=
| Call (op : operation)
| Timeout (h : nat)
| Response (p : nat) (o : outcome)
| Flush.

Definition on_response (v : variant) (p : nat) (o : outcome) : M unit :=
  modify (λ s, set_requests (delete p (requests s)) s) ;;
  settle p o ;;
  k <- gets (λ s, awaiting s !! p) ;;
  match k with
  | Some (item, snapshot) =>
      modify (λ s, set_awaiting (delete p (awaiting s)) s) ;;
      resume_item v item snapshot o
  | None => ret tt
  end.

Definition step (v : variant) (s : state) (ev : event) : state :=
  match ev with
  | Call op => if has_method v op then (call v op s).2 else s
  | Timeout h =>
      match timers s !! h with
      | Some _ => (processQueue v (set_timers (delete h (timers s)) s)).2
      | None => s
      end
  | Response p o =>
      match requests s !! p with
      | Some _ => (on_response v p o s).2
      | None => s
      end
  | Flush => (processQueue v s).2
  end.

Definition run_events (v : variant) (s : state) (evs : list event) : state :=
  foldl (step v) s evs.

(** ** Accounting for promises, timers and quiescence *)

(** Where a promise can be while it is pending or once it is settled: held by
    a queued item, the promise of a request in flight, held by an item whose
    map callback is parked, or in the log of settling calls. *)
Definition places (s : state) : list nat :=
  (promise <$> queue s)
  ++ (map_to_list (requests s)).*1
  ++ ((λ x, promise x.2.1) <$> map_to_list (awaiting s))
  ++ (settled s).*1.

(** Number of calls that settled promise [p]. *)
Definition calls (p : nat) (s : state) : nat :=
  length (filter (λ c, c.1 = p) (settled s)).

(** Every promise created so far is in exactly one place, [held] listing
    those that a running method holds in its local variables. *)
Definition accounted (held : list nat) (s : state) : Prop :=
  places s ++ held ≡ₚ seq 0 (next_promise s).

Definition parked_on_requests (s : state) : Prop :=
  ∀ p, is_Some (awaiting s !! p) → is_Some (requests s !! p).

(** One live quiet-period timeout and one live max-wait timeout while the
    queue holds items, no live timeout otherwise. *)
Definition timers_ok (s : state) : Prop :=
  match queue s with
  | [] => timers s = ∅
  | _ :: _ =>
      ∃ (h1 h2 : nat) (d1 d2 : Z),
        pushTimeout s = Some h1 ∧ maxAgeTimeout s = Some h2 ∧ h1 ≠ h2
        ∧ timers s = {[ h1 := d1; h2 := d2 ]}
        ∧ (h1 < next_timer s)%nat ∧ (h2 < next_timer s)%nat
  end.

(** Every live timeout is the one of [pushTimeout] or of [maxAgeTimeout]. *)
Definition timers_known (s : state) : Prop :=
  ∀ h, is_Some (timers s !! h) →
       pushTimeout s = Some h ∨ maxAgeTimeout s = Some h.

Definition same_queue_and_timers (s s' : state) : Prop :=
  queue s' = queue s ∧ pushTimeout s' = pushTimeout s
  ∧ maxAgeTimeout s' = maxAgeTimeout s ∧ timers s' = timers s
  ∧ next_timer s' = next_timer s.

(** The client once [processQueue] has captured and cleared a queue that
    held items and has cancelled the two timeouts. *)
Definition detach (s : state) : state :=
  let s := set_queue [] s in
  let s :=
    match pushTimeout s with
    | Some h => set_pushTimeout None (set_timers (delete h (timers s)) s)
    | None => s
    end in
  match maxAgeTimeout s with
  | Some h => set_maxAgeTimeout None (set_timers (delete h (timers s)) s)
  | None => s
  end.

(** The two ways in which a method that issues one request ends: the request
    is sent and its promise returned, or the method threw before sending and
    returns a promise rejected with what was thrown. *)
Definition sent (p : nat) (r : request) (i : AxiosInstance) (s : state)
  : state :=
  set_requests (<[p := r]> (requests s))
    (set_next_promise (S p) (set_axiosInstance (Some i) s)).

Definition rejected (p : nat) (e : error) (s : state) : state :=
  set_settled (settled s ++ [(p, Rejected e)]) (set_next_promise (S p) s).

Definition issues (m : M nat) (s : state) : Prop :=
  let p := next_promise s in
  (∃ r i, m s = (Return p, sent p r i s))
  ∨ (∃ e, m s = (Return p, rejected p e s)).

Definition invariant (s : state) : Prop :=
  accounted [] s ∧ parked_on_requests s ∧ timers_ok s.

(** The rest of a run in which the host fires every live timeout and the
    transport answers every request in flight, request [p] with [answer p]. *)
Definition timeout_events (s : state) : list event :=
  Timeout <$> (map_to_list (timers s)).*1.

Definition response_events (answer : nat → outcome) (s : state) : list event :=
  (λ p, Response p (answer p)) <$> (map_to_list (requests s)).*1.

Definition quiesce (v : variant) (answer : nat → outcome) (s : state) : state :=
  let s1 := run_events v s (timeout_events s) in
  run_events v s1 (response_events answer s1).

(** The calls that go to the transport at once, and the calls that queue. *)
Definition sends_at_once (op : operation) : bool :=
  match op with
  | Push _ options _ => is_immediately options
  | Run _ _ | GetExecutionStatus _ | PulseCreate _ | PulseGet _ | PulseFind _
  | PulseDelete _ | PulseUpdate _ _ | RunPublic _ _
  | GetExecutionPublicStatus _ _ => true
  | SetApiKey _ _ | SetTeamId _ | SetApplicationId _ | SetBaseURL _ => false
  end.


(** Inputs of the examples. *)
Definition credentials : option MaxflowConfig :=
  Some {| config_apiKey := Some "key"; config_teamId := Some "team";
          config_applicationId := Some "app"; config_baseURL := None;
          config_apiSecret := Some "secret" |}.

Definition three_pushes : list event :=
  [ Call (Push (JStr "a") None 0); Call (Push (JStr "b") None 10);
    Call (Push (JStr "c") None 20) ].

Definition second_item : QueueItem :=
  {| data := JStr "b"; timestamp := 10; promise := 1; options := None |}.

Definition three_queued : state :=
  run_events MaxflowClient_ts (constructor MaxflowClient_ts credentials)
             three_pushes.

(** ** Tactics *)

(** Evaluation of the monad's operations on a state [s]. *)
Ltac run_monad s :=
  destruct s;
  cbv [bind gets modify ret throw try_catch async settle new_promise send
       setTimeout clearTimeout id sent rejected resolve reject];
  simpl.

Ltac same_shape s :=
  unfold pulse_create, pulse_get, pulse_update, pulse_delete,
         async, try_catch, bind, gets;
  by destruct (http _ _ s) as [[? | ?] ?].

(** ** The settings of a client *)

(** The fields that the constructor and the setters write. *)
Definition same_settings (s s' : state) : Prop :=
  apiKey s' = apiKey s ∧ apiSecret s' = apiSecret s ∧ teamId s' = teamId s
  ∧ applicationId s' = applicationId s ∧ baseURL s' = baseURL s.

Definition is_setter (ev : event) : bool :=
  match ev with
  | Call (SetApiKey _ _) | Call (SetTeamId _) | Call (SetApplicationId _)
  | Call (SetBaseURL _) => true
  | _ => false
  end.

(** The calls to [push] that queue, as events. *)
Definition queued_pushes (items : list (jsval * option PushOptions * Z))
  : list event :=
  (λ x, Call (Push x.1.1 x.1.2 x.2)) <$> items.

(** A client that has no API secret and has created no axios instance: it
    has sent nothing, and the promises it settled were rejected. *)
Definition without_secret (s : state) : Prop :=
  not_set (apiSecret s) = true ∧ axiosInstance s = None ∧ requests s = ∅
  ∧ Forall (λ c, ∃ e, c.2 = Rejected e) (settled s).

(** The calls that do not authenticate (src/src/maxflowClient.ts). *)
Definition is_public (op : operation) : bool :=
  match op with
  | RunPublic _ _ | GetExecutionPublicStatus _ _ => true
  | _ => false
  end.

(** While the queue is empty the two timer fields hold no handle. *)
Definition handles_cleared (s : state) : Prop :=
  queue s = [] → pushTimeout s = None ∧ maxAgeTimeout s = None.

(** Further inputs of the examples. *)
Definition after_one_request : state :=
  step MaxflowClient_ts (constructor MaxflowClient_ts credentials)
       (Call (PulseCreate (JNum 1))).

Definition no_secret : option MaxflowConfig :=
  Some {| config_apiKey := Some "key"; config_teamId := Some "team";
          config_applicationId := None; config_baseURL := None;
          config_apiSecret := None |}.

(** * Properties *)

(** ** The query builder *)

Section query_builder.
Implicit Types (v : variant) (m : gmap string jsval) (item : MatchItem).

Lemma match_assign_set_property v m item :
  match_assign v m item
  = set_property m (field item) (condition (operator item) (value item)).
Proof.
  destruct v; simpl; try done.
  destruct (negb _); [|done].
  unfold set_property. case_decide; [done|]. by rewrite insert_insert_eq.
Qed.

(** An assignment to ["__proto__"] leaves the own properties as they are;
    for any other key the last assignment is the one that counts. *)
Lemma foldl_match_assign_lookup v items m f :
  foldl (match_assign v) m items !! f =
  if decide (f = "__proto__") then m !! f
  else match last (filter (λ item, field item = f) items) with
       | Some item => Some (condition (operator item) (value item))
       | None => m !! f
       end.
Proof.
  induction items as [|item items IH] using rev_ind.
  { simpl. by case_decide. }
  rewrite foldl_app, filter_app. simpl. rewrite match_assign_set_property.
  rewrite filter_cons, filter_nil. unfold set_property.
  destruct (decide (field item = f)) as [Heq|Hne].
  - rewrite last_snoc. subst f.
    destruct (decide (field item = "__proto__")) as [Hp|Hp]; [done|].
    by rewrite lookup_insert_eq.
  - rewrite app_nil_r.
    destruct (decide (field item = "__proto__")) as [Hp|Hp]; [done|].
    by rewrite lookup_insert_ne.
Qed.

(** The later steps of [find_query] leave [query.match] as it is. *)
Lemma find_query_match v data q :
  find_query v data = Return q →
  q !! "match" =
  match match_ data with
  | Some (MatchArray items) => Some (JObj (foldl (match_assign v) ∅ items))
  | Some (MatchRecord r) =>
      match match_record v ∅ r with
      | Return q0 => q0 !! "match"
      | Throw _ => None
      end
  | None => None
  end.
Proof.
  unfold find_query.
  destruct (match_ data) as [[items|r]|]; simpl.
  - intros [= <-].
    destruct (page data), (pageSize data), (search data), (orderBy data);
      by simplify_map_eq.
  - destruct (match_record v ∅ r) as [q0|e]; simpl; [|done].
    intros [= <-].
    destruct (page data), (pageSize data), (search data), (orderBy data);
      by simplify_map_eq.
  - intros [= <-].
    destruct (page data), (pageSize data), (search data), (orderBy data);
      by simplify_map_eq.
Qed.

Lemma find_query_MatchArray_returns v items pg ps so ob se :
  ∃ q, find_query v {| match_ := Some (MatchArray items); page := pg;
                       pageSize := ps; sort := so; orderBy := ob;
                       search := se |} = Return q.
Proof. unfold find_query. simpl. eauto. Qed.
End query_builder.

(** C3 does not hold as stated for every list of triples. A triple whose
    field is ["__proto__"] does not become an entry of the mapping: the
    assignment [query.match[item.field] = ...] replaces the prototype of
    [query.match], and the [match] of the query that is built has no entry
    at all, in each revision. *)
Lemma C3_counterexample :
  let data :=
    {| match_ := Some (MatchArray
                   [ {| field := "__proto__"; operator := "eq";
                        value := JNum 1 |} ]);
       page := None; pageSize := None; sort := None; orderBy := None;
       search := None |} in
  find_query MaxflowClient_ts data = Return {[ "match" := JObj ∅ ]}
  ∧ find_query MaxFlow_ts data = Return {[ "match" := JObj ∅ ]}
  ∧ find_query Src_MaxflowClient_ts data = Return {[ "match" := JObj ∅ ]}.
Proof. done. Qed.

(** C3, amended. For a [match] given as a list of [{field, operator,
    value}], and in each of the three revisions, [find_query] returns a
    query whose [match] is an object that maps a field [f] other than
    ["__proto__"] to [{ "$"+operator: value }] of the last item of the list
    whose field is [f], and has no entry for a field that no item names: a
    later item on the same field replaces the earlier condition, nothing is
    merged. It has no entry for ["__proto__"], whatever the items. *)
Theorem C3_match_list_last_write_wins
    (v : variant) (items : list MatchItem) (pg ps : option Z)
    (so : option string) (ob : option (list OrderItem))
    (se : option SearchConfig) :
  ∃ (q m : gmap string jsval),
    find_query v {| match_ := Some (MatchArray items); page := pg;
                    pageSize := ps; sort := so; orderBy := ob;
                    search := se |} = Return q
    ∧ q !! "match" = Some (JObj m)
    ∧ ∀ f : string,
        m !! f =
        if decide (f = "__proto__") then None
        else (λ item, JObj {[ "$" +:+ operator item := value item ]})
               <$> last (filter (λ item, field item = f) items).
Proof.
  destruct (find_query_MatchArray_returns v items pg ps so ob se) as [q Hq].
  exists q, (foldl (match_assign v) ∅ items). split; [done|]. split.
  - by rewrite (find_query_match _ _ _ Hq).
  - intros f. rewrite foldl_match_assign_lookup.
    case_decide; [done|]. by destruct (last _).
Qed.

(** The two examples of the specification. *)
Example find_query_status_active (v : variant) :
  find_query v {| match_ := Some (MatchArray
                    [ {| field := "status"; operator := "eq";
                         value := JStr "active" |} ]);
                  page := None; pageSize := None; sort := None;
                  orderBy := None; search := None |}
  = Return {[ "match" :=
                JObj {[ "status" := JObj {[ "$eq" := JStr "active" ]} ]} ]}.
Proof. by destruct v. Qed.

Example find_query_same_field_twice (v : variant) :
  find_query v {| match_ := Some (MatchArray
                    [ {| field := "a"; operator := "eq"; value := JNum 1 |};
                      {| field := "a"; operator := "gt"; value := JNum 2 |} ]);
                  page := None; pageSize := None; sort := None;
                  orderBy := None; search := None |}
  = Return {[ "match" := JObj {[ "a" := JObj {[ "$gt" := JNum 2 ]} ]} ]}.
Proof. by destruct v. Qed.

Section ordering.
Implicit Types (v : variant) (item : OrderItem).

Lemma find_query_orderBy v data q :
  find_query v data = Return q →
  q !! "orderBy" = (λ items, JArr (order_entry v <$> items)) <$> orderBy data.
Proof.
  unfold find_query.
  destruct (match _ with Some _ => _ | None => _ end) as [q0|e] eqn:Hm;
    simpl; [|done].
  intros [= <-]. destruct (orderBy data); simpl; [by simplify_map_eq|].
  assert (q0 !! "orderBy" = None) as H0.
  { destruct (match_ data) as [[items|r]|]; simplify_eq; [done| |done].
    revert Hm. unfold match_record.
    destruct v; simpl; try (intros [= <-]; done). }
  destruct (page data), (pageSize data), (search data); by simplify_map_eq.
Qed.

(** With [??] an explicit direction is kept whatever its value. *)
Lemma order_direction_nullish v item :
  v ≠ MaxFlow_ts →
  order_direction v item =
  match direction item with
  | Some d => d
  | None => if decide (order item = Some "desc") then -1 else 1
  end.
Proof. destruct v; [|done|]; intros _; simpl; by destruct (direction item). Qed.

(** With [||] the direction 0 is taken for a missing one. *)
Lemma order_direction_MaxFlow_ts item :
  order_direction MaxFlow_ts item =
  match direction item with
  | Some d =>
      if decide (d = 0)
      then (if decide (order item = Some "desc") then -1 else 1)
      else d
  | None => if decide (order item = Some "desc") then -1 else 1
  end.
Proof.
  simpl. destruct (direction item) as [d|]; [|done]. simpl.
  destruct (decide (d = 0)) as [->|Hd]; [done|].
  by apply Z.eqb_neq in Hd as ->.
Qed.

(** The entries of [query.orderBy], in src/maxflowClient.ts and
    src/src/maxflowClient.ts: an object with the two properties [field] and
    [direction], the latter being the explicit direction when there is one,
    else -1 for [order === 'desc'], else 1. *)
Lemma find_query_orderBy_nullish v data q items :
  v ≠ MaxFlow_ts →
  find_query v data = Return q →
  orderBy data = Some items →
  q !! "orderBy" =
  Some (JArr ((λ item,
     JObj {[ "field" := JStr (order_field item);
             "direction" :=
               JNum match direction item with
                    | Some d => d
                    | None => if decide (order item = Some "desc")
                              then -1 else 1
                    end ]}) <$> items)).
Proof.
  intros Hv Hq Hitems. rewrite (find_query_orderBy _ _ _ Hq), Hitems. simpl.
  do 2 f_equal. apply list_fmap_ext. intros _ item _.
  unfold order_entry. by rewrite order_direction_nullish.
Qed.

Lemma order_entry_no_order v item (o : gmap string jsval) :
  order_entry v item = JObj o → dom o = {[ "field"; "direction" ]}.
Proof. intros [= <-]. by rewrite dom_insert_L, dom_singleton_L. Qed.
End ordering.

(** C4. The input [{orderBy: [{field: "ts", direction: 0}]}]: src/maxflow.ts
    writes [item.direction || ...] and returns the direction 1, where
    src/maxflowClient.ts and src/src/maxflowClient.ts, which write
    [item.direction ?? ...], return the given direction 0. *)
Theorem C4_direction_zero_in_maxflow_ts :
  let data := {| match_ := None; page := None; pageSize := None; sort := None;
                 orderBy := Some [ {| order_field := "ts"; order := None;
                                      direction := Some 0 |} ];
                 search := None |} in
  find_query MaxFlow_ts data
  = Return {[ "orderBy" :=
       JArr [ JObj {[ "field" := JStr "ts"; "direction" := JNum 1 ]} ] ]}
  ∧ find_query MaxflowClient_ts data
    = Return {[ "orderBy" :=
         JArr [ JObj {[ "field" := JStr "ts"; "direction" := JNum 0 ]} ] ]}
  ∧ find_query Src_MaxflowClient_ts data
    = Return {[ "orderBy" :=
         JArr [ JObj {[ "field" := JStr "ts"; "direction" := JNum 0 ]} ] ]}.
Proof. done. Qed.

(** The two orderings of the specification, in every revision. *)
Example find_query_order_desc (v : variant) :
  find_query v {| match_ := None; page := None; pageSize := None; sort := None;
                  orderBy := Some [ {| order_field := "ts";
                                       order := Some "desc";
                                       direction := None |} ];
                  search := None |}
  = Return {[ "orderBy" :=
       JArr [ JObj {[ "field" := JStr "ts"; "direction" := JNum (-1) ]} ] ]}.
Proof. by destruct v. Qed.

Example find_query_direction_5 (v : variant) :
  find_query v {| match_ := None; page := None; pageSize := None; sort := None;
                  orderBy := Some [ {| order_field := "ts";
                                       order := Some "desc";
                                       direction := Some 5 |} ];
                  search := None |}
  = Return {[ "orderBy" :=
       JArr [ JObj {[ "field" := JStr "ts"; "direction" := JNum 5 ]} ] ]}.
Proof. by destruct v. Qed.

(** ** A [match] that is not an array *)

(** src/maxflowClient.ts and src/src/maxflowClient.ts read a [match] that is
    not an array as one [{field, operator, value}] object: the output has one
    key, taken from [data.match.field], whatever the keys of the mapping. *)
Lemma find_query_MatchRecord (v : variant) (r : gmap string jsval)
    (data : findData) :
  v ≠ MaxFlow_ts →
  match_ data = Some (MatchRecord r) →
  ∃ q, find_query v data = Return q
       ∧ q !! "match" =
         Some (JObj {[ ToString (member r "field") :=
                 JObj {[ "$" +:+ ToString (member r "operator") :=
                           member r "value" ]} ]}).
Proof.
  intros Hv Hr.
  assert (match_record v ∅ r =
          Return (<["match" := JObj {[ ToString (member r "field") :=
             condition (ToString (member r "operator")) (member r "value") ]}]>
                    ∅)) as Hm by (by destruct v).
  assert (∃ q, find_query v data = Return q) as [q Hq].
  { unfold find_query. rewrite Hr, Hm. simpl. eauto. }
  exists q. split; [done|].
  rewrite (find_query_match _ _ _ Hq), Hr, Hm. by simplify_map_eq.
Qed.

(** C2. The flat mapping of the README,
    [{userId: {$eq: '12345'}, createdAt: {$gte: '2023-01-01'}}]: neither key
    reaches the output of src/maxflowClient.ts (nor that of
    src/src/maxflowClient.ts), whose [match] is
    [{"undefined": {"$undefined": undefined}}]; the operator prefix is
    applied in this branch too. src/maxflow.ts builds no query at all. *)
Theorem C2_flat_match_is_not_copied :
  let data := {| match_ := Some (MatchRecord
                    {[ "userId" := JObj {[ "$eq" := JStr "12345" ]};
                       "createdAt" := JObj {[ "$gte" := JStr "2023-01-01" ]} ]});
                 page := Some 1; pageSize := Some 25; sort := None;
                 orderBy := None; search := None |} in
  let q : gmap string jsval :=
    {[ "match" :=
         JObj {[ "undefined" := JObj {[ "$undefined" := JUndefined ]} ]};
       "page" := JNum 1; "pageSize" := JNum 25 ]} in
  find_query MaxflowClient_ts data = Return q
  ∧ find_query Src_MaxflowClient_ts data = Return q
  ∧ find_query MaxFlow_ts data
    = Throw (TypeError "Cannot set properties of undefined").
Proof. done. Qed.

(** In those two revisions a single condition given as an object goes through
    the same transform as an item of a list. *)
Example find_query_one_condition_object :
  find_query MaxflowClient_ts
    {| match_ := Some (MatchRecord
                   {[ "field" := JStr "status"; "operator" := JStr "eq";
                      "value" := JStr "active" ]});
       page := None; pageSize := None; sort := None; orderBy := None;
       search := None |}
  = Return {[ "match" :=
                JObj {[ "status" := JObj {[ "$eq" := JStr "active" ]} ]} ]}.
Proof. done. Qed.

(** ** Methods that issue one request *)

Section requests.
Implicit Types (v : variant) (s : state) (r : request).

Lemma validateConfig_cases v s :
  validateConfig v s = (Return tt, s)
  ∨ ∃ msg, validateConfig v s = (Throw (Error msg), s).
Proof.
  unfold validateConfig, bind, gets; simpl.
  destruct v; repeat (destruct (not_set _); [right; eauto|]); by left.
Qed.

Lemma http_true_unfold v s :
  http v true s =
  (inst <- gets axiosInstance ;;
   i <- match inst with
        | None =>
            validateConfig v ;; s <- gets id ;;
            ret (axios_create (baseURL s) ∅)
        | Some i => ret i
        end ;;
   s <- gets id ;;
   modify (set_axiosInstance (Some (with_auth v s i))) ;;
   ret (with_auth v s i)) s.
Proof. by destruct v. Qed.

Lemma http_true_cases v s :
  (∃ i, http v true s = (Return i, set_axiosInstance (Some i) s))
  ∨ (∃ msg, axiosInstance s = None
          ∧ validateConfig v s = (Throw (Error msg), s)
          ∧ http v true s = (Throw (Error msg), s)).
Proof.
  rewrite http_true_unfold.
  unfold bind, gets; simpl.
  destruct (axiosInstance s) as [i|] eqn:Hi.
  - left. eexists. reflexivity.
  - destruct (validateConfig_cases v s) as [H|[msg H]]; rewrite H.
    + left. eexists. reflexivity.
    + right. by exists msg.
Qed.

Lemma http_false s :
  ∃ i, http Src_MaxflowClient_ts false s
       = (Return i, set_axiosInstance (Some i) s).
Proof. eexists. unfold http, bind, gets, modify, ret. simpl. reflexivity. Qed.

Lemma http_cases v auth s :
  (∃ i, http v auth s = (Return i, set_axiosInstance (Some i) s))
  ∨ (∃ e, http v auth s = (Throw e, s)).
Proof.
  assert (http v auth s = http v true s ∨ (v = Src_MaxflowClient_ts ∧ auth = false))
    as [->|[-> ->]] by (destruct v, auth; auto).
  - destruct (http_true_cases v s) as [?|(msg & _ & _ & ?)]; eauto.
  - left. apply http_false.
Qed.

(** A method of the shape [async (i <- http() ;; i.request(...))]. *)
Lemma issues_http_send v auth (f : AxiosInstance → state → request) s :
  issues (async (i <- http v auth ;; s' <- gets id ;; send i (f i s'))) s.
Proof.
  unfold issues.
  destruct (http_cases v auth s) as [[i H]|[e H]]; [left|right].
  - exists (f i (set_axiosInstance (Some i) s)), i.
    unfold async, try_catch. unfold bind at 1. rewrite H. by run_monad s.
  - exists e.
    unfold async, try_catch. unfold bind at 1. rewrite H. by run_monad s.
Qed.

Lemma issues_ext (m1 m2 : M nat) s : m1 s = m2 s → issues m1 s → issues m2 s.
Proof. unfold issues. by intros ->. Qed.

Lemma async_rethrow (m : M nat) s :
  async (try_catch m (λ error, throw error)) s = async m s.
Proof. unfold async, try_catch, throw. by destruct (m s) as [[p|e] s']. Qed.

Lemma pulse_create_issues v d s : issues (pulse_create v d) s.
Proof.
  eapply issues_ext;
    [|apply (issues_http_send v true (λ _ _, POST "/api/pulse" d))].
  same_shape s.
Qed.

Lemma pulse_get_issues v pulse_id s : issues (pulse_get v pulse_id) s.
Proof.
  eapply issues_ext;
    [|apply (issues_http_send v true (λ _ _, GET ("/api/pulse/" +:+ pulse_id)))].
  same_shape s.
Qed.

Lemma pulse_update_issues v pulse_id d s : issues (pulse_update v pulse_id d) s.
Proof.
  eapply issues_ext;
    [|apply (issues_http_send v true
               (λ _ _, PUT ("/api/pulse/" +:+ pulse_id) d))].
  same_shape s.
Qed.

Lemma pulse_delete_issues v pulse_id s : issues (pulse_delete v pulse_id) s.
Proof.
  eapply issues_ext;
    [|apply (issues_http_send v true
        (λ _ _, match v with
                | Src_MaxflowClient_ts =>
                    DELETE "/api/pulse"
                      (Some match pulse_id with
                            | JArr _ => pulse_id
                            | _ => JArr [pulse_id]
                            end)
                | _ => DELETE ("/api/pulse/" +:+ ToString pulse_id) None
                end))].
  destruct v; same_shape s.
Qed.

Lemma pulse_find_issues v d s : issues (pulse_find v d) s.
Proof.
  unfold pulse_find. destruct (find_query v d) as [q|e].
  - eapply issues_ext;
      [|apply (issues_http_send v true (λ _ _, GET_pulse_query q))].
    same_shape s.
  - right. exists e. by run_monad s.
Qed.

Lemma run_issues v workflow_id o s : issues (run v workflow_id o) s.
Proof.
  unfold run. eapply issues_ext; [symmetry; apply async_rethrow|].
  eapply issues_ext;
    [|apply (issues_http_send v true
        (λ _ _, match v with
                | Src_MaxflowClient_ts =>
                    POST ("/api/workflow/run/" +:+ workflow_id
                            +:+ callback_suffix o)
                         (JObj {[ "params" := optional (params o);
                                  "data" := optional (run_data o) ]})
                | _ =>
                    POST ("/api/workflow/run/" +:+ workflow_id)
                         (JObj {[ "params" := optional (params o);
                                  "payload" := optional (run_data o);
                                  "callback_url" :=
                                    from_option JStr JUndefined
                                                (callback_url o) ]})
                end))].
  destruct v; same_shape s.
Qed.

Lemma getExecutionStatus_issues v execution_id s :
  issues (getExecutionStatus v execution_id) s.
Proof.
  unfold getExecutionStatus.
  eapply issues_ext; [symmetry; apply async_rethrow|].
  eapply issues_ext;
    [|apply (issues_http_send v true
               (λ _ _, GET ("/api/workflow/log?logId=" +:+ execution_id)))].
  same_shape s.
Qed.

Lemma runPublic_issues public_id o s : issues (runPublic public_id o) s.
Proof.
  unfold runPublic. eapply issues_ext; [symmetry; apply async_rethrow|].
  apply (issues_http_send Src_MaxflowClient_ts false
           (λ _ s', POST ("/api/integration/"
                            +:+ ToString (string_or_null (teamId s'))
                            +:+ "/" +:+ public_id +:+ callback_suffix o)
                         (JObj {[ "params" := optional (params o);
                                  "data" := optional (run_data o) ]}))).
Qed.

Lemma getExecutionPublicStatus_issues execution_id public_id s :
  issues (getExecutionPublicStatus execution_id public_id) s.
Proof.
  unfold getExecutionPublicStatus.
  eapply issues_ext; [symmetry; apply async_rethrow|].
  eapply issues_ext;
    [|apply (issues_http_send Src_MaxflowClient_ts false
               (λ _ _, GET ("/api/workflow/log?logId=" +:+ execution_id
                              +:+ "&publicId=" +:+ public_id)))].
  done.
Qed.
End requests.

(** ** The invariant of a run *)

Section accounting.
Implicit Types (v : variant) (s : state) (held : list nat) (p : nat).

Lemma accounted_lt held s p :
  accounted held s → p ∈ places s ++ held → (p < next_promise s)%nat.
Proof.
  unfold accounted. intros H Hp. rewrite H in Hp.
  apply elem_of_seq in Hp. lia.
Qed.

Lemma accounted_NoDup held s : accounted held s → NoDup (places s ++ held).
Proof. unfold accounted. intros ->. apply NoDup_seq. Qed.

Lemma accounted_requests_fresh held s p :
  accounted held s → (next_promise s ≤ p)%nat → requests s !! p = None.
Proof.
  intros H Hp. destruct (requests s !! p) as [r|] eqn:Hr; [|done].
  assert (p < next_promise s)%nat; [|lia].
  apply (accounted_lt held); [done|]. unfold places.
  rewrite !elem_of_app. left. right. left.
  apply list_elem_of_fmap. exists (p, r). split; [done|].
  by apply elem_of_map_to_list.
Qed.

Lemma accounted_settled_fresh held s p :
  accounted held s → (next_promise s ≤ p)%nat → p ∉ (settled s).*1.
Proof.
  intros H Hp Hin. assert (p < next_promise s)%nat; [|lia].
  apply (accounted_lt held); [done|]. unfold places.
  rewrite !elem_of_app. auto.
Qed.

Lemma places_sent s r i :
  requests s !! next_promise s = None →
  places (sent (next_promise s) r i s) ≡ₚ next_promise s :: places s.
Proof.
  intros Hfresh. unfold places. destruct s; simpl in *.
  rewrite map_to_list_insert by done. rewrite fmap_cons.
  symmetry. apply Permutation_middle.
Qed.

Lemma places_rejected s e :
  places (rejected (next_promise s) e s) ≡ₚ next_promise s :: places s.
Proof.
  unfold places. destruct s; simpl.
  rewrite fmap_app. simpl. rewrite !app_assoc.
  by rewrite <-Permutation_cons_append.
Qed.

Lemma accounted_next held s s' :
  places s' ≡ₚ next_promise s :: places s →
  next_promise s' = S (next_promise s) →
  accounted held s → accounted held s'.
Proof.
  unfold accounted. intros -> -> H. rewrite seq_S, <-app_comm_cons, H.
  apply Permutation_cons_append.
Qed.

Lemma accounted_sent held s r i :
  accounted held s → accounted held (sent (next_promise s) r i s).
Proof.
  intros H. eapply accounted_next; [|by destruct s|done].
  apply places_sent. by eapply accounted_requests_fresh.
Qed.

Lemma accounted_rejected held s e :
  accounted held s → accounted held (rejected (next_promise s) e s).
Proof.
  intros H. eapply accounted_next; [|by destruct s|done].
  apply places_rejected.
Qed.

Lemma issues_accounted (m : M nat) held s :
  issues m s → accounted held s → accounted held (m s).2.
Proof.
  intros [(r & i & ->)|(e & ->)] H; simpl.
  - by apply accounted_sent.
  - by apply accounted_rejected.
Qed.

Lemma issues_parked (m : M nat) s :
  issues m s → parked_on_requests s → parked_on_requests (m s).2.
Proof.
  unfold parked_on_requests.
  intros [(r & i & ->)|(e & ->)] H p;
    destruct s as [? ? ? ? ? ? ? ? ? ? ? ? ? n ?]; simpl in *; [|by auto].
  intros Hp. destruct (decide (p = n)) as [->|Hne].
  - by rewrite lookup_insert_eq.
  - rewrite lookup_insert_ne by done. auto.
Qed.

Lemma issues_same_queue_and_timers (m : M nat) s :
  issues m s → same_queue_and_timers s (m s).2.
Proof. by intros [(r & i & ->)|(e & ->)]; destruct s. Qed.

Lemma same_queue_and_timers_ok s s' :
  same_queue_and_timers s s' → timers_ok s → timers_ok s'.
Proof.
  unfold same_queue_and_timers, timers_ok.
  by intros (-> & -> & -> & -> & ->).
Qed.

Lemma issues_invariant (m : M nat) s :
  issues m s → invariant s → invariant (m s).2.
Proof.
  intros Hm (Ha & Hp & Ht). split; [|split].
  - by apply issues_accounted.
  - by apply issues_parked.
  - eapply same_queue_and_timers_ok; [|done].
    by apply issues_same_queue_and_timers.
Qed.
End accounting.

(** ** processQueue *)

Section flush.
Implicit Types (v : variant) (s : state) (held : list nat) (p : nat).
Implicit Types (item : QueueItem) (snapshot : list QueueItem).

(** The map callback of an item calls exactly one of [item.resolve] and
    [item.reject], once, and does not throw: the [catch] clause around
    [Promise.all] is never entered. *)
Lemma resume_item_eq v item snapshot o s :
  resume_item v item snapshot o s
  = (Return tt, set_settled (settled s ++ [(promise item, o)]) s).
Proof. unfold resume_item. destruct o; by run_monad s. Qed.

Lemma promise_state_is_Some p s :
  is_Some (promise_state p s) ↔ p ∈ (settled s).*1.
Proof.
  unfold promise_state. rewrite fmap_is_Some, list_elem_of_fmap.
  split.
  - intros [c Hc]. apply head_Some_elem_of in Hc.
    apply list_elem_of_filter in Hc as [Hc1 Hc2]. eauto.
  - intros (c & -> & Hc).
    destruct (filter (λ c0, c0.1 = c.1) (settled s)) as [|c' l] eqn:Hf; [|by eauto].
    assert (c ∈ filter (λ c0, c0.1 = c.1) (settled s)) as Hin
      by (by apply list_elem_of_filter).
    rewrite Hf in Hin. by apply not_elem_of_nil in Hin.
Qed.

Lemma await_item_cases v snapshot item p s :
  (∃ o, promise_state p s = Some o
        ∧ await_item v snapshot (item, p) s
          = (Return tt, set_settled (settled s ++ [(promise item, o)]) s))
  ∨ (promise_state p s = None
     ∧ await_item v snapshot (item, p) s
       = (Return tt,
          set_awaiting (<[p := (item, snapshot)]> (awaiting s)) s)).
Proof.
  unfold await_item, bind, gets.
  destruct (promise_state p s) as [o|]; [left|right].
  - exists o. split; [done|]. apply resume_item_eq.
  - done.
Qed.

Lemma bind_ret_eq {A B} (m : M A) (g : A → B) s a s1 :
  m s = (Return a, s1) → (x <- m ;; ret (g x)) s = (Return (g a), s1).
Proof. unfold bind. by intros ->. Qed.

Lemma mapM_cons_eq {A B} (f : A → M B) x xs s y s1 ys s2 :
  f x s = (Return y, s1) →
  mapM f xs s1 = (Return ys, s2) →
  mapM f (x :: xs) s = (Return (y :: ys), s2).
Proof. simpl. unfold bind. by intros -> ->. Qed.

Lemma forEach_cons_eq {A} (f : A → M unit) x xs s s1 s2 :
  f x s = (Return tt, s1) →
  forEach xs f s1 = (Return tt, s2) →
  forEach (x :: xs) f s = (Return tt, s2).
Proof. simpl. unfold bind. by intros -> ->. Qed.

Lemma same_queue_and_timers_refl s : same_queue_and_timers s s.
Proof. by repeat split. Qed.

Lemma same_queue_and_timers_trans s1 s2 s3 :
  same_queue_and_timers s1 s2 → same_queue_and_timers s2 s3 →
  same_queue_and_timers s1 s3.
Proof.
  unfold same_queue_and_timers.
  intros (? & ? & ? & ? & ?) (? & ? & ? & ? & ?). repeat split; congruence.
Qed.

Lemma issues_effects (m : M nat) s :
  issues m s →
  requests s !! next_promise s = None →
  ∃ s1, m s = (Return (next_promise s), s1)
        ∧ next_promise s1 = S (next_promise s)
        ∧ same_queue_and_timers s s1
        ∧ awaiting s1 = awaiting s
        ∧ requests s ⊆ requests s1
        ∧ (∃ new, settled s1 = settled s ++ new
                  ∧ ∀ c, c ∈ new → c.1 = next_promise s)
        ∧ (is_Some (requests s1 !! next_promise s)
           ∨ next_promise s ∈ (settled s1).*1).
Proof.
  intros [(r & i & ->)|(e & ->)] Hfresh; eexists; (split; [done|]);
    destruct s; simpl in *; repeat split; try done.
  - by apply insert_subseteq.
  - exists []. split; [by rewrite app_nil_r|]. by intros c ?%not_elem_of_nil.
  - left. by rewrite lookup_insert_eq.
  - eexists. split; [done|]. by intros c ->%list_elem_of_singleton.
  - right. rewrite fmap_app. apply elem_of_app. right. simpl. left.
Qed.

Lemma start_all v items held s :
  accounted held s →
  ∃ s', mapM (λ item, p <- pulse_create v (data item) ;; ret (item, p)) items s
        = (Return (zip items (seq (next_promise s) (length items))), s')
      ∧ accounted held s'
      ∧ next_promise s' = (next_promise s + length items)%nat
      ∧ same_queue_and_timers s s'
      ∧ awaiting s' = awaiting s
      ∧ requests s ⊆ requests s'
      ∧ (∃ new, settled s' = settled s ++ new
                ∧ ∀ c, c ∈ new → (next_promise s ≤ c.1)%nat)
      ∧ ∀ p, (next_promise s ≤ p < next_promise s')%nat →
             is_Some (requests s' !! p) ∨ p ∈ (settled s').*1.
Proof.
  revert s. induction items as [|item items IH]; intros s Hacc.
  - exists s. simpl. unfold ret.
    split; [done|]. split; [done|]. split; [lia|].
    split; [apply same_queue_and_timers_refl|].
    split; [done|]. split; [done|]. split; [|lia].
    exists []. split; [by rewrite app_nil_r|]. by intros c ?%not_elem_of_nil.
  - pose proof (pulse_create_issues v (data item) s) as Hi.
    pose proof (issues_accounted _ held _ Hi Hacc) as Hacc1.
    destruct (issues_effects _ _ Hi) as
      (s1 & Hm & Hn & Hq & Ha & Hr & (new1 & Hs1 & Hnew1) & Hp1).
    { by eapply accounted_requests_fresh. }
    rewrite Hm in Hacc1. simpl in Hacc1.
    destruct (IH s1 Hacc1) as
      (s' & Hm' & Hacc' & Hn' & Hq' & Ha' & Hr' & (new & Hs' & Hnew) & Hp').
    exists s'. split.
    { eapply mapM_cons_eq; [by apply bind_ret_eq|]. by rewrite Hm', Hn. }
    split; [done|]. split; [simpl; lia|]. split.
    { by eapply same_queue_and_timers_trans. }
    split; [congruence|]. split; [by etrans|]. split.
    { exists (new1 ++ new). split; [by rewrite Hs', Hs1, app_assoc|].
      intros c [Hc|Hc]%elem_of_app.
      - rewrite (Hnew1 c Hc). lia.
      - specialize (Hnew c Hc). lia. }
    intros p Hp. destruct (decide (p = next_promise s)) as [->|Hne].
    + destruct Hp1 as [[r Hreq]|Hset].
      * left. exists r. by eapply lookup_weaken.
      * right. rewrite Hs', fmap_app. apply elem_of_app. by left.
    + apply Hp'. lia.
Qed.

Lemma next_promise_set_settled s x :
  next_promise (set_settled x s) = next_promise s.
Proof. by destruct s. Qed.

Lemma next_promise_set_awaiting s x :
  next_promise (set_awaiting x s) = next_promise s.
Proof. by destruct s. Qed.

Lemma places_settle s q o :
  places (set_settled (settled s ++ [(q, o)]) s) = places s ++ [q].
Proof.
  unfold places. destruct s; simpl. by rewrite fmap_app, !app_assoc.
Qed.

Lemma places_park s p item snapshot :
  awaiting s !! p = None →
  places (set_awaiting (<[p := (item, snapshot)]> (awaiting s)) s)
  ≡ₚ promise item :: places s.
Proof.
  intros Hp. unfold places. destruct s; simpl in *.
  rewrite map_to_list_insert by done. rewrite fmap_cons. simpl.
  rewrite <-!Permutation_middle. done.
Qed.

Lemma await_all v snapshot started held s :
  NoDup started.*2 →
  (∀ item p, (item, p) ∈ started →
     awaiting s !! p = None
     ∧ (is_Some (requests s !! p) ∨ p ∈ (settled s).*1)) →
  parked_on_requests s →
  accounted ((promise <$> started.*1) ++ held) s →
  ∃ s', forEach started (await_item v snapshot) s = (Return tt, s')
      ∧ accounted held s'
      ∧ parked_on_requests s'
      ∧ same_queue_and_timers s s'
      ∧ requests s' = requests s
      ∧ next_promise s' = next_promise s
      ∧ awaiting s ⊆ awaiting s'
      ∧ ∃ new, settled s' = settled s ++ new
               ∧ ∀ c, c ∈ new → c.1 ∈ promise <$> started.*1.
Proof.
  revert s. induction started as [|[item p] rest IH];
    intros s Hnd Hst Hpark Hacc.
  - exists s. simpl in *. unfold ret.
    split; [done|]. split; [done|]. split; [done|].
    split; [apply same_queue_and_timers_refl|].
    split; [done|]. split; [done|]. split; [done|].
    exists []. split; [by rewrite app_nil_r|]. by intros c ?%not_elem_of_nil.
  - rewrite fmap_cons in Hnd. rewrite !fmap_cons in Hacc.
    simpl in Hnd, Hacc.
    repeat setoid_rewrite fmap_cons. simpl fst.
    apply NoDup_cons in Hnd as [Hp Hnd].
    destruct (Hst item p) as [Hnone Hsome]; [left|].
    assert (∀ item' p', (item', p') ∈ rest → p' ≠ p) as Hne.
    { intros item' p' Hin ->. apply Hp.
      apply list_elem_of_fmap. by exists (item', p). }
    destruct (await_item_cases v snapshot item p s)
      as [(o & Ho & Hm)|[Ho Hm]].
    + set (s1 := set_settled (settled s ++ [(promise item, o)]) s) in *.
      destruct (IH s1) as
        (s' & Hm' & Hacc' & Hpark' & Hq' & Hr' & Hn' & Hsub' & new & Hs' & Hnew).
      * done.
      * intros item' p' Hin.
        destruct (Hst item' p') as [H1 H2]; [by right|].
        subst s1. destruct s; simpl in *. split; [done|].
        destruct H2 as [?|?]; [by left|right].
        rewrite fmap_app. apply elem_of_app. by left.
      * subst s1. by destruct s.
      * unfold accounted in *. subst s1. rewrite places_settle.
        rewrite next_promise_set_settled.
        by rewrite <-app_assoc.
      * exists s'. split; [by eapply forEach_cons_eq|].
        split; [done|]. split; [done|]. split.
        { eapply same_queue_and_timers_trans; [|done]. subst s1. by destruct s. }
        split; [rewrite Hr'; subst s1; by destruct s|].
        split; [rewrite Hn'; subst s1; by destruct s|].
        split; [etrans; [|done]; subst s1; by destruct s|].
        exists ((promise item, o) :: new). split.
        { rewrite Hs'. subst s1. destruct s; simpl. by rewrite <-app_assoc. }
        intros c [->|Hc]%elem_of_cons; [left|right; auto].
    + set (s1 := set_awaiting (<[p := (item, snapshot)]> (awaiting s)) s) in *.
      assert (is_Some (requests s !! p)) as Hreq.
      { destruct Hsome as [?|Hin]; [done|].
        apply promise_state_is_Some in Hin. rewrite Ho in Hin.
        by destruct Hin. }
      destruct (IH s1) as
        (s' & Hm' & Hacc' & Hpark' & Hq' & Hr' & Hn' & Hsub' & new & Hs' & Hnew).
      * done.
      * intros item' p' Hin.
        destruct (Hst item' p') as [H1 H2]; [by right|].
        specialize (Hne _ _ Hin).
        subst s1. destruct s; simpl in *.
        by rewrite lookup_insert_ne.
      * unfold parked_on_requests in *. intros p'.
        subst s1. destruct s; simpl in *.
        destruct (decide (p' = p)) as [->|Hpp].
        { done. }
        { rewrite lookup_insert_ne by done. auto. }
      * unfold accounted in *. subst s1.
        rewrite places_park by done.
        rewrite next_promise_set_awaiting.
        rewrite <-Hacc. simpl. by rewrite Permutation_middle.
      * exists s'. split; [by eapply forEach_cons_eq|].
        split; [done|]. split; [done|]. split.
        { eapply same_queue_and_timers_trans; [|done]. subst s1. by destruct s. }
        split; [rewrite Hr'; subst s1; by destruct s|].
        split; [rewrite Hn'; subst s1; by destruct s|].
        split.
        { etrans; [|done]. subst s1. destruct s; simpl in *.
          by apply insert_subseteq. }
        exists new. split.
        { rewrite Hs'. subst s1. by destruct s. }
        intros c Hc. right. auto.
Qed.
End flush.

Section processQueue.
Implicit Types (v : variant) (s : state) (p : nat).

Lemma processQueue_empty v s : queue s = [] → processQueue v s = (Return tt, s).
Proof. intros H. unfold processQueue, bind, gets. by rewrite H. Qed.

Lemma processQueue_nonempty v s :
  queue s ≠ [] →
  processQueue v s
  = (started <- mapM (λ item, p <- pulse_create v (data item) ;; ret (item, p))
                     (queue s) ;;
     forEach started (await_item v (queue s))) (detach s).
Proof.
  intros H. unfold processQueue, detach.
  destruct s as [? ? ? ? ? q pt mt ? ? ? ? ? ? ?]; simpl in *.
  destruct q as [|item q]; [done|].
  unfold bind at 1. unfold gets at 1. simpl.
  unfold bind at 1. unfold modify at 1. simpl.
  unfold bind at 1. unfold gets at 1. simpl.
  destruct pt as [hp|], mt as [hm|]; reflexivity.
Qed.

Lemma detach_fields s :
  queue (detach s) = [] ∧ pushTimeout (detach s) = None
  ∧ maxAgeTimeout (detach s) = None
  ∧ next_timer (detach s) = next_timer s
  ∧ requests (detach s) = requests s ∧ awaiting (detach s) = awaiting s
  ∧ next_promise (detach s) = next_promise s
  ∧ settled (detach s) = settled s.
Proof.
  unfold detach. destruct s as [? ? ? ? ? q pt mt ? ? ? ? ? ? ?]; simpl.
  by destruct pt, mt.
Qed.

Lemma detach_timers s : timers_known s → timers (detach s) = ∅.
Proof.
  unfold timers_known, detach.
  destruct s as [? ? ? ? ? q pt mt ? tm ? ? ? ? ?]; simpl.
  intros H. apply map_eq. intros h. rewrite lookup_empty.
  destruct (tm !! h) as [d|] eqn:Hh.
  - destruct (H h) as [-> | ->]; [by eauto|..]; simpl.
    + destruct mt; simpl; [|by rewrite lookup_delete_eq].
      rewrite lookup_delete. case_decide; [done|]. by rewrite lookup_delete_eq.
    + destruct pt; simpl; by rewrite lookup_delete_eq.
  - destruct pt, mt; simpl; rewrite ?lookup_delete; repeat case_decide; done.
Qed.

Lemma detach_places s :
  places (detach s) ++ (promise <$> queue s) ≡ₚ places s.
Proof.
  unfold places.
  destruct (detach_fields s) as (-> & _ & _ & _ & -> & -> & _ & ->).
  simpl. by rewrite (comm (++)).
Qed.

Lemma processQueue_flush v s :
  queue s ≠ [] → accounted [] s → parked_on_requests s →
  ∃ s', processQueue v s = (Return tt, s')
      ∧ accounted [] s'
      ∧ parked_on_requests s'
      ∧ same_queue_and_timers (detach s) s'
      ∧ requests s ⊆ requests s'
      ∧ next_promise s' = (next_promise s + length (queue s))%nat
      ∧ awaiting s ⊆ awaiting s'
      ∧ ∃ new, settled s' = settled s ++ new
               ∧ ∀ c, c ∈ new →
                   (next_promise s ≤ c.1)%nat ∨ c.1 ∈ promise <$> queue s.
Proof.
  intros Hq Hacc Hpark. rewrite processQueue_nonempty by done.
  destruct (detach_fields s) as (Hdq & _ & _ & _ & Hdr & Hda & Hdn & Hds).
  assert (accounted (promise <$> queue s) (detach s)) as Hacc1.
  { unfold accounted in *. rewrite detach_places, Hdn.
    by rewrite app_nil_r in Hacc. }
  destruct (start_all v (queue s) _ _ Hacc1) as
    (s2 & Hm2 & Hacc2 & Hn2 & Hq2 & Ha2 & Hr2 & (new2 & Hs2 & Hnew2) & Hp2).
  set (started := zip (queue s) (seq (next_promise (detach s)) (length (queue s))))
    in *.
  assert (started.*1 = queue s) as Hfst
    by (apply fst_zip; rewrite length_seq; lia).
  assert (started.*2 = seq (next_promise (detach s)) (length (queue s))) as Hsnd
    by (apply snd_zip; rewrite length_seq; lia).
  destruct (await_all v (queue s) started [] s2) as
    (s' & Hm' & Hacc' & Hpark' & Hq' & Hr' & Hn' & Hsub' & new & Hs' & Hnew).
  - rewrite Hsnd. apply NoDup_seq.
  - intros item p Hin.
    assert (p ∈ started.*2) as Hp
      by (apply list_elem_of_fmap; by exists (item, p)).
    rewrite Hsnd in Hp. apply elem_of_seq in Hp.
    split.
    + rewrite Ha2, Hda.
      destruct (awaiting s !! p) eqn:Hap; [|done].
      destruct (Hpark p) as [r Hr]; [by eauto|].
      rewrite (accounted_requests_fresh [] s p) in Hr; [done|done|lia].
    + apply Hp2. lia.
  - intros p Hp. rewrite Ha2, Hda in Hp.
    destruct (Hpark p Hp) as [r Hr]. exists r.
    eapply lookup_weaken; [|done]. by rewrite Hdr.
  - by rewrite Hfst, app_nil_r.
  - exists s'. split.
    { unfold bind at 1. by rewrite Hm2. }
    split; [done|]. split; [done|].
    split; [by eapply same_queue_and_timers_trans|].
    split; [by rewrite Hr', <-Hdr|].
    split; [by rewrite Hn', Hn2, Hdn|].
    split; [by rewrite <-Hda, <-Ha2|].
    exists (new2 ++ new). split.
    { by rewrite Hs', Hs2, Hds, app_assoc. }
    intros c [Hc|Hc]%elem_of_app.
    + left. rewrite <-Hdn. auto.
    + right. rewrite <-Hfst. auto.
Qed.
End processQueue.

(** ** push *)

Section push.
Implicit Types (v : variant) (s : state) (p : nat).

(** The timeouts that are live after a push that queued an item, but for the
    max-wait timeout: the old quiet-period timeout is cancelled and a new one
    started. *)
Lemma push_queued v reqdata options now s :
  is_immediately options = false →
  let item := {| data := reqdata; timestamp := now;
                 promise := next_promise s; options := options |} in
  let quiet : gmap nat Z :=
    <[next_timer s := default QUEUE_DELAY (options ≫= debounce)]>
      (match pushTimeout s with
       | Some h => delete h (timers s)
       | None => timers s
       end) in
  ∃ s', push v reqdata options now s = (Return (next_promise s), s')
      ∧ queue s' = queue s ++ [item]
      ∧ next_promise s' = S (next_promise s)
      ∧ requests s' = requests s
      ∧ awaiting s' = awaiting s
      ∧ settled s' = settled s
      ∧ pushTimeout s' = Some (next_timer s)
      ∧ match queue s with
        | [] =>
            maxAgeTimeout s' = Some (S (next_timer s))
            ∧ timers s' =
              <[S (next_timer s) :=
                  default MAX_QUEUE_TIME (options ≫= debounce_max_wait)]> quiet
            ∧ next_timer s' = S (S (next_timer s))
        | _ :: _ =>
            maxAgeTimeout s' = maxAgeTimeout s
            ∧ timers s' = quiet
            ∧ next_timer s' = S (next_timer s)
        end.
Proof.
  intros Him. unfold push. rewrite Him.
  destruct s as [? ? ? ? ? q pt mt ? ? ? ? ? ? ?].
  cbv [bind gets modify ret throw try_catch async settle new_promise send
       setTimeout clearTimeout id]; simpl.
  destruct pt as [h|]; simpl.
  - destruct q as [|item q]; simpl; [by eexists|].
    rewrite length_app. simpl.
    replace (length q + 1 =? 0)%nat with false
      by (symmetry; apply Nat.eqb_neq; lia).
    by eexists.
  - destruct q as [|item q]; simpl; [by eexists|].
    rewrite length_app. simpl.
    replace (length q + 1 =? 0)%nat with false
      by (symmetry; apply Nat.eqb_neq; lia).
    by eexists.
Qed.

Lemma push_immediately v reqdata options now s :
  is_immediately options = true →
  push v reqdata options now s = pulse_create v reqdata s.
Proof.
  intros Him. unfold push. rewrite Him.
  destruct (pulse_create_issues v reqdata s) as [(r & i & H)|(e & H)];
    unfold async, try_catch at 1; by rewrite H.
Qed.

Lemma push_issues v reqdata options now s :
  is_immediately options = true → issues (push v reqdata options now) s.
Proof.
  intros Him. eapply issues_ext; [symmetry; by apply push_immediately|].
  apply pulse_create_issues.
Qed.

Lemma timers_ok_known s : timers_ok s → timers_known s.
Proof.
  unfold timers_ok, timers_known. destruct (queue s).
  - intros -> h. rewrite lookup_empty. by intros [? ?].
  - intros (h1 & h2 & d1 & d2 & -> & -> & Hne & -> & _) h.
    rewrite lookup_insert. case_decide; [subst; auto|].
    rewrite lookup_singleton. case_decide; [subst; auto|].
    by intros [? ?].
Qed.

Lemma push_queued_invariant v reqdata options now s :
  is_immediately options = false →
  invariant s → invariant (push v reqdata options now s).2.
Proof.
  intros Him (Hacc & Hpark & Ht).
  destruct (push_queued v reqdata options now s Him)
    as (s' & -> & Hq & Hn & Hr & Ha & Hs & Hpt & Hm).
  simpl. split; [|split].
  - unfold accounted, places in *. rewrite Hq, Hn, Hr, Ha, Hs, seq_S.
    rewrite <-Hacc. rewrite fmap_app. simpl.
    rewrite !app_nil_r, <-!app_assoc. simpl.
    by rewrite <-Permutation_middle, Permutation_cons_append, <-!app_assoc.
  - unfold parked_on_requests in *. by rewrite Hr, Ha.
  - unfold timers_ok in *. rewrite Hq.
    destruct (queue s) as [|item q]; simpl.
    + destruct Hm as (Hmt & Htm & Hnt). rewrite Ht in Htm.
      exists (next_timer s), (S (next_timer s)). do 2 eexists.
      split; [done|]. split; [done|]. split; [lia|]. split; [|lia].
      rewrite Htm. destruct (pushTimeout s); rewrite ?delete_empty.
      all: rewrite <-!insert_empty; apply insert_insert_ne; lia.
    + destruct Ht as (h1 & h2 & d1 & d2 & Hp1 & Hp2 & Hne & Htm & Hl1 & Hl2).
      destruct Hm as (Hmt & Htm' & Hnt). rewrite Hp1, Htm in Htm'.
      exists (next_timer s), h2. do 2 eexists.
      split; [done|]. split; [congruence|]. split; [lia|]. split; [|lia].
      rewrite Htm', delete_insert_eq, delete_singleton_ne; done.
Qed.
End push.

(** ** Every reachable state satisfies the invariant *)

Section runs.
Implicit Types (v : variant) (s : state) (p : nat).

Lemma on_response_eq v p o s :
  on_response v p o s =
  (Return tt,
   match awaiting s !! p with
   | Some (item, _) =>
       set_settled (settled s ++ [(p, o); (promise item, o)])
         (set_awaiting (delete p (awaiting s))
            (set_requests (delete p (requests s)) s))
   | None =>
       set_settled (settled s ++ [(p, o)])
         (set_requests (delete p (requests s)) s)
   end).
Proof.
  unfold on_response.
  unfold bind at 1. unfold modify at 1.
  unfold bind at 1. unfold settle at 1. unfold modify at 1.
  unfold bind at 1. unfold gets at 1.
  replace (awaiting (set_settled _ (set_requests _ s))) with (awaiting s)
    by (by destruct s).
  destruct (awaiting s !! p) as [[item snapshot]|].
  - unfold bind, modify. rewrite resume_item_eq.
    destruct s; simpl. by rewrite <-app_assoc.
  - by destruct s.
Qed.

Lemma constructor_invariant v config : invariant (constructor v config).
Proof.
  split; [|split].
  - unfold accounted, places. simpl. by rewrite !map_to_list_empty.
  - intros p. simpl. rewrite lookup_empty. by intros [? ?].
  - done.
Qed.

Lemma places_answered s p r o :
  requests s !! p = Some r →
  places (set_settled (settled s ++ [(p, o)])
            (set_requests (delete p (requests s)) s))
  ≡ₚ places s.
Proof.
  intros Hr. unfold places.
  rewrite <-(map_to_list_delete (requests s) _ _ Hr).
  destruct s; simpl. rewrite fmap_app. simpl.
  rewrite <-!Permutation_middle. by rewrite app_nil_r.
Qed.

Lemma places_answered_parked s p r o item snapshot :
  requests s !! p = Some r →
  awaiting s !! p = Some (item, snapshot) →
  places (set_settled (settled s ++ [(p, o); (promise item, o)])
            (set_awaiting (delete p (awaiting s))
               (set_requests (delete p (requests s)) s)))
  ≡ₚ places s.
Proof.
  intros Hr Ha. unfold places.
  rewrite <-(map_to_list_delete (requests s) _ _ Hr).
  rewrite <-(map_to_list_delete (awaiting s) _ _ Ha).
  destruct s; simpl. rewrite fmap_app. simpl.
  rewrite <-!Permutation_middle. by rewrite app_nil_r.
Qed.

Lemma Response_invariant v p o s r :
  requests s !! p = Some r →
  invariant s → invariant (on_response v p o s).2.
Proof.
  intros Hr (Hacc & Hpark & Ht). rewrite on_response_eq. simpl.
  destruct (awaiting s !! p) as [[item snapshot]|] eqn:Ha.
  - split; [|split].
    + unfold accounted in *.
      rewrite (places_answered_parked _ _ _ _ _ _ Hr Ha).
      by destruct s.
    + unfold parked_on_requests in *. intros p'. destruct s; simpl in *.
      rewrite !lookup_delete. case_decide; [by intros [? ?]|]. auto.
    + unfold timers_ok in *. by destruct s.
  - split; [|split].
    + unfold accounted in *. rewrite (places_answered _ _ _ _ Hr).
      by destruct s.
    + unfold parked_on_requests in *. intros p'. destruct s; simpl in *.
      intros Hp'. rewrite lookup_delete_ne; [by auto|].
      intros ->. rewrite Ha in Hp'. by destruct Hp'.
    + unfold timers_ok in *. by destruct s.
Qed.

Lemma processQueue_invariant v s :
  accounted [] s → parked_on_requests s → timers_known s →
  invariant (processQueue v s).2 ∨ (queue s = [] ∧ processQueue v s = (Return tt, s)).
Proof.
  intros Hacc Hpark Ht. destruct (queue s) as [|item q] eqn:Hq.
  - right. split; [done|]. by apply processQueue_empty.
  - left.
    destruct (processQueue_flush v s) as
      (s' & -> & Hacc' & Hpark' & (Hq' & _ & _ & Ht' & _) & _ & _ & _);
      [by rewrite Hq|done|done|].
    simpl. split; [done|]. split; [done|].
    unfold timers_ok.
    destruct (detach_fields s) as (Hdq & _).
    by rewrite Hq', Hdq, Ht', detach_timers.
Qed.

Lemma Flush_invariant v s : invariant s → invariant (processQueue v s).2.
Proof.
  intros (Hacc & Hpark & Ht).
  destruct (processQueue_invariant v s) as [?|[_ ->]];
    auto using timers_ok_known.
  done.
Qed.

Lemma Timeout_invariant v h d s :
  timers s !! h = Some d →
  invariant s →
  invariant (processQueue v (set_timers (delete h (timers s)) s)).2.
Proof.
  intros Hh (Hacc & Hpark & Ht).
  destruct (processQueue_invariant v (set_timers (delete h (timers s)) s))
    as [?|[Hq _]]; [by destruct s|by destruct s| |done|].
  - apply timers_ok_known in Ht. unfold timers_known in *.
    intros h'. destruct s; simpl in *.
    rewrite lookup_delete. case_decide; [by intros [? ?]|]. auto.
  - exfalso. unfold timers_ok in Ht.
    replace (queue s) with (@nil QueueItem) in Ht by (by destruct s).
    rewrite Ht in Hh. by rewrite lookup_empty in Hh.
Qed.

Lemma call_invariant v op s : invariant s → invariant (call v op s).2.
Proof.
  intros Hinv.
  assert (∀ m : M nat, issues m s →
            invariant ((p <- m ;; ret (Some p)) s).2) as Hissues.
  { intros m Hm. pose proof (issues_invariant _ _ Hm Hinv) as H.
    unfold bind, ret. by destruct (m s) as [[?|?] ?]. }
  assert (∀ m : M unit, invariant (m s).2 →
            (∃ s', m s = (Return tt, s')) →
            invariant ((m ;; ret (@None nat)) s).2) as Hset.
  { intros m H [s' Hm]. unfold bind, ret. rewrite Hm in *. done. }
  destruct op as [reqdata opts now| ? ? | ? | ? | ? | ? | ? | ? ? | ? ?
                 | ? ? | ? ? | ? | ? | ?];
    unfold call; cbv beta iota zeta.
  - destruct (is_immediately opts) eqn:Him.
    + apply Hissues. by apply push_issues.
    + pose proof (push_queued_invariant v reqdata opts now s Him Hinv) as H.
      destruct (push_queued v reqdata opts now s Him) as (s' & Hm & _).
      unfold bind, ret. by rewrite Hm in *.
  - apply Hissues, run_issues.
  - apply Hissues, getExecutionStatus_issues.
  - apply Hissues, pulse_create_issues.
  - apply Hissues, pulse_get_issues.
  - apply Hissues, pulse_find_issues.
  - apply Hissues, pulse_delete_issues.
  - apply Hissues, pulse_update_issues.
  - apply Hissues, runPublic_issues.
  - apply Hissues, getExecutionPublicStatus_issues.
  - apply Hset; [|destruct v; by eexists].
    revert Hinv. unfold invariant, accounted, places, parked_on_requests, timers_ok.
    by destruct v, s.
  - apply Hset; [|by eexists].
    revert Hinv. unfold invariant, accounted, places, parked_on_requests, timers_ok.
    by destruct s.
  - apply Hset; [|by eexists].
    revert Hinv. unfold invariant, accounted, places, parked_on_requests, timers_ok.
    by destruct s.
  - apply Hset; [|by eexists].
    revert Hinv. unfold invariant, accounted, places, parked_on_requests, timers_ok.
    by destruct s.
Qed.

Lemma step_invariant v s ev : invariant s → invariant (step v s ev).
Proof.
  intros Hinv. destruct ev as [op|h|p o|]; simpl.
  - destruct (has_method v op); [by apply call_invariant|done].
  - destruct (timers s !! h) as [d|] eqn:Hh; [|done].
    by eapply Timeout_invariant.
  - destruct (requests s !! p) as [r|] eqn:Hr; [|done].
    by eapply Response_invariant.
  - by apply Flush_invariant.
Qed.

Lemma run_events_invariant v s evs :
  invariant s → invariant (run_events v s evs).
Proof.
  revert s. induction evs as [|ev evs IH]; intros s Hinv; [done|].
  simpl. apply IH. by apply step_invariant.
Qed.

Lemma reachable_invariant v config evs :
  invariant (run_events v (constructor v config) evs).
Proof. apply run_events_invariant, constructor_invariant. Qed.
End runs.

(** ** Promises are never forgotten, and a run can always quiesce *)

Section settlement.
Implicit Types (v : variant) (s : state) (p : nat).

Lemma issues_next_promise (m : M nat) s :
  issues m s → next_promise (m s).2 = S (next_promise s).
Proof. by intros [(r & i & ->)|(e & ->)]; destruct s. Qed.

Lemma processQueue_next_promise v s :
  invariant s → (next_promise s ≤ next_promise (processQueue v s).2)%nat.
Proof.
  intros (Hacc & Hpark & _). destruct (queue s) as [|item q] eqn:Hq.
  - by rewrite processQueue_empty.
  - destruct (processQueue_flush v s) as (s' & -> & _ & _ & _ & _ & Hn & _);
      [by rewrite Hq|done|done|]. simpl. lia.
Qed.

Lemma step_next_promise v s ev :
  invariant s → (next_promise s ≤ next_promise (step v s ev))%nat.
Proof.
  intros Hinv.
  destruct ev as [op|h|p o|]; simpl.
  - destruct (has_method v op); [|done].
    assert (∀ m : M nat, issues m s →
              (next_promise s
               ≤ next_promise ((p <- m ;; ret (Some p)) s).2)%nat) as Hissues.
    { intros m Hm. pose proof (issues_next_promise _ _ Hm) as H.
      unfold bind, ret. destruct (m s) as [[?|?] ?]; simpl in *; lia. }
    destruct op as [reqdata opts now| ? ? | ? | ? | ? | ? | ? | ? ? | ? ?
                   | ? ? | ? ? | ? | ? | ?];
      unfold call; cbv beta iota zeta.
    + destruct (is_immediately opts) eqn:Him.
      * apply Hissues. by apply push_issues.
      * destruct (push_queued v reqdata opts now s Him)
          as (s' & Hm & _ & Hn & _).
        unfold bind, ret. rewrite Hm. simpl. lia.
    + apply Hissues, run_issues.
    + apply Hissues, getExecutionStatus_issues.
    + apply Hissues, pulse_create_issues.
    + apply Hissues, pulse_get_issues.
    + apply Hissues, pulse_find_issues.
    + apply Hissues, pulse_delete_issues.
    + apply Hissues, pulse_update_issues.
    + apply Hissues, runPublic_issues.
    + apply Hissues, getExecutionPublicStatus_issues.
    + by destruct v, s.
    + by destruct s.
    + by destruct s.
    + by destruct s.
  - destruct (timers s !! h) as [d|] eqn:Hh; [|done].
    destruct Hinv as (Hacc & Hpark & Ht).
    set (s0 := set_timers (delete h (timers s)) s).
    assert (next_promise s = next_promise s0) as -> by (by destruct s).
    destruct (queue s0) as [|item q] eqn:Hq.
    + by rewrite processQueue_empty.
    + destruct (processQueue_flush v s0) as (s' & -> & _ & _ & _ & _ & Hn & _);
        [by rewrite Hq|subst s0; by destruct s..|]. simpl. lia.
  - destruct (requests s !! p) as [r|] eqn:Hr; [|done].
    rewrite on_response_eq. simpl.
    destruct (awaiting s !! p) as [[item snapshot]|]; by destruct s.
  - by apply processQueue_next_promise.
Qed.

Lemma run_events_next_promise v s evs :
  invariant s → (next_promise s ≤ next_promise (run_events v s evs))%nat.
Proof.
  revert s. induction evs as [|ev evs IH]; intros s Hinv; [done|].
  simpl. etrans; [by apply (step_next_promise v s ev)|].
  apply IH. by apply step_invariant.
Qed.

Lemma filter_fst_nil {A} (l : list (nat * A)) p :
  p ∉ l.*1 → filter (λ c, c.1 = p) l = [].
Proof.
  induction l as [|[q a] l IH]; [done|].
  rewrite fmap_cons, not_elem_of_cons. simpl. intros [Hne Hp].
  rewrite filter_cons_False by (simpl; congruence). auto.
Qed.

Lemma filter_fst_unique {A} (l : list (nat * A)) p a :
  NoDup l.*1 → (p, a) ∈ l → filter (λ c, c.1 = p) l = [(p, a)].
Proof.
  induction l as [|[q b] l IH]; [by intros _ ?%not_elem_of_nil|].
  rewrite fmap_cons. simpl. intros [Hq Hnd]%NoDup_cons Hin.
  apply elem_of_cons in Hin as [[= <- <-]|Hin].
  - rewrite filter_cons_True by done. by rewrite filter_fst_nil.
  - rewrite filter_cons_False; [by apply IH|].
    simpl. intros ->. apply Hq. apply list_elem_of_fmap. by exists (p, a).
Qed.

Lemma filter_fst_length {A} (l : list (nat * A)) p :
  NoDup l.*1 → (length (filter (λ c, c.1 = p) l) ≤ 1)%nat.
Proof.
  intros Hnd. destruct (decide (p ∈ l.*1)) as [Hin|Hin].
  - apply list_elem_of_fmap in Hin as ([q a] & -> & Hin).
    by rewrite (filter_fst_unique _ _ a).
  - rewrite filter_fst_nil by done. simpl. lia.
Qed.

(** No promise is settled twice. *)
Lemma invariant_calls s p : invariant s → (calls p s ≤ 1)%nat.
Proof.
  intros (Hacc & _). apply filter_fst_length.
  apply accounted_NoDup in Hacc. unfold places in Hacc.
  rewrite app_nil_r in Hacc.
  by do 3 apply NoDup_app in Hacc as (_ & _ & Hacc).
Qed.

(** Once the queue is empty and no request is in flight, every promise
    created so far has been settled by exactly one call. *)
Lemma invariant_quiescent s p :
  invariant s → queue s = [] → requests s = ∅ →
  (p < next_promise s)%nat →
  ∃ o, filter (λ c, c.1 = p) (settled s) = [(p, o)].
Proof.
  intros (Hacc & Hpark & _) Hq Hr Hp.
  assert (awaiting s = ∅) as Ha.
  { apply map_eq. intros p'. rewrite lookup_empty.
    destruct (awaiting s !! p') eqn:Hp'; [|done].
    destruct (Hpark p') as [r Hr']; [by eauto|].
    by rewrite Hr, lookup_empty in Hr'. }
  unfold accounted, places in Hacc.
  rewrite Hq, Hr, Ha, !map_to_list_empty, app_nil_r in Hacc. simpl in Hacc.
  assert (p ∈ (settled s).*1) as Hin
    by (rewrite Hacc; apply elem_of_seq; lia).
  apply list_elem_of_fmap in Hin as ([q o] & -> & Hin).
  exists o. apply filter_fst_unique; [|done].
  rewrite Hacc. apply NoDup_seq.
Qed.

(** Firing timeouts flushes the queue as soon as one of them is live. *)
Lemma run_timeouts_empty v s hs :
  queue s = [] → invariant s → run_events v s (Timeout <$> hs) = s.
Proof.
  intros Hq (_ & _ & Ht). unfold timers_ok in Ht. rewrite Hq in Ht.
  induction hs as [|h hs IH]; [done|].
  rewrite fmap_cons. simpl. by rewrite Ht, lookup_empty.
Qed.

Lemma run_timeouts v s hs :
  invariant s →
  (∀ h, is_Some (timers s !! h) → h ∈ hs) →
  let s' := run_events v s (Timeout <$> hs) in
  queue s' = [] ∧ invariant s'.
Proof.
  intros Hinv Hlive.
  destruct (queue s) as [|item q] eqn:Hq; [by rewrite run_timeouts_empty|].
  assert (∃ h, is_Some (timers s !! h)) as [h0 Hh0].
  { destruct Hinv as (_ & _ & Ht). unfold timers_ok in Ht. rewrite Hq in Ht.
    destruct Ht as (h1 & h2 & d1 & d2 & _ & _ & _ & -> & _).
    exists h1. by rewrite lookup_insert_eq. }
  pose proof (Hlive _ Hh0) as Hmem. clear Hlive.
  induction hs as [|h hs IH]; [by apply not_elem_of_nil in Hmem|].
  rewrite fmap_cons. simpl.
  destruct (timers s !! h) as [d|] eqn:Hh.
  - pose proof (Timeout_invariant v h d s Hh Hinv) as Hinv'.
    set (s0 := set_timers (delete h (timers s)) s) in *.
    destruct Hinv as (Hacc & Hpark & Ht).
    destruct (processQueue_flush v s0) as
      (s' & Hm & _ & _ & (Hq' & _) & _);
      [subst s0; destruct s; simpl in *; by rewrite Hq
      |subst s0; by destruct s..|].
    rewrite Hm in *. simpl in *.
    assert (queue s' = []) as Hq''.
    { rewrite Hq'. by destruct (detach_fields s0) as (? & _). }
    by rewrite run_timeouts_empty.
  - apply elem_of_cons in Hmem as [->|Hmem]; [|by auto].
    rewrite Hh in Hh0. by destruct Hh0.
Qed.

(** Answering the requests in flight empties [requests]. *)
Lemma run_responses v (answer : nat → outcome) s ps :
  invariant s → queue s = [] → NoDup ps →
  (∀ p, p ∈ ps ↔ is_Some (requests s !! p)) →
  let s' := run_events v s ((λ p, Response p (answer p)) <$> ps) in
  queue s' = [] ∧ requests s' = ∅ ∧ invariant s'
  ∧ next_promise s' = next_promise s.
Proof.
  revert s. induction ps as [|p ps IH]; intros s Hinv Hq Hnd Hdom.
  - simpl. split; [done|]. split; [|done].
    apply map_eq. intros p. rewrite lookup_empty.
    destruct (requests s !! p) eqn:Hp; [|done].
    assert (p ∈ @nil nat) as ?%not_elem_of_nil by (apply Hdom; eauto). done.
  - rewrite fmap_cons. simpl.
    destruct (proj1 (Hdom p)) as [r Hr]; [left|]. rewrite Hr.
    apply NoDup_cons in Hnd as [Hp Hnd].
    pose proof (Response_invariant v p (answer p) s r Hr Hinv) as Hinv'.
    rewrite on_response_eq in *. simpl in *.
    set (s1 := match awaiting s !! p with Some _ => _ | None => _ end) in *.
    assert (queue s1 = queue s ∧ requests s1 = delete p (requests s)
            ∧ next_promise s1 = next_promise s) as (Hq1 & Hr1 & Hn1).
    { subst s1. destruct (awaiting s !! p) as [[? ?]|]; by destruct s. }
    destruct (IH s1) as (Hq' & Hr' & Hi' & Hn'); [done|congruence|done| |].
    + intros p'. rewrite Hr1, lookup_delete. case_decide as Hpp.
      * subst. split; [done|]. by intros [? ?].
      * rewrite <-Hdom, elem_of_cons.
        split; [by right|intros [?|?]; [congruence|done]].
    + split; [done|]. split; [done|]. split; [done|]. by rewrite Hn'.
Qed.
End settlement.

Lemma quiesce_settles (v : variant) (answer : nat → outcome) (s : state)
    (p : nat) :
  invariant s → (p < next_promise s)%nat →
  ∃ o, filter (λ c, c.1 = p) (settled (quiesce v answer s)) = [(p, o)].
Proof.
  intros Hinv Hp. unfold quiesce.
  destruct (run_timeouts v s (map_to_list (timers s)).*1 Hinv) as [Hq1 Hinv1].
  { intros h [d Hh]. apply list_elem_of_fmap. exists (h, d).
    split; [done|]. by apply elem_of_map_to_list. }
  pose proof (run_events_next_promise v s (timeout_events s) Hinv) as Hn1.
  unfold timeout_events in *.
  set (s1 := run_events v s (Timeout <$> (map_to_list (timers s)).*1)) in *.
  destruct (run_responses v answer s1 (map_to_list (requests s1)).*1)
    as (Hq2 & Hr2 & Hinv2 & Hn2); [done|done|apply NoDup_fst_map_to_list| |].
  { intros p'. rewrite list_elem_of_fmap. split.
    - intros ([p'' r] & -> & Hin%elem_of_map_to_list). by eexists.
    - intros [r Hr]. exists (p', r). split; [done|].
      by apply elem_of_map_to_list. }
  apply invariant_quiescent; try done. unfold response_events. lia.
Qed.



(** ** The max-wait timer *)

(** C5. A push that queues an item, at any point of any run, in each
    revision. When the queue was empty (the push makes its length 1) a
    max-wait timeout is started: [maxAgeTimeout] holds a handle that was not
    live before and is live now, with delay [debounce_max_wait] of this item
    when it is given (0 included) and 1000 otherwise. When the queue held
    items already, [maxAgeTimeout] keeps its handle, which stays live with
    the delay it had, and the only timeout that is live now and was not
    before is the new quiet-period timeout. *)
Theorem C5_max_wait_timer
    (v : variant) (config : option MaxflowConfig) (before : list event)
    (reqdata : jsval) (options : option PushOptions) (now : Z) :
  is_immediately options = false →
  let s := run_events v (constructor v config) before in
  let s' := (push v reqdata options now s).2 in
  match queue s with
  | [] =>
      length (queue s') = 1%nat
      ∧ ∃ h, maxAgeTimeout s' = Some h
             ∧ timers s !! h = None
             ∧ timers s' !! h
               = Some (default 1000 (options ≫= debounce_max_wait))
  | _ :: _ =>
      length (queue s') ≠ 1%nat
      ∧ maxAgeTimeout s' = maxAgeTimeout s
      ∧ (∃ h d, maxAgeTimeout s = Some h
                ∧ timers s !! h = Some d ∧ timers s' !! h = Some d)
      ∧ ∀ h, timers s !! h = None → is_Some (timers s' !! h) →
             pushTimeout s' = Some h
  end.
Proof.
  intros Him s s'.
  pose proof (reachable_invariant v config before) as (_ & _ & Ht).
  fold s in Ht. unfold timers_ok in Ht.
  destruct (push_queued v reqdata options now s Him)
    as (s1 & Hm & Hq & _ & _ & _ & _ & Hpt & Hcase).
  subst s'. rewrite Hm. simpl. clear Hm.
  destruct (queue s) as [|item q].
  - destruct Hcase as (Hmt & Htm & _). split; [by rewrite Hq|].
    exists (S (next_timer s)). split; [done|].
    split; [by rewrite Ht, lookup_empty|].
    by rewrite Htm, lookup_insert_eq.
  - destruct Ht as (h1 & h2 & d1 & d2 & Hp1 & Hp2 & Hne & Htm & Hl1 & Hl2).
    destruct Hcase as (Hmt & Htm' & _).
    rewrite Hp1, Htm, delete_insert_eq, delete_singleton_ne in Htm' by done.
    split; [rewrite Hq, length_app; simpl; lia|]. split; [done|]. split.
    + exists h2, d2. split; [done|]. rewrite Htm, Htm'.
      rewrite !lookup_insert_ne, lookup_singleton_eq by lia. done.
    + intros h Hnone Hsome. rewrite Hpt. f_equal.
      rewrite Htm' in Hsome. rewrite Htm in Hnone.
      rewrite lookup_insert in Hsome. case_decide; [done|].
      rewrite lookup_insert_ne in Hnone.
      * rewrite Hnone in Hsome. by destruct Hsome.
      * intros ->. by rewrite lookup_insert_eq in Hnone.
Qed.

Lemma C5_max_wait_timer_witness :
  is_immediately (Some {| debounce := None; debounce_max_wait := Some 0;
                          immediately := None |}) = false
  ∧ let v := MaxflowClient_ts in
    let options := Some {| debounce := None; debounce_max_wait := Some 0;
                           immediately := None |} in
    let s := run_events v (constructor v None) [] in
    let s' := (push v (JNum 1) options 0 s).2 in
    match queue s with
    | [] =>
        length (queue s') = 1%nat
        ∧ ∃ h, maxAgeTimeout s' = Some h
               ∧ timers s !! h = None
               ∧ timers s' !! h
                 = Some (default 1000 (options ≫= debounce_max_wait))
    | _ :: _ =>
        length (queue s') ≠ 1%nat
        ∧ maxAgeTimeout s' = maxAgeTimeout s
        ∧ (∃ h d, maxAgeTimeout s = Some h
                  ∧ timers s !! h = Some d ∧ timers s' !! h = Some d)
        ∧ ∀ h, timers s !! h = None → is_Some (timers s' !! h) →
               pushTimeout s' = Some h
    end.
Proof.
  split; [reflexivity|].
  apply (C5_max_wait_timer MaxflowClient_ts None [] (JNum 1)
           (Some {| debounce := None; debounce_max_wait := Some 0;
                    immediately := None |}) 0).
  reflexivity.
Defined.

(** A first push with [debounce_max_wait: 0] leaves a live max-wait timeout
    of delay 0, and that timeout flushes the queue when it fires. *)
Example push_max_wait_zero (v : variant) :
  let options := Some {| debounce := None; debounce_max_wait := Some 0;
                         immediately := None |} in
  let s := step v (constructor v None) (Call (Push (JNum 1) options 0)) in
  maxAgeTimeout s = Some 2%nat
  ∧ timers s !! 2%nat = Some 0
  ∧ length (queue s) = 1%nat
  ∧ queue (step v s (Timeout 2)) = [].
Proof. by destruct v. Qed.

(** Three pushes in a row: the max-wait timeout of the first one is still
    the live one, with the delay the first item asked for. *)
Example push_three_times (v : variant) :
  let first := Some {| debounce := None; debounce_max_wait := Some 250;
                       immediately := None |} in
  let later := Some {| debounce := None; debounce_max_wait := Some 9000;
                       immediately := None |} in
  let s := run_events v (constructor v None)
             [ Call (Push (JNum 1) first 0); Call (Push (JNum 2) later 5);
               Call (Push (JNum 3) None 9) ] in
  maxAgeTimeout s = Some 2%nat
  ∧ pushTimeout s = Some 4%nat
  ∧ timers s = {[ 2%nat := 250; 4%nat := 360 ]}.
Proof. by destruct v. Qed.

(** ** The next promise is fresh *)

Lemma reachable_promise_fresh (v : variant) (config : option MaxflowConfig)
    (before : list event) :
  let s := run_events v (constructor v config) before in
  requests s !! next_promise s = None ∧ awaiting s !! next_promise s = None.
Proof.
  intros s. destruct (reachable_invariant v config before) as (Hacc & Hpark & _).
  fold s in Hacc, Hpark.
  assert (requests s !! next_promise s = None) as Hr
    by (by eapply accounted_requests_fresh).
  split; [done|].
  destruct (awaiting s !! next_promise s) eqn:Ha; [|done].
  destruct (Hpark (next_promise s)) as [r Hr']; [by eauto|]. congruence.
Qed.

(** ** Flushing an empty queue *)

(** C8. [processQueue] on a client whose queue is empty returns without
    throwing and leaves the whole state (the client's fields, the timeouts,
    the requests in flight, the log of settled promises) as it was; so does
    the second invocation by a timer callback that raced. *)
Theorem C8_flush_of_empty_queue_is_noop (v : variant) (s : state) :
  queue s = [] →
  processQueue v s = (Return tt, s) ∧ step v s Flush = s.
Proof.
  intros Hq. pose proof (processQueue_empty v s Hq) as H.
  split; [done|]. simpl. by rewrite H.
Qed.

Lemma C8_flush_of_empty_queue_is_noop_witness :
  queue (constructor MaxflowClient_ts None) = []
  ∧ processQueue MaxflowClient_ts (constructor MaxflowClient_ts None)
    = (Return tt, constructor MaxflowClient_ts None)
  ∧ step MaxflowClient_ts (constructor MaxflowClient_ts None) Flush
    = constructor MaxflowClient_ts None.
Proof.
  split; [reflexivity|].
  apply (C8_flush_of_empty_queue_is_noop MaxflowClient_ts
           (constructor MaxflowClient_ts None)).
  reflexivity.
Defined.

(** After a flush the queue is empty, so that a timer callback that invokes
    [processQueue] once more, at any point of any run, changes nothing. *)
Lemma processQueue_twice (v : variant) (config : option MaxflowConfig)
    (before : list event) :
  let s := run_events v (constructor v config) before in
  let s1 := step v s Flush in
  queue s1 = [] ∧ processQueue v s1 = (Return tt, s1) ∧ step v s1 Flush = s1.
Proof.
  intros s s1.
  assert (queue s1 = []) as Hq.
  { destruct (reachable_invariant v config before) as (Hacc & Hpark & _).
    fold s in Hacc, Hpark. subst s1. simpl.
    destruct (queue s) as [|item q] eqn:Hq.
    - by rewrite processQueue_empty.
    - destruct (processQueue_flush v s) as (s' & -> & _ & _ & (Hq' & _) & _);
        [by rewrite Hq|done|done|].
      simpl. rewrite Hq'. by destruct (detach_fields s) as (? & _). }
  split; [done|]. pose proof (processQueue_empty v s1 Hq) as H.
  split; [done|]. simpl. by rewrite H.
Qed.

(** ** What a flush dispatches *)

Section dispatch.
Implicit Types (v : variant) (s : state) (p : nat).
Implicit Types (item : QueueItem) (snapshot : list QueueItem).

Lemma pulse_create_sent v (d : jsval) s i :
  http v true s = (Return i, set_axiosInstance (Some i) s) →
  pulse_create v d s
  = (Return (next_promise s), sent (next_promise s) (POST "/api/pulse" d) i s).
Proof.
  intros H. unfold pulse_create, async, try_catch. unfold bind at 1.
  rewrite H. by run_monad s.
Qed.

Lemma pulse_create_rejected v (d : jsval) s e :
  http v true s = (Throw e, s) →
  pulse_create v d s
  = (Return (next_promise s), rejected (next_promise s) e s).
Proof.
  intros H. unfold pulse_create, async, try_catch. unfold bind at 1.
  rewrite H. by run_monad s.
Qed.

Lemma http_after_sent v s p r i :
  ∃ i', http v true (sent p r i s)
        = (Return i', set_axiosInstance (Some i') (sent p r i s)).
Proof.
  destruct (http_true_cases v (sent p r i s)) as [?|(msg & Hi & _)]; [done|].
  by destruct s.
Qed.

Lemma http_after_rejected v s p e e' :
  http v true s = (Throw e, s) →
  http v true (rejected p e' s) = (Throw e, rejected p e' s).
Proof.
  intros H.
  destruct (http_true_cases v s) as [[i Hi]|(msg & Hi & Hv & Hh)];
    [congruence|].
  assert (e = Error msg) as -> by congruence.
  rewrite http_true_unfold.
  unfold bind at 1. unfold gets at 1.
  replace (axiosInstance (rejected p e' s)) with (@None AxiosInstance)
    by (by destruct s).
  unfold bind at 1. unfold bind at 1.
  assert (validateConfig v (rejected p e' s)
          = (Throw (Error msg), rejected p e' s)) as ->; [|done].
  revert Hv. unfold validateConfig, bind, gets. destruct s; simpl.
  destruct v; repeat (destruct (not_set _); [by intros [= <-]|]); done.
Qed.

(** With credentials that pass [validateConfig], or an axios instance
    created earlier, every item of the snapshot is sent, in queue order. *)
Lemma start_all_sent v items s :
  (∃ i, http v true s = (Return i, set_axiosInstance (Some i) s)) →
  (∀ p, (next_promise s ≤ p)%nat → requests s !! p = None) →
  ∃ s', mapM (λ item, p <- pulse_create v (data item) ;; ret (item, p)) items s
        = (Return (zip items (seq (next_promise s) (length items))), s')
      ∧ settled s' = settled s
      ∧ awaiting s' = awaiting s
      ∧ (∀ k item, items !! k = Some item →
           requests s' !! (next_promise s + k)%nat
           = Some (POST "/api/pulse" (data item)))
      ∧ (∀ p, (p < next_promise s)%nat → requests s' !! p = requests s !! p)
      ∧ queue s' = queue s.
Proof.
  revert s. induction items as [|item items IH]; intros s [i Hi] Hfresh.
  - exists s. by repeat split.
  - pose proof (pulse_create_sent v (data item) s i Hi) as Hm.
    set (s1 := sent (next_promise s) (POST "/api/pulse" (data item)) i s) in *.
    assert (next_promise s1 = S (next_promise s)) as Hn by (by destruct s).
    destruct (IH s1) as (s' & Hm' & Hs' & Ha' & Hk' & Hold' & Hq').
    { apply http_after_sent. }
    { intros p Hp. subst s1. destruct s; simpl in *.
      rewrite lookup_insert_ne by lia. apply Hfresh. lia. }
    exists s'. split.
    { eapply mapM_cons_eq; [by apply bind_ret_eq|]. by rewrite Hm', Hn. }
    split; [rewrite Hs'; subst s1; by destruct s|].
    split; [rewrite Ha'; subst s1; by destruct s|].
    split.
    + intros [|k] item' Hk; simpl in Hk.
      * injection Hk as <-. rewrite Nat.add_0_r, Hold' by lia.
        subst s1. destruct s; simpl. by rewrite lookup_insert_eq.
      * rewrite <-Nat.add_succ_comm, <-Hn. by apply Hk'.
    + split; [|rewrite Hq'; subst s1; by destruct s].
      intros p Hp. rewrite Hold' by lia.
      subst s1. destruct s; simpl in *. by rewrite lookup_insert_ne by lia.
Qed.

(** Without them every [pulse.create] of the flush returns a promise
    rejected with the error of [validateConfig], and nothing is sent. *)
Lemma start_all_rejected v items s e :
  http v true s = (Throw e, s) →
  ∃ s', mapM (λ item, p <- pulse_create v (data item) ;; ret (item, p)) items s
        = (Return (zip items (seq (next_promise s) (length items))), s')
      ∧ settled s' = settled s
          ++ ((λ p, (p, Rejected e)) <$> seq (next_promise s) (length items))
      ∧ awaiting s' = awaiting s
      ∧ requests s' = requests s
      ∧ queue s' = queue s.
Proof.
  revert s. induction items as [|item items IH]; intros s He.
  - exists s. simpl. by rewrite app_nil_r.
  - pose proof (pulse_create_rejected v (data item) s e He) as Hm.
    set (s1 := rejected (next_promise s) e s) in *.
    assert (next_promise s1 = S (next_promise s)) as Hn by (by destruct s).
    destruct (IH s1) as (s' & Hm' & Hs' & Ha' & Hr' & Hq').
    { by apply http_after_rejected. }
    exists s'. split.
    { eapply mapM_cons_eq; [by apply bind_ret_eq|]. by rewrite Hm', Hn. }
    split; [|split; [|split]].
    + rewrite Hs', Hn. subst s1. destruct s; simpl. by rewrite <-app_assoc.
    + rewrite Ha'. subst s1. by destruct s.
    + rewrite Hr'. subst s1. by destruct s.
    + rewrite Hq'. subst s1. by destruct s.
Qed.

(** Items whose request is in flight are parked, each on its own request. *)
Lemma await_all_parked v snapshot (started : list (QueueItem * nat)) s :
  NoDup started.*2 →
  (∀ p, p ∈ started.*2 → p ∉ (settled s).*1) →
  ∃ s', forEach started (await_item v snapshot) s = (Return tt, s')
      ∧ settled s' = settled s
      ∧ requests s' = requests s
      ∧ (∀ item p, (item, p) ∈ started →
           awaiting s' !! p = Some (item, snapshot))
      ∧ (∀ p, p ∉ started.*2 → awaiting s' !! p = awaiting s !! p)
      ∧ queue s' = queue s.
Proof.
  revert s. induction started as [|[item p] rest IH]; intros s Hnd Hfresh.
  - exists s. repeat split; try done. by intros ? ? ?%not_elem_of_nil.
  - rewrite fmap_cons in Hnd. simpl in Hnd.
    apply NoDup_cons in Hnd as [Hp Hnd].
    destruct (await_item_cases v snapshot item p s) as [(o & Ho & _)|[_ Hm]].
    { exfalso. apply (Hfresh p); [rewrite fmap_cons; left|].
      apply promise_state_is_Some. by rewrite Ho. }
    set (s1 := set_awaiting (<[p := (item, snapshot)]> (awaiting s)) s) in *.
    destruct (IH s1) as (s' & Hm' & Hs' & Hr' & Hin' & Hout' & Hq'); [done| |].
    { intros p' Hp'. replace (settled s1) with (settled s)
        by (subst s1; by destruct s).
      apply Hfresh. rewrite fmap_cons. by right. }
    exists s'. split; [by eapply forEach_cons_eq|].
    split; [rewrite Hs'; subst s1; by destruct s|].
    split; [rewrite Hr'; subst s1; by destruct s|].
    split.
    + intros item' p' [[= -> ->]|Hin]%elem_of_cons; [|by auto].
      rewrite Hout' by done. subst s1. destruct s; simpl.
      by rewrite lookup_insert_eq.
    + split; [|rewrite Hq'; subst s1; by destruct s].
      intros p'. rewrite fmap_cons, not_elem_of_cons. simpl.
      intros [Hne Hp']. rewrite Hout' by done.
      subst s1. destruct s; simpl. by rewrite lookup_insert_ne.
Qed.

Lemma promise_state_settle s p q o o' :
  promise_state p s = Some o →
  promise_state p (set_settled (settled s ++ [(q, o')]) s) = Some o.
Proof.
  unfold promise_state. destruct s; simpl. rewrite filter_app.
  destruct (filter _ _) as [|c l]; [done|]. done.
Qed.

(** Items whose promise is rejected already are rejected with its error. *)
Lemma await_all_settled v snapshot (started : list (QueueItem * nat)) s o :
  (∀ p, p ∈ started.*2 → promise_state p s = Some o) →
  ∃ s', forEach started (await_item v snapshot) s = (Return tt, s')
      ∧ settled s' = settled s ++ ((λ x, (promise x.1, o)) <$> started)
      ∧ requests s' = requests s
      ∧ awaiting s' = awaiting s
      ∧ queue s' = queue s.
Proof.
  revert s. induction started as [|[item p] rest IH]; intros s Hst.
  - exists s. simpl. by rewrite app_nil_r.
  - destruct (await_item_cases v snapshot item p s) as [(o' & Ho & Hm)|[Ho _]].
    2:{ rewrite Hst in Ho; [done|]. rewrite fmap_cons. left. }
    assert (o' = o) as ->.
    { rewrite Hst in Ho; [congruence|]. rewrite fmap_cons. left. }
    set (s1 := set_settled (settled s ++ [(promise item, o)]) s) in *.
    destruct (IH s1) as (s' & Hm' & Hs' & Hr' & Ha' & Hq').
    { intros p' Hp'. subst s1. apply promise_state_settle.
      apply Hst. rewrite fmap_cons. by right. }
    exists s'. split; [by eapply forEach_cons_eq|].
    split; [|split; [|split]].
    + rewrite Hs'. subst s1. destruct s; simpl. by rewrite <-app_assoc.
    + rewrite Hr'. subst s1. by destruct s.
    + rewrite Ha'. subst s1. by destruct s.
    + rewrite Hq'. subst s1. by destruct s.
Qed.
End dispatch.

Section flush_outcomes.
Implicit Types (v : variant) (s : state) (p : nat).

Lemma validateConfig_state v s :
  validateConfig v s = ((validateConfig v s).1, s).
Proof. by destruct (validateConfig_cases v s) as [->|[msg ->]]. Qed.

Lemma validateConfig_detach v s :
  (validateConfig v (detach s)).1 = (validateConfig v s).1.
Proof.
  unfold detach, validateConfig, bind, gets.
  destruct s as [? ? ? ? ? ? pt mt ? ? ? ? ? ? ?]; simpl.
  destruct v, pt, mt; simpl; repeat (destruct (not_set _); [done|]); done.
Qed.

Lemma axiosInstance_detach s : axiosInstance (detach s) = axiosInstance s.
Proof.
  unfold detach. destruct s as [? ? ? ? ? ? pt mt ? ? ? ? ? ? ?]; simpl.
  by destruct pt, mt.
Qed.

Lemma http_detach_ok v s :
  (∃ i, http v true s = (Return i, set_axiosInstance (Some i) s)) →
  ∃ i, http v true (detach s)
       = (Return i, set_axiosInstance (Some i) (detach s)).
Proof.
  intros [i Hi].
  destruct (http_true_cases v (detach s)) as [?|(msg & Ha & Hv & _)]; [done|].
  destruct (http_true_cases v s) as [[i' Hi']|(msg' & Ha' & Hv' & Hh')];
    [|congruence].
  rewrite axiosInstance_detach in Ha.
  pose proof (validateConfig_detach v s) as Hd. rewrite Hv in Hd. simpl in Hd.
  exfalso. revert Hi'.
  rewrite http_true_unfold.
  unfold bind at 1. unfold gets at 1. rewrite Ha.
  unfold bind at 1. unfold bind at 1.
  rewrite (validateConfig_state v s), <-Hd. done.
Qed.

Lemma http_detach_error v s e :
  http v true s = (Throw e, s) →
  http v true (detach s) = (Throw e, detach s).
Proof.
  intros He.
  destruct (http_true_cases v s) as [[i Hi]|(msg & Ha & Hv & Hh)];
    [congruence|].
  assert (e = Error msg) as -> by congruence.
  rewrite http_true_unfold.
  unfold bind at 1. unfold gets at 1. rewrite axiosInstance_detach, Ha.
  unfold bind at 1. unfold bind at 1.
  rewrite (validateConfig_state v (detach s)), validateConfig_detach, Hv.
  done.
Qed.

(** A flush with working credentials: nothing is settled yet, and the item
    at position [k] of the queue is parked on request [next_promise s + k],
    which posts the item's data. *)
Lemma processQueue_sends v s :
  invariant s → queue s ≠ [] →
  (∃ i, http v true s = (Return i, set_axiosInstance (Some i) s)) →
  let s' := (processQueue v s).2 in
  queue s' = [] ∧ settled s' = settled s
  ∧ ∀ k item, queue s !! k = Some item →
      requests s' !! (next_promise s + k)%nat
      = Some (POST "/api/pulse" (data item))
      ∧ awaiting s' !! (next_promise s + k)%nat = Some (item, queue s).
Proof.
  intros (Hacc & Hpark & _) Hq Hhttp s'. subst s'.
  destruct (detach_fields s) as (Hdq & _ & _ & _ & Hdr & Hda & Hdn & Hds).
  destruct (start_all_sent v (queue s) (detach s)) as
    (s2 & Hm2 & Hs2 & Ha2 & Hk2 & Hold2 & Hq2); [by apply http_detach_ok| |].
  { intros p Hp. rewrite Hdr. apply (accounted_requests_fresh [] s); [done|].
    by rewrite <-Hdn. }
  set (started := zip (queue s) (seq (next_promise (detach s)) (length (queue s))))
    in *.
  assert (started.*2 = seq (next_promise (detach s)) (length (queue s))) as Hsnd
    by (apply snd_zip; rewrite length_seq; lia).
  destruct (await_all_parked v (queue s) started s2) as
    (s3 & Hm3 & Hs3 & Hr3 & Hin3 & Hout3 & Hq3).
  { rewrite Hsnd. apply NoDup_seq. }
  { intros p Hp. rewrite Hsnd in Hp. apply elem_of_seq in Hp.
    rewrite Hs2, Hds. apply (accounted_settled_fresh [] s); [done|]. lia. }
  assert (processQueue v s = (Return tt, s3)) as ->.
  { rewrite processQueue_nonempty by done. unfold bind at 1. by rewrite Hm2. }
  simpl.
  split; [by rewrite Hq3, Hq2|].
  split; [by rewrite Hs3, Hs2|].
  intros k item Hk. rewrite <-Hdn. split.
  - rewrite Hr3. by apply Hk2.
  - apply Hin3. apply list_elem_of_lookup. exists k.
    subst started. apply lookup_zip_with_Some. exists item, (next_promise (detach s) + k)%nat.
    split; [done|]. split; [done|].
    apply lookup_seq. split; [done|]. by eapply lookup_lt_Some.
Qed.

Lemma fst_pair_fmap {A} (a : A) (l : list nat) :
  ((λ p, (p, a)) <$> l).*1 = l.
Proof. induction l as [|p l IH]; [done|]. rewrite !fmap_cons. by f_equal. Qed.

(** A flush without credentials (and without an axios instance created
    earlier): nothing is sent, and every item of the queue is rejected with
    the error of [validateConfig]. *)
Lemma processQueue_config_error v s e :
  invariant s → queue s ≠ [] →
  http v true s = (Throw e, s) →
  let s' := (processQueue v s).2 in
  queue s' = [] ∧ requests s' = requests s ∧ awaiting s' = awaiting s
  ∧ settled s' =
    settled s
    ++ ((λ p, (p, Rejected e)) <$> seq (next_promise s) (length (queue s)))
    ++ ((λ item, (promise item, Rejected e)) <$> queue s).
Proof.
  intros (Hacc & Hpark & _) Hq He s'. subst s'.
  destruct (detach_fields s) as (Hdq & _ & _ & _ & Hdr & Hda & Hdn & Hds).
  destruct (start_all_rejected v (queue s) (detach s) e) as
    (s2 & Hm2 & Hs2 & Ha2 & Hr2 & Hq2); [by apply http_detach_error|].
  set (started := zip (queue s) (seq (next_promise (detach s)) (length (queue s))))
    in *.
  assert (started.*1 = queue s) as Hfst
    by (apply fst_zip; rewrite length_seq; lia).
  assert (started.*2 = seq (next_promise (detach s)) (length (queue s))) as Hsnd
    by (apply snd_zip; rewrite length_seq; lia).
  destruct (await_all_settled v (queue s) started s2 (Rejected e)) as
    (s3 & Hm3 & Hs3 & Hr3 & Ha3 & Hq3).
  { intros p Hp. rewrite Hsnd in Hp.
    unfold promise_state. rewrite Hs2, filter_app, Hds, Hdn.
    rewrite filter_fst_nil.
    - rewrite (filter_fst_unique _ p (Rejected e)); [done| |].
      + rewrite fst_pair_fmap. apply NoDup_seq.
      + apply list_elem_of_fmap. exists p. by rewrite <-Hdn.
    - apply (accounted_settled_fresh [] s); [done|].
      apply elem_of_seq in Hp. lia. }
  assert (processQueue v s = (Return tt, s3)) as ->.
  { rewrite processQueue_nonempty by done. unfold bind at 1. by rewrite Hm2. }
  simpl. split; [by rewrite Hq3, Hq2|]. split; [by rewrite Hr3, Hr2|].
  split; [by rewrite Ha3, Ha2|].
  rewrite Hs3, Hs2, Hds, Hdn, <-app_assoc. do 2 f_equal.
  clearbody started. rewrite <-Hfst. by rewrite <-list_fmap_compose.
Qed.
End flush_outcomes.

(** ** Each item receives the outcome of its own request *)

Section isolation.
Implicit Types (v : variant) (s : state) (p : nat).
Implicit Types (item : QueueItem) (snapshot : list QueueItem).

Lemma http_true_ok v s :
  is_Some (axiosInstance s) ∨ (validateConfig v s).1 = Return tt →
  ∃ i, http v true s = (Return i, set_axiosInstance (Some i) s).
Proof.
  intros H. destruct (http_true_cases v s) as [?|(msg & Ha & Hv & _)]; [done|].
  rewrite Ha, Hv in H. destruct H as [[? ?]|?]; done.
Qed.

Lemma step_settled_prefix v s ev :
  invariant s → ∃ new, settled (step v s ev) = settled s ++ new.
Proof.
  intros Hinv.
  assert (∃ new, settled (processQueue v s).2 = settled s ++ new) as Hflush.
  { destruct Hinv as (Hacc & Hpark & _).
    destruct (queue s) as [|item q] eqn:Hq.
    - rewrite processQueue_empty by done. exists []. by rewrite app_nil_r.
    - destruct (processQueue_flush v s)
        as (s' & -> & _ & _ & _ & _ & _ & _ & new & Hs' & _);
        [by rewrite Hq|done|done|]. by exists new. }
  destruct ev as [op|h|p o|]; simpl; [| | |done].
  - destruct (has_method v op); [|exists []; by rewrite app_nil_r].
    assert (∀ m : M nat, issues m s →
              ∃ new, settled ((p <- m ;; ret (Some p)) s).2
                     = settled s ++ new) as Hissues.
    { intros m [(r & i & Hm)|(e & Hm)]; unfold bind, ret; rewrite Hm; simpl.
      - exists []. rewrite app_nil_r. by destruct s.
      - eexists. by destruct s. }
    destruct op as [reqdata opts now| ? ? | ? | ? | ? | ? | ? | ? ? | ? ?
                   | ? ? | ? ? | ? | ? | ?];
      unfold call; cbv beta iota zeta.
    + destruct (is_immediately opts) eqn:Him.
      * apply Hissues. by apply push_issues.
      * destruct (push_queued v reqdata opts now s Him)
          as (s' & Hm & _ & _ & _ & _ & Hs & _).
        unfold bind, ret. rewrite Hm. simpl. exists []. by rewrite app_nil_r.
    + apply Hissues, run_issues.
    + apply Hissues, getExecutionStatus_issues.
    + apply Hissues, pulse_create_issues.
    + apply Hissues, pulse_get_issues.
    + apply Hissues, pulse_find_issues.
    + apply Hissues, pulse_delete_issues.
    + apply Hissues, pulse_update_issues.
    + apply Hissues, runPublic_issues.
    + apply Hissues, getExecutionPublicStatus_issues.
    + exists []. rewrite app_nil_r. by destruct v, s.
    + exists []. rewrite app_nil_r. by destruct s.
    + exists []. rewrite app_nil_r. by destruct s.
    + exists []. rewrite app_nil_r. by destruct s.
  - destruct (timers s !! h) as [d|] eqn:Hh;
      [|exists []; by rewrite app_nil_r].
    destruct Hinv as (Hacc & Hpark & _).
    set (s0 := set_timers (delete h (timers s)) s).
    assert (settled s = settled s0) as -> by (by destruct s).
    destruct (queue s0) as [|item q] eqn:Hq.
    + rewrite processQueue_empty by done. exists []. by rewrite app_nil_r.
    + destruct (processQueue_flush v s0)
        as (s' & -> & _ & _ & _ & _ & _ & _ & new & Hs' & _);
        [by rewrite Hq|subst s0; by destruct s..|]. by exists new.
  - destruct (requests s !! p) as [r|] eqn:Hr;
      [|exists []; by rewrite app_nil_r].
    rewrite on_response_eq. simpl.
    destruct (awaiting s !! p) as [[item snapshot]|]; eexists; by destruct s.
Qed.

Lemma run_events_settled_prefix v s evs :
  invariant s → ∃ new, settled (run_events v s evs) = settled s ++ new.
Proof.
  revert s. induction evs as [|ev evs IH]; intros s Hinv.
  - exists []. by rewrite app_nil_r.
  - simpl. destruct (step_settled_prefix v s ev Hinv) as [new1 H1].
    destruct (IH (step v s ev)) as [new2 H2]; [by apply step_invariant|].
    exists (new1 ++ new2). fold (run_events v (step v s ev) evs).
    by rewrite H2, H1, app_assoc.
Qed.

(** A parked item stays parked until its own request is answered. *)
Lemma step_parked v s ev p (x : QueueItem * list QueueItem) :
  invariant s → awaiting s !! p = Some x →
  (∀ o, ev ≠ Response p o) →
  awaiting (step v s ev) !! p = Some x.
Proof.
  intros Hinv Hp Hev.
  assert (∀ s0, accounted [] s0 → parked_on_requests s0 →
            awaiting s0 = awaiting s →
            awaiting (processQueue v s0).2 !! p = Some x) as Hflush.
  { intros s0 Hacc Hpark Ha.
    destruct (queue s0) as [|item q] eqn:Hq.
    - rewrite processQueue_empty by done. simpl. by rewrite Ha.
    - destruct (processQueue_flush v s0)
        as (s' & -> & _ & _ & _ & _ & _ & Hsub & _);
        [by rewrite Hq|done|done|].
      simpl. eapply lookup_weaken; [|done]. by rewrite Ha. }
  destruct ev as [op|h|p' o|]; simpl.
  - destruct (has_method v op); [|done].
    assert (∀ m : M nat, issues m s →
              awaiting ((p <- m ;; ret (Some p)) s).2 = awaiting s) as Hissues.
    { intros m [(r & i & Hm)|(e & Hm)]; unfold bind, ret; rewrite Hm;
        by destruct s. }
    destruct op as [reqdata opts now| ? ? | ? | ? | ? | ? | ? | ? ? | ? ?
                   | ? ? | ? ? | ? | ? | ?];
      unfold call; cbv beta iota zeta.
    + destruct (is_immediately opts) eqn:Him.
      * rewrite Hissues; [done|]. by apply push_issues.
      * destruct (push_queued v reqdata opts now s Him)
          as (s' & Hm & _ & _ & _ & Ha & _).
        unfold bind, ret. rewrite Hm. simpl. by rewrite Ha.
    + rewrite Hissues; [done|]. apply run_issues.
    + rewrite Hissues; [done|]. apply getExecutionStatus_issues.
    + rewrite Hissues; [done|]. apply pulse_create_issues.
    + rewrite Hissues; [done|]. apply pulse_get_issues.
    + rewrite Hissues; [done|]. apply pulse_find_issues.
    + rewrite Hissues; [done|]. apply pulse_delete_issues.
    + rewrite Hissues; [done|]. apply pulse_update_issues.
    + rewrite Hissues; [done|]. apply runPublic_issues.
    + rewrite Hissues; [done|]. apply getExecutionPublicStatus_issues.
    + by destruct v, s.
    + by destruct s.
    + by destruct s.
    + by destruct s.
  - destruct (timers s !! h) as [d|] eqn:Hh; [|done].
    destruct Hinv as (Hacc & Hpark & _).
    apply Hflush; by destruct s.
  - destruct (requests s !! p') as [r|] eqn:Hr; [|done].
    assert (p' ≠ p) as Hne by (intros ->; by apply (Hev o)).
    rewrite on_response_eq. simpl.
    destruct (awaiting s !! p') as [[item snapshot]|];
      destruct s; simpl in *; [|done].
    by rewrite lookup_delete_ne.
  - destruct Hinv as (Hacc & Hpark & _). by apply Hflush.
Qed.

Lemma run_events_parked v s evs p (x : QueueItem * list QueueItem) :
  invariant s → awaiting s !! p = Some x →
  (∀ o, Response p o ∉ evs) →
  awaiting (run_events v s evs) !! p = Some x.
Proof.
  revert s. induction evs as [|ev evs IH]; intros s Hinv Hp Hevs; [done|].
  simpl. apply IH.
  - by apply step_invariant.
  - apply step_parked; [done..|]. intros o ->. apply (Hevs o). left.
  - intros o Hin. apply (Hevs o). by right.
Qed.

Lemma parked_not_settled s p item snapshot :
  invariant s → awaiting s !! p = Some (item, snapshot) →
  promise item ∉ (settled s).*1.
Proof.
  intros (Hacc & _) Hp Hin.
  apply accounted_NoDup in Hacc. unfold places in Hacc.
  rewrite app_nil_r in Hacc.
  do 2 apply NoDup_app in Hacc as (_ & _ & Hacc).
  apply NoDup_app in Hacc as (_ & Hdisj & _).
  apply (Hdisj (promise item)); [|done].
  apply list_elem_of_fmap. exists (p, (item, snapshot)).
  split; [done|]. by apply elem_of_map_to_list.
Qed.

(** The answer to the request of a parked item settles the promise of the
    request and the promise of the item, and nothing else. *)
Lemma parked_response v s p item snapshot o :
  invariant s → awaiting s !! p = Some (item, snapshot) →
  settled (step v s (Response p o))
  = settled s ++ [(p, o); (promise item, o)].
Proof.
  intros (_ & Hpark & _) Hp. simpl.
  destruct (Hpark p) as [r ->]; [by eauto|].
  rewrite on_response_eq, Hp. by destruct s.
Qed.

(** Whatever happens, the promise of a parked item is only ever settled
    with an outcome that the transport gave to the item's own request. *)
Lemma parked_outcome v s evs p item snapshot o :
  invariant s → awaiting s !! p = Some (item, snapshot) →
  (promise item, o) ∈ settled (run_events v s evs) →
  Response p o ∈ evs.
Proof.
  revert s. induction evs as [|ev evs IH]; intros s Hinv Hp Hin.
  - exfalso. apply (parked_not_settled s p item snapshot Hinv Hp).
    apply list_elem_of_fmap. by exists (promise item, o).
  - simpl in Hin. fold (run_events v (step v s ev) evs) in Hin.
    pose proof (step_invariant v s ev Hinv) as Hinv1.
    assert ((∃ o', ev = Response p o') ∨ ∀ o', ev ≠ Response p o')
      as [[o' ->]|Hev].
    { destruct ev as [?|?|p' o'|]; try (right; congruence).
      destruct (decide (p' = p)) as [->|?]; [left; by eexists|].
      right. congruence. }
    + pose proof (parked_response v s p item snapshot o' Hinv Hp) as Hs1.
      destruct (run_events_settled_prefix v _ evs Hinv1) as [new Hs'].
      assert (o = o') as ->; [|left].
      pose proof (run_events_invariant v _ evs Hinv1) as (Hacc & _).
      apply accounted_NoDup in Hacc. unfold places in Hacc.
      rewrite app_nil_r in Hacc.
      do 3 apply NoDup_app in Hacc as (_ & _ & Hacc).
      assert (filter (λ c, c.1 = promise item)
                     (settled (run_events v (step v s (Response p o')) evs))
              = [(promise item, o)]) as H1
        by (by apply filter_fst_unique).
      assert (filter (λ c, c.1 = promise item)
                     (settled (run_events v (step v s (Response p o')) evs))
              = [(promise item, o')]) as H2.
      { apply filter_fst_unique; [done|]. rewrite Hs', Hs1.
        rewrite !elem_of_app, !elem_of_cons. auto. }
      congruence.
    + right. apply (IH (step v s ev)); [done| |done].
      by apply step_parked.
Qed.
End isolation.

(** C7. A flush that fans out, at any point of any run and in each
    revision: with credentials that pass [validateConfig] (or an axios
    instance created earlier), the item at position [k] of the queue is
    dispatched as its own request [p]. Whatever happens after the flush, as
    long as [p] is not answered the answer [o] to [p], success or failure,
    settles the promise of [p] and the promise of this item with [o] and
    nothing else; and the promise of the item is never settled with an
    outcome other than one the transport gave to [p]: the failure of the
    request of another item does not reach it. *)
Theorem C7_item_settled_with_outcome_of_its_own_request
    (v : variant) (config : option MaxflowConfig) (before : list event)
    (k : nat) (item : QueueItem) :
  let s := run_events v (constructor v config) before in
  is_Some (axiosInstance s) ∨ (validateConfig v s).1 = Return tt →
  queue s !! k = Some item →
  let p := (next_promise s + k)%nat in
  let s1 := step v s Flush in
  requests s1 !! p = Some (POST "/api/pulse" (data item))
  ∧ (∀ (after : list event) (o : outcome),
       (∀ o', Response p o' ∉ after) →
       let s2 := run_events v s1 after in
       settled (step v s2 (Response p o))
       = settled s2 ++ [(p, o); (promise item, o)])
  ∧ (∀ (after : list event) (o : outcome),
       (promise item, o) ∈ settled (run_events v s1 after) →
       Response p o ∈ after).
Proof.
  intros s Hcred Hk p s1.
  pose proof (reachable_invariant v config before) as Hinv. fold s in Hinv.
  assert (queue s ≠ []) as Hq by (intros Hq; by rewrite Hq in Hk).
  destruct (processQueue_sends v s Hinv Hq (http_true_ok v s Hcred))
    as (_ & _ & Hsent).
  destruct (Hsent k item Hk) as [Hr Ha].
  pose proof (step_invariant v s Flush Hinv) as Hinv1.
  split; [done|]. split.
  - intros after o Hafter s2. apply (parked_response v s2 p item (queue s)).
    + by apply run_events_invariant.
    + by apply run_events_parked.
  - intros after o. by apply (parked_outcome v s1 after p item (queue s)).
Qed.

Lemma C7_item_settled_with_outcome_of_its_own_request_witness :
  (is_Some (axiosInstance three_queued)
   ∨ (validateConfig MaxflowClient_ts three_queued).1 = Return tt)
  ∧ queue three_queued !! 1%nat = Some second_item
  ∧ (let p := (next_promise three_queued + 1)%nat in
     let s1 := step MaxflowClient_ts three_queued Flush in
     requests s1 !! p = Some (POST "/api/pulse" (data second_item))
     ∧ (∀ (after : list event) (o : outcome),
          (∀ o', Response p o' ∉ after) →
          let s2 := run_events MaxflowClient_ts s1 after in
          settled (step MaxflowClient_ts s2 (Response p o))
          = settled s2 ++ [(p, o); (promise second_item, o)])
     ∧ (∀ (after : list event) (o : outcome),
          (promise second_item, o)
            ∈ settled (run_events MaxflowClient_ts s1 after) →
          Response p o ∈ after)).
Proof.
  split; [right; reflexivity|]. split; [reflexivity|].
  apply (C7_item_settled_with_outcome_of_its_own_request
           MaxflowClient_ts credentials three_pushes 1 second_item).
  - right. reflexivity.
  - reflexivity.
Defined.

(** The scenario of the specification: three items are flushed by the
    quiet-period timeout, the request of the second one fails and the other
    two succeed, in some order. The second item is rejected with the error
    of its request, the first and third are resolved with their responses. *)
Example fan_out_with_one_failure (v : variant) :
  let s := run_events v (constructor v credentials)
             (three_pushes
              ++ [ Timeout 4;
                   Response 4 (Rejected (AxiosError (JStr "500")));
                   Response 5 (Fulfilled (JStr "created c"));
                   Response 3 (Fulfilled (JStr "created a")) ]) in
  promise_state 0 s = Some (Fulfilled (JStr "created a"))
  ∧ promise_state 1 s = Some (Rejected (AxiosError (JStr "500")))
  ∧ promise_state 2 s = Some (Fulfilled (JStr "created c"))
  ∧ calls 0 s = 1%nat ∧ calls 1 s = 1%nat ∧ calls 2 s = 1%nat
  ∧ queue s = [] ∧ requests s = ∅ ∧ timers s = ∅.
Proof. by destruct v. Qed.

(** ** Configuration errors *)

Section configuration.
Implicit Types (v : variant) (s : state) (op : operation).


Lemma async_http_error v (k : AxiosInstance → M nat) s e :
  http v true s = (Throw e, s) →
  async (i <- http v true ;; k i) s
  = (Return (next_promise s), rejected (next_promise s) e s).
Proof.
  intros H. unfold async, try_catch. unfold bind at 1. rewrite H.
  by run_monad s.
Qed.



Lemma http_error_iff v s e :
  axiosInstance s = None ∧ (validateConfig v s).1 = Throw e ↔
  http v true s = (Throw e, s).
Proof.
  split.
  - intros [Ha Hv].
    rewrite http_true_unfold.
    unfold bind at 1. unfold gets at 1. rewrite Ha.
    unfold bind at 1. unfold bind at 1.
    rewrite (validateConfig_state v s), Hv. done.
  - intros H.
    destruct (http_true_cases v s) as [[i H']|(msg & Ha & Hv & H')];
      [congruence|].
    split; [done|]. rewrite Hv. simpl. congruence.
Qed.

Lemma push_queued_config v v' reqdata options now s :
  is_immediately options = false →
  axiosInstance (push v reqdata options now s).2 = axiosInstance s
  ∧ (validateConfig v' (push v reqdata options now s).2).1
    = (validateConfig v' s).1.
Proof.
  intros Him. unfold push. rewrite Him.
  destruct s as [? ? ? ? ? q pt mt ? ? ? ? ? ? ?].
  cbv [bind gets modify ret throw try_catch async settle new_promise send
       setTimeout clearTimeout id validateConfig]; simpl.
  assert (∀ item, (length (q ++ [item]) =? 1)%nat
                  = match q with [] => true | _ => false end) as Hlen.
  { intros item. destruct q; [done|]. simpl. rewrite length_app. simpl.
    apply Nat.eqb_neq. lia. }
  destruct pt as [h|]; simpl; rewrite Hlen; destruct q; simpl;
    (split; [done|]);
    destruct v'; repeat (destruct (not_set _); [done|]); done.
Qed.
End configuration.




(** The same client, once its quiet-period timeout has fired: the queued
    item is rejected with the configuration error and nothing was sent. *)
Example queued_push_without_credentials :
  let v := MaxflowClient_ts in
  let s := run_events v (constructor v None)
             [ Call (Push (JNum 1) None 0); Timeout 1 ] in
  promise_state 0 s = Some (Rejected (Error "API Key is not set"))
  ∧ requests s = ∅ ∧ queue s = [] ∧ timers s = ∅.
Proof. done. Qed.

(** ** A flat [match] in src/maxflow.ts *)

(** C10. In src/maxflow.ts, for every [findData] whose [match] is not an
    array, whatever the mapping and the other fields, and in every state of
    the client: building the query throws a TypeError (the assignment to a
    property of [query.match], which is undefined), so that [pulse.find]
    returns a promise rejected with that TypeError, sends no request and does
    not even reach [http()]: the requests in flight and the axios instance
    are as before the call. *)
Theorem C10_flat_match_rejects_with_TypeError_in_maxflow_ts
    (r : gmap string jsval) (pg ps : option Z) (so : option string)
    (ob : option (list OrderItem)) (se : option SearchConfig) (s : state) :
  let data := {| match_ := Some (MatchRecord r); page := pg; pageSize := ps;
                 sort := so; orderBy := ob; search := se |} in
  let p := next_promise s in
  let s' := (pulse_find MaxFlow_ts data s).2 in
  ∃ msg,
    find_query MaxFlow_ts data = Throw (TypeError msg)
    ∧ (pulse_find MaxFlow_ts data s).1 = Return p
    ∧ settled s' = settled s ++ [(p, Rejected (TypeError msg))]
    ∧ requests s' = requests s
    ∧ axiosInstance s' = axiosInstance s
    ∧ queue s' = queue s ∧ timers s' = timers s.
Proof.
  intros data p s'. eexists. split; [reflexivity|].
  subst s' p. unfold pulse_find.
  change (find_query MaxFlow_ts data)
    with (@Throw (gmap string jsval)
            (TypeError "Cannot set properties of undefined")).
  by run_monad s.
Qed.

(** ** An immediate push: what it sends and what it leaves alone *)

Lemma immediate_push_effect (v : variant) (reqdata : jsval)
    (options : option PushOptions) (now : Z) (s : state) :
  is_immediately options = true →
  requests s !! next_promise s = None →
  awaiting s !! next_promise s = None →
  let p := next_promise s in
  let s' := (push v reqdata options now s).2 in
  (push v reqdata options now s).1 = Return p
  ∧ queue s' = queue s ∧ pushTimeout s' = pushTimeout s
  ∧ maxAgeTimeout s' = maxAgeTimeout s ∧ timers s' = timers s
  ∧ awaiting s' = awaiting s
  ∧ (is_Some (axiosInstance s) ∨ (validateConfig v s).1 = Return tt →
     requests s' = <[p := POST "/api/pulse" reqdata]> (requests s)
     ∧ settled s' = settled s
     ∧ ∀ o : outcome,
         let s'' := step v s' (Response p o) in
         settled s'' = settled s ++ [(p, o)]
         ∧ requests s'' = requests s
         ∧ queue s'' = queue s ∧ pushTimeout s'' = pushTimeout s
         ∧ maxAgeTimeout s'' = maxAgeTimeout s ∧ timers s'' = timers s
         ∧ awaiting s'' = awaiting s)
  ∧ (∀ e : error,
       axiosInstance s = None → (validateConfig v s).1 = Throw e →
       requests s' = requests s
       ∧ settled s' = settled s ++ [(p, Rejected e)]).
Proof.
  intros Him Hr Ha p s'. subst p s'.
  destruct (http_true_cases v s) as [[i H]|(msg & Hi & Hv & H)].
  - assert (push v reqdata options now s
            = (Return (next_promise s),
               sent (next_promise s) (POST "/api/pulse" reqdata) i s)) as ->.
    { rewrite push_immediately by done. by apply pulse_create_sent. }
    simpl. split; [done|].
    do 5 (split; [by destruct s|]).
    split.
    + intros _. split; [by destruct s|]. split; [by destruct s|].
      intros o.
      replace (requests (sent (next_promise s) (POST "/api/pulse" reqdata) i s)
                 !! next_promise s)
        with (Some (POST "/api/pulse" reqdata))
        by (destruct s; simpl; by rewrite lookup_insert_eq).
      rewrite on_response_eq. simpl.
      replace (awaiting (sent (next_promise s) (POST "/api/pulse" reqdata) i s))
        with (awaiting s) by (by destruct s).
      rewrite Ha.
      split; [by destruct s|].
      split; [destruct s; simpl in *; by rewrite delete_insert_id|].
      do 4 (split; [by destruct s|]). by destruct s.
    + intros e Hnone Hthrow.
      assert (http v true s = (Throw e, s)) as H'
        by (by apply http_error_iff).
      congruence.
  - assert (push v reqdata options now s
            = (Return (next_promise s),
               rejected (next_promise s) (Error msg) s)) as ->.
    { rewrite push_immediately by done. by apply pulse_create_rejected. }
    simpl. split; [done|].
    do 5 (split; [by destruct s|]).
    split.
    + intros [[i0 Hsome]|Hok].
      * by rewrite Hi in Hsome.
      * by rewrite Hv in Hok.
    + intros e _ He. rewrite Hv in He. simpl in He.
      assert (e = Error msg) as -> by congruence. by destruct s.
Qed.

(** C6. [push(reqdata, {immediately: true})] at any point of any run, in
    each revision, returns a promise [p] and leaves the queue, [pushTimeout],
    [maxAgeTimeout], the live timeouts and the parked items of earlier
    flushes as they were. When the client can send (an axios instance
    exists, or [validateConfig] passes), the call sends the single request
    [POST /api/pulse reqdata] with [p] as the promise of its response and
    settles nothing, and then whatever the transport answers, success or
    failure, settles [p] with that answer and nothing else, the queue, the
    timers and the parked items still being as before the call. When it
    cannot (no axios instance and [validateConfig] throws [e]), no request
    goes out and [p] is rejected with [e]. *)
Theorem C6_immediate_push_leaves_queue_and_timers
    (v : variant) (config : option MaxflowConfig) (before : list event)
    (reqdata : jsval) (d w : option Z) (now : Z) :
  let options := Some {| debounce := d; debounce_max_wait := w;
                         immediately := Some true |} in
  let s := run_events v (constructor v config) before in
  let p := next_promise s in
  let s' := (push v reqdata options now s).2 in
  (push v reqdata options now s).1 = Return p
  ∧ queue s' = queue s ∧ pushTimeout s' = pushTimeout s
  ∧ maxAgeTimeout s' = maxAgeTimeout s ∧ timers s' = timers s
  ∧ awaiting s' = awaiting s
  ∧ (is_Some (axiosInstance s) ∨ (validateConfig v s).1 = Return tt →
     requests s' = <[p := POST "/api/pulse" reqdata]> (requests s)
     ∧ settled s' = settled s
     ∧ ∀ o : outcome,
         let s'' := step v s' (Response p o) in
         settled s'' = settled s ++ [(p, o)]
         ∧ requests s'' = requests s
         ∧ queue s'' = queue s ∧ pushTimeout s'' = pushTimeout s
         ∧ maxAgeTimeout s'' = maxAgeTimeout s ∧ timers s'' = timers s
         ∧ awaiting s'' = awaiting s)
  ∧ (∀ e : error,
       axiosInstance s = None → (validateConfig v s).1 = Throw e →
       requests s' = requests s
       ∧ settled s' = settled s ++ [(p, Rejected e)]).
Proof.
  intros options s.
  destruct (reachable_promise_fresh v config before) as [Hr Ha].
  by apply immediate_push_effect.
Qed.

Lemma C6_immediate_push_leaves_queue_and_timers_witness :
  (is_Some (axiosInstance three_queued)
   ∨ (validateConfig MaxflowClient_ts three_queued).1 = Return tt)
  ∧ (let v := MaxflowClient_ts in
     let options := Some {| debounce := None; debounce_max_wait := None;
                            immediately := Some true |} in
     let s := three_queued in
     let p := next_promise s in
     let s' := (push v (JStr "now") options 30 s).2 in
     (push v (JStr "now") options 30 s).1 = Return p
     ∧ requests s' = <[p := POST "/api/pulse" (JStr "now")]> (requests s)
     ∧ settled s' = settled s
     ∧ queue s' = queue s ∧ timers s' = timers s).
Proof.
  split; [right; reflexivity|].
  destruct (C6_immediate_push_leaves_queue_and_timers MaxflowClient_ts
              credentials three_pushes (JStr "now") None None 30)
    as (Hp & Hq & _ & _ & Ht & _ & Hsend & _).
  destruct Hsend as (Hr & Hs & _); [right; reflexivity|].
  repeat split; assumption.
Defined.

(** The other case, on a client that was given no credentials. *)
Example immediate_push_without_credentials :
  let v := MaxflowClient_ts in
  let options := Some {| debounce := None; debounce_max_wait := None;
                         immediately := Some true |} in
  let s := constructor v None in
  (push v (JNum 1) options 0 s).1 = Return 0%nat
  ∧ requests (push v (JNum 1) options 0 s).2 = ∅
  ∧ settled (push v (JNum 1) options 0 s).2
    = [(0%nat, Rejected (Error "API Key is not set"))].
Proof. done. Qed.

(** * Further properties *)

(** ** validateConfig and http *)

(** X1. [validateConfig] returns normally exactly when every required
    credential is a non-empty string: apiKey, teamId and apiSecret, and
    applicationId too in src/src/maxflowClient.ts. In every case it leaves
    the state as it is, and what it throws is an [Error]. *)
Theorem X1_validateConfig_passes_iff_credentials_set
    (v : variant) (s : state) :
  ((validateConfig v s).1 = Return tt ↔
   not_set (apiKey s) = false ∧ not_set (teamId s) = false
   ∧ not_set (apiSecret s) = false
   ∧ (v = Src_MaxflowClient_ts → not_set (applicationId s) = false))
  ∧ (validateConfig v s).2 = s
  ∧ ((validateConfig v s).1 = Return tt
     ∨ ∃ msg, (validateConfig v s).1 = Throw (Error msg)).
Proof.
  split; [|split].
  - unfold validateConfig, bind, gets. simpl.
    destruct v; simpl;
      destruct (not_set (apiKey s)), (not_set (teamId s)),
               (not_set (apiSecret s)), (not_set (applicationId s));
      simpl; split; try done; try (intros (? & ? & ? & ?); done);
      intros (? & ? & ? & H); by (try specialize (H eq_refl)).
  - by destruct (validateConfig_cases v s) as [->|[msg ->]].
  - destruct (validateConfig_cases v s) as [->|[msg ->]]; [by left|].
    right. by exists msg.
Qed.

(** X3. Whatever axios instance is cached, an authenticated [http()] that
    returns hands out an instance that carries the client's current base URL
    and current credentials in its common headers, and stores that instance;
    when it throws, no instance was cached and the state is unchanged. The
    base URL and the common headers of the instance are thus rewritten from
    the fields of the client on every authenticated call. *)
Theorem X3_http_refreshes_base_url_and_headers (v : variant) (s : state) :
  match (http v true s).1 with
  | Return i =>
      (http v true s).2 = set_axiosInstance (Some i) s
      ∧ defaults_baseURL i = baseURL s
      ∧ defaults_headers_common i !! "x-api-key"
        = Some (string_or_null (apiKey s))
      ∧ defaults_headers_common i !! "x-max-team-id"
        = Some (string_or_null (teamId s))
      ∧ defaults_headers_common i !! "x-api-secret"
        = Some (string_or_null (apiSecret s))
      ∧ (v = Src_MaxflowClient_ts →
         defaults_headers_common i !! "x-max-application-id"
         = Some (string_or_null (applicationId s)))
  | Throw _ => axiosInstance s = None ∧ (http v true s).2 = s
  end.
Proof.
  rewrite http_true_unfold. unfold bind, gets, modify, ret. simpl.
  assert (∀ i0, let i := with_auth v s i0 in
            defaults_baseURL i = baseURL s
            ∧ defaults_headers_common i !! "x-api-key"
              = Some (string_or_null (apiKey s))
            ∧ defaults_headers_common i !! "x-max-team-id"
              = Some (string_or_null (teamId s))
            ∧ defaults_headers_common i !! "x-api-secret"
              = Some (string_or_null (apiSecret s))
            ∧ (v = Src_MaxflowClient_ts →
               defaults_headers_common i !! "x-max-application-id"
               = Some (string_or_null (applicationId s)))) as Hauth.
  { intros i0. destruct v; simpl; repeat split; try done; by simplify_map_eq. }
  destruct (axiosInstance s) as [i0|] eqn:Hi; simpl.
  - split; [done|]. exact (Hauth i0).
  - destruct (validateConfig_cases v s) as [H|[msg H]]; rewrite H; simpl.
    + split; [done|]. exact (Hauth (axios_create (baseURL s) ∅)).
    + done.
Qed.

(** ** More on the query builder *)

(** X12. When [pulse.find] builds a query, [page], [pageSize] and [search]
    are in it exactly when given and with the value given, [match] and
    [orderBy] are in it exactly when given, and it has no other key. The
    legacy [sort] field has no influence on the query. *)
Theorem X12_find_query_passes_pagination_and_search_through
    (v : variant) (data : findData) (q : gmap string jsval) :
  find_query v data = Return q →
  q !! "page" = JNum <$> page data
  ∧ q !! "pageSize" = JNum <$> pageSize data
  ∧ q !! "search" = SearchConfig_value <$> search data
  ∧ (is_Some (q !! "match") ↔ is_Some (match_ data))
  ∧ (is_Some (q !! "orderBy") ↔ is_Some (orderBy data))
  ∧ dom q ⊆ {[ "match"; "page"; "pageSize"; "search"; "orderBy" ]}
  ∧ ∀ so, find_query v {| match_ := match_ data; page := page data;
                          pageSize := pageSize data; sort := so;
                          orderBy := orderBy data; search := search data |}
          = Return q.
Proof.
  intros Hq.
  assert (∃ q0 : gmap string jsval,
            match match_ data with
            | Some (MatchArray items) =>
                Return (<["match" := JObj (foldl (match_assign v) ∅ items)]> ∅)
            | Some (MatchRecord r) => match_record v ∅ r
            | None => Return ∅
            end = Return q0
            ∧ (is_Some (q0 !! "match") ↔ is_Some (match_ data))
            ∧ dom q0 ⊆ {[ "match" ]}) as (q0 & Hq0 & Hm0 & Hd0).
  { revert Hq. unfold find_query.
    destruct (match_ data) as [[items|r]|]; simpl.
    - intros _. eexists. split; [done|]. rewrite lookup_insert_eq.
      split; [done|]. (rewrite dom_insert_L, dom_empty_L; set_unfold; tauto).
    - unfold match_record. destruct v; simpl; try done.
      all: intros _; eexists; (split; [done|]); rewrite lookup_insert_eq;
        (split; [done|]); (rewrite dom_insert_L, dom_empty_L; set_unfold; tauto).
    - intros _. exists ∅. split; [done|]. rewrite lookup_empty.
      split; [split; by intros [? ?]|]. rewrite dom_empty_L.
      apply empty_subseteq. }
  assert (q0 !! "page" = None ∧ q0 !! "pageSize" = None
          ∧ q0 !! "search" = None ∧ q0 !! "orderBy" = None)
    as (Hp0 & Hs0 & Hse0 & Ho0).
  { repeat split; apply not_elem_of_dom; intros Hin; apply Hd0 in Hin;
      by apply elem_of_singleton in Hin. }
  assert (∀ so, find_query v {| match_ := match_ data; page := page data;
                               pageSize := pageSize data; sort := so;
                               orderBy := orderBy data; search := search data |}
               = Return q) as Hsort.
  { intros so. rewrite <-Hq. reflexivity. }
  revert Hq. unfold find_query. simpl. rewrite Hq0. simpl. intros [= <-].
  destruct (page data), (pageSize data), (search data), (orderBy data);
    simpl;     repeat (rewrite lookup_insert_eq || (rewrite lookup_insert_ne by done));
    rewrite ?Hp0, ?Hs0, ?Hse0, ?Ho0;
    (split; [done|]); (split; [done|]); (split; [done|]);
    (split; [done|]);
    (split; [split; solve [eauto | by intros [? ?]]|]);
    (split; [|done]);
    intros k Hk; apply elem_of_dom in Hk;
    repeat (apply lookup_insert_is_Some in Hk as [<- | [? Hk]];
            [set_unfold; tauto|]);
    apply elem_of_dom, Hd0, elem_of_singleton in Hk; set_unfold; tauto.
Qed.

Lemma X12_find_query_passes_pagination_and_search_through_witness :
  find_query MaxflowClient_ts
    {| match_ := None; page := Some 1; pageSize := Some 25;
       sort := Some "createdAt"; orderBy := None; search := None |}
  = Return (<["pageSize" := JNum 25]> (<["page" := JNum 1]> ∅))
  ∧ let data := {| match_ := None; page := Some 1; pageSize := Some 25;
                   sort := Some "createdAt"; orderBy := None;
                   search := None |} in
    let q : gmap string jsval :=
      <["pageSize" := JNum 25]> (<["page" := JNum 1]> ∅) in
    q !! "page" = JNum <$> page data
    ∧ q !! "pageSize" = JNum <$> pageSize data
    ∧ q !! "search" = SearchConfig_value <$> search data
    ∧ (is_Some (q !! "match") ↔ is_Some (match_ data))
    ∧ (is_Some (q !! "orderBy") ↔ is_Some (orderBy data))
    ∧ dom q ⊆ {[ "match"; "page"; "pageSize"; "search"; "orderBy" ]}
    ∧ ∀ so, find_query MaxflowClient_ts
              {| match_ := match_ data; page := page data;
                 pageSize := pageSize data; sort := so;
                 orderBy := orderBy data; search := search data |}
            = Return q.
Proof.
  split; [reflexivity|].
  apply (X12_find_query_passes_pagination_and_search_through
           MaxflowClient_ts
           {| match_ := None; page := Some 1; pageSize := Some 25;
              sort := Some "createdAt"; orderBy := None; search := None |}).
  reflexivity.
Defined.


(** ** What a flush and a run leave as they are *)

Section preserved.
Implicit Types (v : variant) (s : state) (p : nat).

Lemma mapM_preserves {A B} (P : state → Prop) (f : A → M B) (xs : list A) :
  (∀ x s, P s → P (f x s).2) → ∀ s, P s → P (mapM f xs s).2.
Proof.
  intros Hf. induction xs as [|x xs IH]; intros s Hs; [done|].
  simpl. unfold bind at 1. specialize (Hf x s Hs).
  destruct (f x s) as [[y|e] s1]; [|done]. simpl in Hf.
  unfold bind at 1. specialize (IH s1 Hf).
  by destruct (mapM f xs s1) as [[ys|e] s2].
Qed.

Lemma forEach_preserves {A} (P : state → Prop) (f : A → M unit)
    (xs : list A) :
  (∀ x s, P s → P (f x s).2) → ∀ s, P s → P (forEach xs f s).2.
Proof.
  intros Hf. induction xs as [|x xs IH]; intros s Hs; [done|].
  simpl. unfold bind at 1. specialize (Hf x s Hs).
  destruct (f x s) as [[y|e] s1]; [|done]. by apply IH.
Qed.

(** A property of the state that clearing the queue, starting a request and
    the map callback of an item keep is kept by [processQueue]. *)
Lemma processQueue_keeps v (P : state → Prop) :
  (∀ s, P s → P (detach s)) →
  (∀ d s, P s → P (pulse_create v d s).2) →
  (∀ snapshot waiting s, P s → P (await_item v snapshot waiting s).2) →
  ∀ s, P s → P (processQueue v s).2.
Proof.
  intros Hdetach Hcreate Hawait s Hs.
  destruct (queue s) as [|item0 q] eqn:Hq.
  { by rewrite processQueue_empty. }
  rewrite processQueue_nonempty by (by rewrite Hq).
  unfold bind at 1.
  pose proof (mapM_preserves P
                (λ item, p <- pulse_create v (data item) ;; ret (item, p))
                (queue s)) as Hmap.
  specialize (Hmap) with (s := detach s).
  assert (∀ item s2, P s2 →
            P ((p <- pulse_create v (data item) ;; ret (item, p)) s2).2)
    as Hstart.
  { intros item s2 Hs2. unfold bind, ret.
    specialize (Hcreate (data item) s2 Hs2).
    by destruct (pulse_create v (data item) s2) as [[?|?] ?]. }
  specialize (Hmap Hstart (Hdetach s Hs)).
  destruct (mapM _ (queue s) (detach s)) as [[started|e] s1]; [|done].
  apply forEach_preserves; [|done].
  intros waiting s2 Hs2. by apply Hawait.
Qed.

Lemma processQueue_preserves v (P : state → Prop) :
  (∀ s, P s → P (detach s)) →
  (∀ d s, P s → P (pulse_create v d s).2) →
  (∀ s x, P s → P (set_settled x s)) →
  (∀ s x, P s → P (set_awaiting x s)) →
  ∀ s, P s → P (processQueue v s).2.
Proof.
  intros Hdetach Hcreate Hsettled Hawaiting.
  apply processQueue_keeps; [done|done|].
  intros snapshot [item p] s Hs.
  destruct (await_item_cases v snapshot item p s)
    as [(o & _ & ->)|[_ ->]]; simpl; auto.
Qed.

Lemma same_settings_refl s : same_settings s s.
Proof. by repeat split. Qed.

Lemma same_settings_trans s1 s2 s3 :
  same_settings s1 s2 → same_settings s2 s3 → same_settings s1 s3.
Proof.
  unfold same_settings. intros (?&?&?&?&?) (?&?&?&?&?).
  repeat split; congruence.
Qed.

Lemma issues_same_settings (m : M nat) s :
  issues m s → same_settings s (m s).2.
Proof. intros [(r & i & ->)|(e & ->)]; by destruct s. Qed.

Lemma issues_axiosInstance (m : M nat) s :
  issues m s → is_Some (axiosInstance s) → is_Some (axiosInstance (m s).2).
Proof. intros [(r & i & ->)|(e & ->)]; by destruct s. Qed.

Lemma detach_same_settings s : same_settings s (detach s).
Proof.
  unfold detach. destruct s as [? ? ? ? ? q pt mt ? ? ? ? ? ? ?]; simpl.
  by destruct pt, mt.
Qed.

Lemma processQueue_same_settings v s : same_settings s (processQueue v s).2.
Proof.
  apply (processQueue_preserves v (same_settings s)).
  - intros s1 H. eapply same_settings_trans; [done|].
    apply detach_same_settings.
  - intros d s1 H. eapply same_settings_trans; [done|].
    apply issues_same_settings, pulse_create_issues.
  - intros s1 x H. by destruct s1.
  - intros s1 x H. by destruct s1.
  - apply same_settings_refl.
Qed.

Lemma processQueue_axiosInstance v s :
  is_Some (axiosInstance s) → is_Some (axiosInstance (processQueue v s).2).
Proof.
  apply (processQueue_preserves v (λ s, is_Some (axiosInstance s))).
  - intros s1. by rewrite axiosInstance_detach.
  - intros d s1. apply issues_axiosInstance, pulse_create_issues.
  - intros s1 x. by destruct s1.
  - intros s1 x. by destruct s1.
Qed.
End preserved.

Section runs_preserve.
Implicit Types (v : variant) (s : state) (p : nat).

Lemma push_same_settings v reqdata options now s :
  same_settings s (push v reqdata options now s).2
  ∧ (is_Some (axiosInstance s) →
     is_Some (axiosInstance (push v reqdata options now s).2)).
Proof.
  destruct (is_immediately options) eqn:Him.
  - pose proof (push_issues v reqdata options now s Him) as H.
    split; [by apply issues_same_settings|by apply issues_axiosInstance].
  - unfold push. rewrite Him.
    destruct s as [? ? ? ? ? q pt mt ? ? ? ? ? ? ?].
    cbv [bind gets modify ret throw try_catch async settle new_promise send
         setTimeout clearTimeout id]; simpl.
    destruct pt as [h|]; simpl;
      destruct (length (q ++ _) =? 1)%nat; simpl; by repeat split.
Qed.

(** Only the setters write the settings. *)
Lemma step_same_settings v s ev :
  is_setter ev = false → same_settings s (step v s ev).
Proof.
  intros Hev.
  assert (∀ m : M nat, issues m s →
            same_settings s ((p <- m ;; ret (Some p)) s).2) as Hissues.
  { intros m Hm. pose proof (issues_same_settings _ _ Hm) as H.
    unfold bind, ret. by destruct (m s) as [[?|?] ?]. }
  destruct ev as [op|h|p o|]; simpl.
  - destruct (has_method v op); [|apply same_settings_refl].
    destruct op as [reqdata opts now| ? ? | ? | ? | ? | ? | ? | ? ? | ? ?
                   | ? ? | ? ? | ? | ? | ?];
      try done; unfold call; cbv beta iota zeta.
    + pose proof (push_same_settings v reqdata opts now s) as [H _].
      unfold bind, ret. by destruct (push v reqdata opts now s) as [[?|?] ?].
    + apply Hissues, run_issues.
    + apply Hissues, getExecutionStatus_issues.
    + apply Hissues, pulse_create_issues.
    + apply Hissues, pulse_get_issues.
    + apply Hissues, pulse_find_issues.
    + apply Hissues, pulse_delete_issues.
    + apply Hissues, pulse_update_issues.
    + apply Hissues, runPublic_issues.
    + apply Hissues, getExecutionPublicStatus_issues.
  - destruct (timers s !! h) as [d|]; [|apply same_settings_refl].
    eapply same_settings_trans; [|apply processQueue_same_settings].
    by destruct s.
  - destruct (requests s !! p) as [r|]; [|apply same_settings_refl].
    rewrite on_response_eq. simpl.
    destruct (awaiting s !! p) as [[item snapshot]|]; by destruct s.
  - apply processQueue_same_settings.
Qed.

Lemma run_events_same_settings v s evs :
  Forall (λ ev, is_setter ev = false) evs →
  same_settings s (run_events v s evs).
Proof.
  revert s. induction evs as [|ev evs IH]; intros s Hevs.
  { apply same_settings_refl. }
  apply Forall_cons in Hevs as [Hev Hevs]. simpl.
  eapply same_settings_trans; [by apply step_same_settings|by apply IH].
Qed.

(** The axios instance, once created, is never dropped. *)
Lemma step_axiosInstance v s ev :
  is_Some (axiosInstance s) → is_Some (axiosInstance (step v s ev)).
Proof.
  intros Hs.
  assert (∀ m : M nat, issues m s →
            is_Some (axiosInstance ((p <- m ;; ret (Some p)) s).2))
    as Hissues.
  { intros m Hm. pose proof (issues_axiosInstance _ _ Hm Hs) as H.
    unfold bind, ret. by destruct (m s) as [[?|?] ?]. }
  destruct ev as [op|h|p o|]; simpl.
  - destruct (has_method v op); [|done].
    destruct op as [reqdata opts now| ? ? | ? | ? | ? | ? | ? | ? ? | ? ?
                   | ? ? | ? ? | ? | ? | ?];
      unfold call; cbv beta iota zeta.
    + pose proof (push_same_settings v reqdata opts now s) as [_ H].
      specialize (H Hs).
      unfold bind, ret. by destruct (push v reqdata opts now s) as [[?|?] ?].
    + apply Hissues, run_issues.
    + apply Hissues, getExecutionStatus_issues.
    + apply Hissues, pulse_create_issues.
    + apply Hissues, pulse_get_issues.
    + apply Hissues, pulse_find_issues.
    + apply Hissues, pulse_delete_issues.
    + apply Hissues, pulse_update_issues.
    + apply Hissues, runPublic_issues.
    + apply Hissues, getExecutionPublicStatus_issues.
    + by destruct v, s.
    + by destruct s.
    + by destruct s.
    + by destruct s.
  - destruct (timers s !! h) as [d|]; [|done].
    apply processQueue_axiosInstance. by destruct s.
  - destruct (requests s !! p) as [r|]; [|done].
    rewrite on_response_eq. simpl.
    destruct (awaiting s !! p) as [[item snapshot]|]; by destruct s.
  - by apply processQueue_axiosInstance.
Qed.

Lemma run_events_axiosInstance v s evs :
  is_Some (axiosInstance s) → is_Some (axiosInstance (run_events v s evs)).
Proof.
  revert s. induction evs as [|ev evs IH]; intros s Hs; [done|].
  simpl. by apply IH, step_axiosInstance.
Qed.
End runs_preserve.

(** ** Calls that send and calls that reject *)

Section no_secret.
Implicit Types (v : variant) (s : state) (p : nat).

Lemma validateConfig_no_secret v s :
  not_set (apiSecret s) = true →
  ∃ msg, validateConfig v s = (Throw (Error msg), s).
Proof.
  intros H. unfold validateConfig, bind, gets, throw. simpl. rewrite H.
  destruct v;
    destruct (not_set (apiKey s)), (not_set (teamId s)),
             (not_set (applicationId s)); simpl; by eexists.
Qed.

Lemma http_no_secret v s :
  not_set (apiSecret s) = true → axiosInstance s = None →
  ∃ msg, http v true s = (Throw (Error msg), s).
Proof.
  intros Hk Ha. destruct (validateConfig_no_secret v s Hk) as [msg Hv].
  exists msg. apply http_error_iff. by rewrite Hv.
Qed.

(** While [http()] throws, a call that authenticates and goes to the
    transport at once returns a rejected promise and changes nothing
    else. *)
Lemma call_rejected v op s e :
  is_public op = false →
  sends_at_once op = true →
  http v true s = (Throw e, s) →
  ∃ e', call v op s
        = (Return (Some (next_promise s)), rejected (next_promise s) e' s).
Proof.
  intros Hpub Hop He.
  assert (∀ (m : M nat) e',
            m s = (Return (next_promise s), rejected (next_promise s) e' s) →
            ∃ e', (p <- m ;; ret (Some p)) s
                  = (Return (Some (next_promise s)),
                     rejected (next_promise s) e' s)) as Hret.
  { intros m e' H. exists e'. unfold bind, ret. by rewrite H. }
  destruct op as [reqdata opts now| ? ? | ? | ? | ? | fd | ? | ? ? | ? ?
                 | ? ? | ? ? | ? | ? | ?];
    try done; unfold call; cbv beta iota zeta.
  - apply (Hret _ e). simpl in Hop. rewrite push_immediately by done.
    by apply async_http_error.
  - apply (Hret _ e). unfold run. rewrite async_rethrow.
    by apply async_http_error.
  - apply (Hret _ e). unfold getExecutionStatus. rewrite async_rethrow.
    by apply async_http_error.
  - apply (Hret _ e). by apply async_http_error.
  - apply (Hret _ e). by apply async_http_error.
  - unfold pulse_find. destruct (find_query v fd) as [q|e'].
    + apply (Hret _ e). by apply async_http_error.
    + apply (Hret _ e'). by run_monad s.
  - apply (Hret _ e). unfold pulse_delete. destruct v;
      by apply async_http_error.
  - apply (Hret _ e). by apply async_http_error.
Qed.



(** The calls that do not authenticate send in every state. *)
Lemma call_public_sent op s :
  is_public op = true →
  ∃ r i, call Src_MaxflowClient_ts op s
         = (Return (Some (next_promise s)), sent (next_promise s) r i s).
Proof.
  intros Hop.
  destruct op as [reqdata opts now| ? ? | ? | ? | ? | ? | ? | ? ? | pid o
                 | eid pid | ? ? | ? | ? | ?]; try done;
    unfold call; cbv beta iota zeta.
  - destruct (http_false s) as [i Hi].
    unfold runPublic. unfold bind at 1. rewrite async_rethrow.
    exists (POST ("/api/integration/"
                    +:+ ToString (string_or_null (teamId s))
                    +:+ "/" +:+ pid +:+ callback_suffix o)
                 (JObj {[ "params" := optional (params o);
                          "data" := optional (run_data o) ]})), i.
    unfold async, try_catch. unfold bind at 1.
    rewrite Hi. by run_monad s.
  - destruct (http_false s) as [i Hi].
    unfold getExecutionPublicStatus. unfold bind at 1.
    rewrite async_rethrow.
    exists (GET ("/api/workflow/log?logId=" +:+ eid
                   +:+ "&publicId=" +:+ pid)), i.
    unfold async, try_catch. unfold bind at 1.
    rewrite Hi. by run_monad s.
Qed.
End no_secret.

(** ** A client without an API secret *)

Section without_secret.
Implicit Types (v : variant) (s : state) (p : nat).

Lemma promise_state_elem_of p o s :
  promise_state p s = Some o → (p, o) ∈ settled s.
Proof.
  unfold promise_state. intros H.
  apply fmap_Some in H as ([p' o'] & Hh & ->).
  apply head_Some_elem_of, list_elem_of_filter in Hh as [Hp Hin].
  simpl in Hp. by subst p'.
Qed.

Lemma processQueue_without_secret v s :
  without_secret s → without_secret (processQueue v s).2.
Proof.
  apply processQueue_keeps.
  - intros s1 (Hk & Ha & Hr & Hs).
    destruct (detach_fields s1) as (_ & _ & _ & _ & Hdr & _ & _ & Hds).
    destruct (detach_same_settings s1) as (_ & Hdk & _).
    unfold without_secret.
    by rewrite Hdk, axiosInstance_detach, Hdr, Hds.
  - intros d s1 (Hk & Ha & Hr & Hs).
    destruct (http_no_secret v s1 Hk Ha) as [msg Hh].
    rewrite (pulse_create_rejected v d s1 _ Hh). simpl.
    unfold without_secret. destruct s1; simpl in *.
    repeat split; try done. apply Forall_app. split; [done|].
    apply Forall_singleton. by eexists.
  - intros snapshot [item p] s1 (Hk & Ha & Hr & Hs).
    destruct (await_item_cases v snapshot item p s1)
      as [(o & Ho & ->)|[_ ->]]; simpl.
    + apply promise_state_elem_of in Ho.
      rewrite Forall_forall in Hs. destruct (Hs _ Ho) as [e He].
      simpl in He. subst o.
      unfold without_secret. destruct s1; simpl in *.
      repeat split; try done. apply Forall_app. split.
      * by apply Forall_forall.
      * apply Forall_singleton. by eexists.
    + unfold without_secret. by destruct s1.
Qed.

Lemma step_without_secret v s ev :
  v ≠ Src_MaxflowClient_ts →
  without_secret s → without_secret (step v s ev).
Proof.
  intros Hv Hs. pose proof Hs as (Hk & Ha & Hr & Hse).
  destruct ev as [op|h|p o|]; simpl.
  - destruct (has_method v op) eqn:Hm; [|done].
    destruct (sends_at_once op) eqn:Hop.
    + destruct (http_no_secret v s Hk Ha) as [msg Hh].
      assert (is_public op = false) as Hpub by (by destruct v, op).
      destruct (call_rejected v op s _ Hpub Hop Hh) as [e' ->]. simpl.
      unfold without_secret. destruct s; simpl in *.
      repeat split; try done. apply Forall_app. split; [done|].
      apply Forall_singleton. by eexists.
    + destruct op as [reqdata opts now| ? ? | ? | ? | ? | ? | ? | ? ? | ? ?
                     | ? ? | ? ? | ? | ? | ?];
        try done; unfold call; cbv beta iota zeta.
      * simpl in Hop.
        destruct (push_queued v reqdata opts now s Hop)
          as (s' & Hp & _ & _ & Hr' & _ & Hs' & _).
        destruct (push_queued_config v v reqdata opts now s Hop) as [Ha' _].
        destruct (push_same_settings v reqdata opts now s) as [(_ & Hk' & _) _].
        unfold bind, ret. rewrite Hp in *. simpl in *.
        unfold without_secret. by rewrite Hk', Ha', Hr', Hs'.
      * unfold without_secret. by destruct v, s.
      * unfold without_secret. by destruct s.
      * unfold without_secret. by destruct s.
      * unfold without_secret. by destruct s.
  - destruct (timers s !! h) as [d|]; [|done].
    apply processQueue_without_secret. unfold without_secret. by destruct s.
  - by rewrite Hr, lookup_empty.
  - by apply processQueue_without_secret.
Qed.

Lemma run_events_without_secret v s evs :
  v ≠ Src_MaxflowClient_ts →
  without_secret s → without_secret (run_events v s evs).
Proof.
  intros Hv. revert s. induction evs as [|ev evs IH]; intros s Hs; [done|].
  simpl. by apply IH, step_without_secret.
Qed.

(** Without a setter for it, the API secret is the constructor's. *)
Lemma run_events_apiSecret v s evs :
  v ≠ Src_MaxflowClient_ts → apiSecret (run_events v s evs) = apiSecret s.
Proof.
  intros Hv. revert s. induction evs as [|ev evs IH]; intros s; [done|].
  simpl. rewrite IH.
  destruct (is_setter ev) eqn:Hev.
  - destruct ev as [op| | |]; try done.
    simpl. destruct (has_method v op); [|done].
    destruct op; try done; by destruct v, s.
  - by destruct (step_same_settings v s ev Hev) as (_ & ? & _).
Qed.
End without_secret.

(** ** Lazy validation and the setters *)

(** X2. [http()] validates the configuration only while no axios instance
    exists. Once a client holds an instance, whatever happens afterwards
    (setters that blank a credential included), [http()] returns, and
    [pulse.create] sends its request and rejects nothing. *)
Theorem X2_no_validation_once_instance_exists
    (v : variant) (s : state) (after : list event) (d : jsval) :
  is_Some (axiosInstance s) →
  let s' := run_events v s after in
  let p := next_promise s' in
  (∃ i, http v true s' = (Return i, set_axiosInstance (Some i) s'))
  ∧ (pulse_create v d s').1 = Return p
  ∧ requests (pulse_create v d s').2
    = <[p := POST "/api/pulse" d]> (requests s')
  ∧ settled (pulse_create v d s').2 = settled s'.
Proof.
  intros Hs s' p.
  assert (is_Some (axiosInstance s')) as Hs'
    by (by apply run_events_axiosInstance).
  destruct (http_true_ok v s') as [i Hi]; [by left|].
  split; [by exists i|].
  rewrite (pulse_create_sent v d s' i Hi). subst p. by destruct s'.
Qed.

Lemma X2_no_validation_once_instance_exists_witness :
  is_Some (axiosInstance after_one_request)
  ∧ (let v := MaxflowClient_ts in
     let s' := run_events v after_one_request [Call (SetApiKey "" "")] in
     let p := next_promise s' in
     (∃ i, http v true s' = (Return i, set_axiosInstance (Some i) s'))
     ∧ (pulse_create v (JNum 2) s').1 = Return p
     ∧ requests (pulse_create v (JNum 2) s').2
       = <[p := POST "/api/pulse" (JNum 2)]> (requests s')
     ∧ settled (pulse_create v (JNum 2) s').2 = settled s').
Proof.
  split; [by eexists|].
  apply (X2_no_validation_once_instance_exists MaxflowClient_ts
           after_one_request [Call (SetApiKey "" "")] (JNum 2)).
  by eexists.
Defined.

(** The scenario of the witness: the key is blanked after the first request,
    [validateConfig] would throw, and no call runs it any more. *)
Example blank_key_after_first_request :
  (validateConfig MaxflowClient_ts
     (run_events MaxflowClient_ts after_one_request
                 [Call (SetApiKey "" "")])).1
  = Throw (Error "API Key is not set").
Proof. reflexivity. Qed.

(** X4. src/maxflowClient.ts and src/maxflow.ts have no setter for the API
    secret: [setApiKey] takes the key only. A client constructed without a
    non-empty apiSecret therefore never sends a request, in any run: no
    axios instance is created, no request is in flight, and every promise
    that is settled is rejected. *)
Theorem X4_no_request_without_secret_from_constructor
    (v : variant) (config : option MaxflowConfig) (evs : list event) :
  v ≠ Src_MaxflowClient_ts →
  not_set (config ≫= config_apiSecret) = true →
  let s := run_events v (constructor v config) evs in
  requests s = ∅ ∧ axiosInstance s = None
  ∧ apiSecret s = config ≫= config_apiSecret
  ∧ ∀ p o, (p, o) ∈ settled s → ∃ e, o = Rejected e.
Proof.
  intros Hv Hk s.
  assert (without_secret (constructor v config)) as H0.
  { unfold without_secret. simpl. repeat split; try done. }
  pose proof (run_events_without_secret v _ evs Hv H0) as (Hk' & Ha & Hr & Hs).
  fold s in Hk', Ha, Hr, Hs.
  split; [done|]. split; [done|]. split.
  - subst s. by rewrite run_events_apiSecret.
  - intros p o Hin. rewrite Forall_forall in Hs. by apply (Hs (p, o)).
Qed.

Lemma X4_no_request_without_secret_from_constructor_witness :
  MaxflowClient_ts ≠ Src_MaxflowClient_ts
  ∧ not_set (no_secret ≫= config_apiSecret) = true
  ∧ (let s := run_events MaxflowClient_ts
                (constructor MaxflowClient_ts no_secret)
                [Call (SetApiKey "key" "secret");
                 Call (PulseCreate (JNum 1)); Call (Push (JNum 2) None 0);
                 Flush] in
     requests s = ∅ ∧ axiosInstance s = None
     ∧ apiSecret s = no_secret ≫= config_apiSecret
     ∧ ∀ p o, (p, o) ∈ settled s → ∃ e, o = Rejected e).
Proof.
  split; [done|]. split; [reflexivity|].
  apply (X4_no_request_without_secret_from_constructor MaxflowClient_ts
           no_secret
           [Call (SetApiKey "key" "secret");
            Call (PulseCreate (JNum 1)); Call (Push (JNum 2) None 0);
            Flush]).
  - done.
  - reflexivity.
Defined.

(** X5. In src/src/maxflowClient.ts the setters cover every credential:
    from any state, [setApiKey(key, secret)], [setTeamId] and
    [setApplicationId] with non-empty strings make [validateConfig] pass,
    and it keeps passing over every continuation of the run in which no
    setter is called. *)
Theorem X5_setters_complete_the_configuration
    (s : state) (key secret team app : string) (after : list event) :
  key ≠ "" → secret ≠ "" → team ≠ "" → app ≠ "" →
  Forall (λ ev, is_setter ev = false) after →
  let v := Src_MaxflowClient_ts in
  let s1 := run_events v s [Call (SetApiKey key secret); Call (SetTeamId team);
                            Call (SetApplicationId app)] in
  (validateConfig v s1).1 = Return tt
  ∧ (validateConfig v (run_events v s1 after)).1 = Return tt.
Proof.
  intros Hkey Hsecret Hteam Happ Hafter v s1.
  assert (∀ x : string, x ≠ "" → not_set (Some x) = false) as Hset.
  { intros x Hx. simpl. by apply String.eqb_neq. }
  assert (∀ s2, same_settings s1 s2 → (validateConfig v s2).1 = Return tt)
    as Hok.
  { intros s2 (Hk & Hs & Ht & Ha & _).
    assert (apiKey s1 = Some key ∧ apiSecret s1 = Some secret
            ∧ teamId s1 = Some team ∧ applicationId s1 = Some app)
      as (Hk1 & Hs1 & Ht1 & Ha1) by (by destruct s).
    unfold validateConfig, bind, gets. simpl.
    rewrite Hk, Hs, Ht, Ha, Hk1, Hs1, Ht1, Ha1.
    by rewrite !Hset. }
  split.
  - apply Hok, same_settings_refl.
  - by apply Hok, run_events_same_settings.
Qed.

Lemma X5_setters_complete_the_configuration_witness :
  "key" ≠ "" ∧ "secret" ≠ "" ∧ "team" ≠ "" ∧ "app" ≠ ""
  ∧ Forall (λ ev, is_setter ev = false)
      [Call (Push (JNum 1) None 0); Flush]
  ∧ (let v := Src_MaxflowClient_ts in
     let s1 := run_events v (constructor v None)
                 [Call (SetApiKey "key" "secret"); Call (SetTeamId "team");
                  Call (SetApplicationId "app")] in
     (validateConfig v s1).1 = Return tt
     ∧ (validateConfig v
          (run_events v s1 [Call (Push (JNum 1) None 0); Flush])).1
       = Return tt).
Proof.
  split; [done|]. split; [done|]. split; [done|]. split; [done|].
  split; [by repeat constructor|].
  apply (X5_setters_complete_the_configuration
           (constructor Src_MaxflowClient_ts None) "key" "secret" "team" "app"
           [Call (Push (JNum 1) None 0); Flush]).
  - done.
  - done.
  - done.
  - done.
  - by repeat constructor.
Defined.

(** X6. In src/src/maxflowClient.ts the calls that do not authenticate
    never validate the configuration: in every state [runPublic] and
    [getExecutionPublicStatus] send their request. They also store a new
    axios instance, so that from then on no authenticated call validates
    either: whatever happens afterwards, [pulse.push] sends its request. *)
Theorem X6_public_call_sends_and_disables_validation
    (s : state) (op : operation) (after : list event) (d : jsval) :
  is_public op = true →
  let v := Src_MaxflowClient_ts in
  let s1 := step v s (Call op) in
  let s2 := run_events v s1 after in
  (call v op s).1 = Return (Some (next_promise s))
  ∧ is_Some (requests s1 !! next_promise s)
  ∧ settled s1 = settled s
  ∧ (pulse_create v d s2).1 = Return (next_promise s2)
  ∧ requests (pulse_create v d s2).2
    = <[next_promise s2 := POST "/api/pulse" d]> (requests s2)
  ∧ settled (pulse_create v d s2).2 = settled s2.
Proof.
  intros Hop v s1 s2.
  destruct (call_public_sent op s Hop) as (r & i & Hcall). fold v in Hcall.
  assert (s1 = sent (next_promise s) r i s) as Hs1.
  { subst s1. simpl.
    replace (has_method v op) with true by (by destruct op).
    by rewrite Hcall. }
  assert (is_Some (axiosInstance s2)) as Hs2.
  { apply run_events_axiosInstance. rewrite Hs1. by destruct s. }
  destruct (http_true_ok v s2) as [i2 Hi2]; [by left|].
  rewrite (pulse_create_sent v d s2 i2 Hi2), Hcall, Hs1.
  split; [done|]. split; [|by destruct s, s2].
  destruct s; simpl. by rewrite lookup_insert_eq.
Qed.

Lemma X6_public_call_sends_and_disables_validation_witness :
  is_public (RunPublic "shared" {| run_data := None; params := None;
                                    callback_url := None |}) = true
  ∧ (let v := Src_MaxflowClient_ts in
     let op := RunPublic "shared" {| run_data := None; params := None;
                                      callback_url := None |} in
     let s := constructor v None in
     let s1 := step v s (Call op) in
     let s2 := run_events v s1 [] in
     (call v op s).1 = Return (Some (next_promise s))
     ∧ is_Some (requests s1 !! next_promise s)
     ∧ settled s1 = settled s
     ∧ (pulse_create v (JNum 1) s2).1 = Return (next_promise s2)
     ∧ requests (pulse_create v (JNum 1) s2).2
       = <[next_promise s2 := POST "/api/pulse" (JNum 1)]> (requests s2)
     ∧ settled (pulse_create v (JNum 1) s2).2 = settled s2).
Proof.
  split; [reflexivity|].
  apply (X6_public_call_sends_and_disables_validation
           (constructor Src_MaxflowClient_ts None)
           (RunPublic "shared" {| run_data := None; params := None;
                                   callback_url := None |})
           [] (JNum 1)).
  reflexivity.
Defined.

(** X18. Only the setters write the settings. Over any run in which no
    setter is called, whatever is pushed, flushed, sent or answered, the API
    key, the API secret, the team id, the application id and the base URL
    are what they were. *)
Theorem X18_only_setters_change_the_settings
    (v : variant) (s : state) (evs : list event) :
  Forall (λ ev, is_setter ev = false) evs →
  let s' := run_events v s evs in
  apiKey s' = apiKey s ∧ apiSecret s' = apiSecret s ∧ teamId s' = teamId s
  ∧ applicationId s' = applicationId s ∧ baseURL s' = baseURL s.
Proof. intros Hevs. by apply run_events_same_settings. Qed.

Lemma X18_only_setters_change_the_settings_witness :
  Forall (λ ev, is_setter ev = false)
         [Call (Push (JNum 1) None 0); Flush; Call (PulseGet "id");
          Response 1 (Fulfilled JNull)]
  ∧ (let v := MaxflowClient_ts in
     let s := constructor v credentials in
     let s' := run_events v s
                 [Call (Push (JNum 1) None 0); Flush; Call (PulseGet "id");
                  Response 1 (Fulfilled JNull)] in
     apiKey s' = apiKey s ∧ apiSecret s' = apiSecret s ∧ teamId s' = teamId s
     ∧ applicationId s' = applicationId s ∧ baseURL s' = baseURL s).
Proof.
  split; [by repeat constructor|].
  apply (X18_only_setters_change_the_settings MaxflowClient_ts
           (constructor MaxflowClient_ts credentials)
           [Call (Push (JNum 1) None 0); Flush; Call (PulseGet "id");
            Response 1 (Fulfilled JNull)]).
  by repeat constructor.
Defined.

(** ** The queue and its timers over a run *)

Section timers.
Implicit Types (v : variant) (s : state) (p : nat).

Lemma processQueue_handles_cleared v s :
  accounted [] s → parked_on_requests s →
  handles_cleared s → handles_cleared (processQueue v s).2.
Proof.
  intros Hacc Hpark Hs.
  destruct (queue s) as [|item q] eqn:Hq.
  { by rewrite processQueue_empty. }
  destruct (processQueue_flush v s) as
    (s' & -> & _ & _ & (_ & Hp & Hm & _) & _); [by rewrite Hq|done|done|].
  simpl. intros _.
  destruct (detach_fields s) as (_ & Hdp & Hdm & _).
  by rewrite Hp, Hm.
Qed.

Lemma step_handles_cleared v s ev :
  invariant s → handles_cleared s → handles_cleared (step v s ev).
Proof.
  intros (Hacc & Hpark & Ht) Hs.
  assert (∀ m : M nat, issues m s →
            handles_cleared ((p <- m ;; ret (Some p)) s).2) as Hissues.
  { intros m Hm.
    pose proof (issues_same_queue_and_timers _ _ Hm) as (Hq & Hp & Hma & _).
    unfold bind, ret. destruct (m s) as [[?|?] s']; simpl in *;
      unfold handles_cleared; by rewrite Hq, Hp, Hma. }
  destruct ev as [op|h|p o|]; simpl.
  - destruct (has_method v op); [|done].
    destruct op as [reqdata opts now| ? ? | ? | ? | ? | ? | ? | ? ? | ? ?
                   | ? ? | ? ? | ? | ? | ?];
      unfold call; cbv beta iota zeta.
    + destruct (is_immediately opts) eqn:Him.
      * apply Hissues. by apply push_issues.
      * destruct (push_queued v reqdata opts now s Him)
          as (s' & Hm & Hq & _).
        unfold bind, ret. rewrite Hm. simpl.
        unfold handles_cleared. rewrite Hq. by intros [_ ?]%app_nil.
    + apply Hissues, run_issues.
    + apply Hissues, getExecutionStatus_issues.
    + apply Hissues, pulse_create_issues.
    + apply Hissues, pulse_get_issues.
    + apply Hissues, pulse_find_issues.
    + apply Hissues, pulse_delete_issues.
    + apply Hissues, pulse_update_issues.
    + apply Hissues, runPublic_issues.
    + apply Hissues, getExecutionPublicStatus_issues.
    + unfold handles_cleared in *. by destruct v, s.
    + unfold handles_cleared in *. by destruct s.
    + unfold handles_cleared in *. by destruct s.
    + unfold handles_cleared in *. by destruct s.
  - destruct (timers s !! h) as [d|]; [|done].
    apply processQueue_handles_cleared;
      unfold handles_cleared in *; by destruct s.
  - destruct (requests s !! p) as [r|]; [|done].
    rewrite on_response_eq. simpl. unfold handles_cleared in *.
    destruct (awaiting s !! p) as [[item snapshot]|]; by destruct s.
  - by apply processQueue_handles_cleared.
Qed.

Lemma reachable_handles_cleared v config evs :
  handles_cleared (run_events v (constructor v config) evs).
Proof.
  assert (∀ s, invariant s → handles_cleared s →
               handles_cleared (run_events v s evs)) as H.
  { induction evs as [|ev evs IH]; intros s Hinv Hs; [done|].
    simpl. apply IH; [by apply step_invariant|by apply step_handles_cleared]. }
  apply H; [apply constructor_invariant|done].
Qed.

(** A timeout that fires, or a further invocation of [processQueue], leaves
    an empty queue, and the invariant holds again. *)
Lemma flushed_queue v s :
  invariant s → queue (processQueue v s).2 = [].
Proof.
  intros (Hacc & Hpark & _).
  destruct (queue s) as [|item q] eqn:Hq.
  { by rewrite processQueue_empty. }
  destruct (processQueue_flush v s) as
    (s' & -> & _ & _ & (Hq' & _) & _); [by rewrite Hq|done|done|].
  simpl. rewrite Hq'. by destruct (detach_fields s) as (? & _).
Qed.
End timers.

(** X7. At every point of every run the live timeouts match the queue:
    while the queue is empty no timeout is live and both timer fields are
    null; while it holds items exactly two timeouts are live, the
    quiet-period one and the max-wait one, held by [pushTimeout] and
    [maxAgeTimeout]. No timeout is ever left behind. *)
Theorem X7_live_timeouts_match_the_queue
    (v : variant) (config : option MaxflowConfig) (evs : list event) :
  let s := run_events v (constructor v config) evs in
  match queue s with
  | [] => timers s = ∅ ∧ pushTimeout s = None ∧ maxAgeTimeout s = None
  | _ :: _ =>
      ∃ (h1 h2 : nat) (d1 d2 : Z),
        pushTimeout s = Some h1 ∧ maxAgeTimeout s = Some h2 ∧ h1 ≠ h2
        ∧ timers s = {[ h1 := d1; h2 := d2 ]}
  end.
Proof.
  intros s.
  pose proof (reachable_invariant v config evs) as (_ & _ & Ht).
  pose proof (reachable_handles_cleared v config evs) as Hc.
  fold s in Ht, Hc. unfold timers_ok, handles_cleared in *.
  destruct (queue s) as [|item q].
  - split; [done|]. by apply Hc.
  - destruct Ht as (h1 & h2 & d1 & d2 & ? & ? & ? & ? & _).
    by exists h1, h2, d1, d2.
Qed.

(** X8. Whichever of the two timeouts fires first, at any point of any run,
    it finds items in the queue and flushes all of them: afterwards the
    queue is empty, the other timeout is cancelled, both timer fields are
    null, and one request promise was created per item. *)
Theorem X8_either_timeout_flushes_the_whole_queue
    (v : variant) (config : option MaxflowConfig) (before : list event)
    (h : nat) (d : Z) :
  let s := run_events v (constructor v config) before in
  timers s !! h = Some d →
  let s' := step v s (Timeout h) in
  queue s ≠ [] ∧ queue s' = [] ∧ timers s' = ∅
  ∧ pushTimeout s' = None ∧ maxAgeTimeout s' = None
  ∧ next_promise s' = (next_promise s + length (queue s))%nat.
Proof.
  intros s Hh s'.
  pose proof (reachable_invariant v config before) as Hinv.
  pose proof (reachable_handles_cleared v config before) as Hc.
  fold s in Hinv, Hc.
  pose proof (step_invariant v s (Timeout h) Hinv) as Hinv'.
  pose proof (step_handles_cleared v s (Timeout h) Hinv Hc) as Hc'.
  fold s' in Hinv', Hc'.
  assert (queue s ≠ []) as Hq.
  { destruct Hinv as (_ & _ & Ht). unfold timers_ok in Ht.
    intros Hq. rewrite Hq in Ht. by rewrite Ht, lookup_empty in Hh. }
  set (s0 := set_timers (delete h (timers s)) s).
  assert (s' = (processQueue v s0).2) as Hs'.
  { subst s'. simpl. by rewrite Hh. }
  assert (queue s' = []) as Hq'.
  { rewrite Hs'.
    destruct Hinv as (Hacc & Hpark & _).
    destruct (processQueue_flush v s0) as
      (s1 & -> & _ & _ & (Hq1 & _) & _);
      [subst s0; by destruct s|subst s0; by destruct s..|].
    simpl. rewrite Hq1. by destruct (detach_fields s0) as (? & _). }
  split; [done|]. split; [done|].
  split.
  { destruct Hinv' as (_ & _ & Ht'). unfold timers_ok in Ht'.
    by rewrite Hq' in Ht'. }
  destruct (Hc' Hq') as [Hp Hm]. split; [done|]. split; [done|].
  rewrite Hs'.
  destruct Hinv as (Hacc & Hpark & _).
  destruct (processQueue_flush v s0) as
    (s1 & -> & _ & _ & _ & _ & Hn & _);
    [subst s0; by destruct s|subst s0; by destruct s..|].
  simpl. rewrite Hn. subst s0. by destruct s.
Qed.

Lemma X8_either_timeout_flushes_the_whole_queue_witness :
  timers three_queued !! 2%nat = Some 1000
  ∧ (let s := three_queued in
     let s' := step MaxflowClient_ts s (Timeout 2) in
     queue s ≠ [] ∧ queue s' = [] ∧ timers s' = ∅
     ∧ pushTimeout s' = None ∧ maxAgeTimeout s' = None
     ∧ next_promise s' = (next_promise s + length (queue s))%nat).
Proof.
  split; [reflexivity|].
  apply (X8_either_timeout_flushes_the_whole_queue MaxflowClient_ts
           credentials three_pushes 2 1000).
  reflexivity.
Defined.

(** X9. Every push that queues an item, at any point of any run, restarts
    the quiet period: the timeout that [pushTimeout] held is cancelled, and
    [pushTimeout] holds a new live timeout whose delay is the [debounce] of
    this item when it is given (0 included) and 360 otherwise. *)
Theorem X9_push_restarts_the_quiet_timeout
    (v : variant) (config : option MaxflowConfig) (before : list event)
    (reqdata : jsval) (options : option PushOptions) (now : Z) :
  is_immediately options = false →
  let s := run_events v (constructor v config) before in
  let s' := (push v reqdata options now s).2 in
  ∃ h, pushTimeout s' = Some h
       ∧ timers s !! h = None
       ∧ timers s' !! h = Some (default 360 (options ≫= debounce))
       ∧ ∀ h0, pushTimeout s = Some h0 → timers s' !! h0 = None.
Proof.
  intros Him s s'.
  pose proof (reachable_invariant v config before) as (_ & _ & Ht).
  pose proof (reachable_handles_cleared v config before) as Hc.
  fold s in Ht, Hc. unfold timers_ok, handles_cleared in *.
  destruct (push_queued v reqdata options now s Him)
    as (s1 & Hm & Hq & _ & _ & _ & _ & Hpt & Hcase).
  subst s'. rewrite Hm. simpl. clear Hm.
  exists (next_timer s). split; [done|].
  destruct (queue s) as [|item q].
  - destruct (Hc eq_refl) as [Hp _]. rewrite Hp in *.
    destruct Hcase as (_ & -> & _).
    split; [by rewrite Ht, lookup_empty|]. split; [|done].
    rewrite lookup_insert_ne by lia. by rewrite lookup_insert_eq.
  - destruct Ht as (h1 & h2 & d1 & d2 & Hp1 & Hp2 & Hne & Htm & Hl1 & Hl2).
    destruct Hcase as (_ & -> & _). rewrite Hp1, Htm.
    split; [|split].
    + rewrite lookup_insert_ne by lia. by rewrite lookup_singleton_ne by lia.
    + by rewrite lookup_insert_eq.
    + intros h0 [= <-]. rewrite lookup_insert_ne by lia.
      by rewrite lookup_delete_eq.
Qed.

Lemma X9_push_restarts_the_quiet_timeout_witness :
  is_immediately (Some {| debounce := Some 0; debounce_max_wait := None;
                          immediately := None |}) = false
  ∧ (let v := MaxflowClient_ts in
     let options := Some {| debounce := Some 0; debounce_max_wait := None;
                            immediately := None |} in
     let s := run_events v (constructor v credentials) three_pushes in
     let s' := (push v (JNum 1) options 30 s).2 in
     ∃ h, pushTimeout s' = Some h
          ∧ timers s !! h = None
          ∧ timers s' !! h = Some (default 360 (options ≫= debounce))
          ∧ ∀ h0, pushTimeout s = Some h0 → timers s' !! h0 = None).
Proof.
  split; [reflexivity|].
  apply (X9_push_restarts_the_quiet_timeout MaxflowClient_ts credentials
           three_pushes (JNum 1)
           (Some {| debounce := Some 0; debounce_max_wait := None;
                    immediately := None |}) 30).
  reflexivity.
Defined.

(** X11. The queue is first in, first out: a series of pushes that queue,
    from any state, appends one item per call in call order, each with the
    data, options and time of its call and a promise of its own; nothing is
    sent and nothing is settled meanwhile. *)
Theorem X11_queued_pushes_append_in_call_order
    (v : variant) (s : state)
    (items : list (jsval * option PushOptions * Z)) :
  Forall (λ x, is_immediately x.1.2 = false) items →
  let s' := run_events v s (queued_pushes items) in
  queue s' =
    queue s ++ imap (λ k x, {| data := x.1.1; timestamp := x.2;
                               promise := (next_promise s + k)%nat;
                               options := x.1.2 |}) items
  ∧ next_promise s' = (next_promise s + length items)%nat
  ∧ requests s' = requests s ∧ settled s' = settled s.
Proof.
  intros Hitems. simpl. revert s.
  induction Hitems as [|[[d o] t] items Him _ IH]; intros s.
  { simpl. rewrite app_nil_r. by rewrite Nat.add_0_r. }
  unfold queued_pushes. rewrite fmap_cons. simpl in *.
  destruct (push_queued v d o t s Him)
    as (s1 & Hm & Hq & Hn & Hr & _ & Hs & _).
  unfold bind, ret. rewrite Hm. simpl.
  destruct (IH s1) as (IHq & IHn & IHr & IHs).
  unfold queued_pushes in *.
  rewrite IHq, IHn, IHr, IHs, Hq, Hn, Hr, Hs, <-app_assoc. simpl.
  split; [|split; [lia|done]].
  do 2 f_equal.
  - f_equal. lia.
  - apply imap_ext. intros k x _. simpl. f_equal. lia.
Qed.

Lemma X11_queued_pushes_append_in_call_order_witness :
  Forall (λ x : jsval * option PushOptions * Z, is_immediately x.1.2 = false)
         [(JStr "a", None, 0); (JStr "b", None, 10)]
  ∧ (let v := MaxflowClient_ts in
     let s := constructor v None in
     let items : list (jsval * option PushOptions * Z) :=
       [(JStr "a", None, 0); (JStr "b", None, 10)] in
     let s' := run_events v s (queued_pushes items) in
     queue s' =
       queue s ++ imap (λ k x, {| data := x.1.1; timestamp := x.2;
                                  promise := (next_promise s + k)%nat;
                                  options := x.1.2 |}) items
     ∧ next_promise s' = (next_promise s + length items)%nat
     ∧ requests s' = requests s ∧ settled s' = settled s).
Proof.
  split; [by repeat constructor|].
  apply (X11_queued_pushes_append_in_call_order MaxflowClient_ts
           (constructor MaxflowClient_ts None)
           [(JStr "a", None, 0); (JStr "b", None, 10)]).
  by repeat constructor.
Defined.

(** ** What a flush sends *)

Section fan_out.
Implicit Types (v : variant) (s : state) (p : nat).

(** A flush with working credentials leaves the requests that were in
    flight as they are. *)
Lemma processQueue_old_requests v s p :
  invariant s → queue s ≠ [] →
  (∃ i, http v true s = (Return i, set_axiosInstance (Some i) s)) →
  (p < next_promise s)%nat →
  requests (processQueue v s).2 !! p = requests s !! p.
Proof.
  intros (Hacc & Hpark & _) Hq Hhttp Hp.
  destruct (detach_fields s) as (Hdq & _ & _ & _ & Hdr & Hda & Hdn & Hds).
  destruct (start_all_sent v (queue s) (detach s)) as
    (s2 & Hm2 & Hs2 & Ha2 & Hk2 & Hold2 & Hq2); [by apply http_detach_ok| |].
  { intros p' Hp'. rewrite Hdr.
    apply (accounted_requests_fresh [] s); [done|]. by rewrite <-Hdn. }
  set (started := zip (queue s) (seq (next_promise (detach s)) (length (queue s))))
    in *.
  assert (started.*2 = seq (next_promise (detach s)) (length (queue s))) as Hsnd
    by (apply snd_zip; rewrite length_seq; lia).
  destruct (await_all_parked v (queue s) started s2) as
    (s3 & Hm3 & Hs3 & Hr3 & Hin3 & Hout3 & Hq3).
  { rewrite Hsnd. apply NoDup_seq. }
  { intros p' Hp'. rewrite Hsnd in Hp'. apply elem_of_seq in Hp'.
    rewrite Hs2, Hds. apply (accounted_settled_fresh [] s); [done|]. lia. }
  assert (processQueue v s = (Return tt, s3)) as ->.
  { rewrite processQueue_nonempty by done. unfold bind at 1. by rewrite Hm2. }
  simpl. rewrite Hr3, Hold2, Hdr; [done|]. by rewrite Hdn.
Qed.
End fan_out.

(** X10. A flush with credentials that pass [validateConfig] (or an axios
    instance created earlier), at any point of any run: it settles nothing,
    empties the queue, leaves the requests in flight as they are, and the
    requests it adds are exactly one [POST /api/pulse] per queued item, in
    queue order and with the data of that item. *)
Theorem X10_flush_sends_exactly_one_request_per_item
    (v : variant) (config : option MaxflowConfig) (before : list event)
    (p : nat) :
  let s := run_events v (constructor v config) before in
  is_Some (axiosInstance s) ∨ (validateConfig v s).1 = Return tt →
  let s' := step v s Flush in
  settled s' = settled s ∧ queue s' = []
  ∧ next_promise s' = (next_promise s + length (queue s))%nat
  ∧ requests s' !! p =
    if decide (p < next_promise s)%nat then requests s !! p
    else (λ item, POST "/api/pulse" (data item))
           <$> queue s !! (p - next_promise s)%nat.
Proof.
  intros s Hcred s'.
  pose proof (reachable_invariant v config before) as Hinv. fold s in Hinv.
  pose proof (step_invariant v s Flush Hinv) as Hinv'. fold s' in Hinv'.
  destruct (queue s) as [|item0 q] eqn:Hq.
  { subst s'. simpl. rewrite processQueue_empty by done. simpl.
    rewrite Nat.add_0_r. repeat split; try done.
    case_decide; [done|]. simpl.
    destruct Hinv as (Hacc & _).
    apply (accounted_requests_fresh [] s); [done|lia]. }
  rewrite <-Hq in *.
  assert (queue s ≠ []) as Hne by (by rewrite Hq).
  destruct (processQueue_sends v s Hinv Hne (http_true_ok v s Hcred))
    as (Hq' & Hs' & Hsent).
  pose proof Hinv as (Hacc & Hpark & _).
  destruct (processQueue_flush v s Hne Hacc Hpark)
    as (s1 & Hm & _ & _ & _ & _ & Hn & _).
  assert (next_promise s' = (next_promise s + length (queue s))%nat) as Hn'.
  { subst s'. simpl. by rewrite Hm. }
  split; [done|]. split; [done|]. split; [done|].
  case_decide as Hp.
  - apply processQueue_old_requests; try done. by apply http_true_ok.
  - destruct (queue s !! (p - next_promise s)%nat) as [item|] eqn:Hk; simpl.
    + destruct (Hsent _ item Hk) as [Hr _].
      by replace (next_promise s + (p - next_promise s))%nat with p in Hr
        by lia.
    + destruct Hinv' as (Hacc' & _).
      apply (accounted_requests_fresh [] s'); [done|].
      apply lookup_ge_None in Hk. lia.
Qed.

Lemma X10_flush_sends_exactly_one_request_per_item_witness :
  (is_Some (axiosInstance three_queued)
   ∨ (validateConfig MaxflowClient_ts three_queued).1 = Return tt)
  ∧ (let s := three_queued in
     let s' := step MaxflowClient_ts s Flush in
     settled s' = settled s ∧ queue s' = []
     ∧ next_promise s' = (next_promise s + length (queue s))%nat
     ∧ requests s' !! 4%nat =
       if decide (4 < next_promise s)%nat then requests s !! 4%nat
       else (λ item, POST "/api/pulse" (data item))
              <$> queue s !! (4 - next_promise s)%nat).
Proof.
  split; [right; reflexivity|].
  apply (X10_flush_sends_exactly_one_request_per_item MaxflowClient_ts
           credentials three_pushes 4).
  right. reflexivity.
Defined.

(** X16. A flush while the configuration is invalid and no axios instance
    exists, at any point of any run and in each revision: no request is
    sent, and every queued item is rejected with the error of
    [validateConfig], once, after the promise of its own failed
    [pulse.create] call; the queue is empty afterwards and no item is left
    waiting. *)
Theorem X16_flush_without_credentials_rejects_every_item
    (v : variant) (config : option MaxflowConfig) (before : list event)
    (e : error) :
  let s := run_events v (constructor v config) before in
  axiosInstance s = None →
  (validateConfig v s).1 = Throw e →
  let s' := step v s Flush in
  queue s' = [] ∧ requests s' = requests s ∧ awaiting s' = awaiting s
  ∧ settled s' =
    settled s
    ++ ((λ p, (p, Rejected e)) <$> seq (next_promise s) (length (queue s)))
    ++ ((λ item, (promise item, Rejected e)) <$> queue s).
Proof.
  intros s Ha Hv s'.
  pose proof (reachable_invariant v config before) as Hinv. fold s in Hinv.
  destruct (queue s) as [|item0 q] eqn:Hq.
  { subst s'. simpl. rewrite processQueue_empty by done. simpl.
    by rewrite app_nil_r. }
  rewrite <-Hq.
  apply processQueue_config_error; [done|by rewrite Hq|].
  by apply http_error_iff.
Qed.

Lemma X16_flush_without_credentials_rejects_every_item_witness :
  axiosInstance (run_events Src_MaxflowClient_ts
                   (constructor Src_MaxflowClient_ts None) three_pushes)
  = None
  ∧ (validateConfig Src_MaxflowClient_ts
       (run_events Src_MaxflowClient_ts
          (constructor Src_MaxflowClient_ts None) three_pushes)).1
    = Throw (Error "Team ID is not set")
  ∧ (let v := Src_MaxflowClient_ts in
     let e := Error "Team ID is not set" in
     let s := run_events v (constructor v None) three_pushes in
     let s' := step v s Flush in
     queue s' = [] ∧ requests s' = requests s ∧ awaiting s' = awaiting s
     ∧ settled s' =
       settled s
       ++ ((λ p, (p, Rejected e)) <$> seq (next_promise s) (length (queue s)))
       ++ ((λ item, (promise item, Rejected e)) <$> queue s)).
Proof.
  split; [reflexivity|]. split; [reflexivity|].
  apply (X16_flush_without_credentials_rejects_every_item
           Src_MaxflowClient_ts None three_pushes
           (Error "Team ID is not set")).
  - reflexivity.
  - reflexivity.
Defined.

(** ** Quiescence *)

Section quiescence.
Implicit Types (v : variant) (s : state) (p : nat).

(** The promise that a call returns is one the client has created. *)
Lemma call_promise_created v op s p :
  (call v op s).1 = Return (Some p) →
  (p < next_promise (call v op s).2)%nat.
Proof.
  assert (∀ m : M nat, issues m s →
            ((x <- m ;; ret (Some x)) s).1 = Return (Some p) →
            (p < next_promise ((x <- m ;; ret (Some x)) s).2)%nat)
    as Hissues.
  { intros m [(r & i & Hm)|(e & Hm)]; unfold bind, ret; rewrite Hm; simpl;
      intros [= <-]; destruct s; simpl; lia. }
  destruct op as [reqdata opts now| ? ? | ? | ? | ? | ? | ? | ? ? | ? ?
                 | ? ? | ? ? | ? | ? | ?];
    unfold call; cbv beta iota zeta.
  - destruct (is_immediately opts) eqn:Him.
    + apply Hissues. by apply push_issues.
    + destruct (push_queued v reqdata opts now s Him)
        as (s' & Hm & _ & Hn & _).
      unfold bind, ret. rewrite Hm. simpl. intros [= <-]. lia.
  - apply Hissues, run_issues.
  - apply Hissues, getExecutionStatus_issues.
  - apply Hissues, pulse_create_issues.
  - apply Hissues, pulse_get_issues.
  - apply Hissues, pulse_find_issues.
  - apply Hissues, pulse_delete_issues.
  - apply Hissues, pulse_update_issues.
  - apply Hissues, runPublic_issues.
  - apply Hissues, getExecutionPublicStatus_issues.
  - by destruct v.
  - done.
  - done.
  - done.
Qed.

(** Once the live timeouts have fired and the requests in flight are
    answered, nothing is left to do. *)
Lemma quiesce_idle v (answer : nat → outcome) s :
  invariant s →
  let s' := quiesce v answer s in
  invariant s' ∧ queue s' = [] ∧ requests s' = ∅ ∧ awaiting s' = ∅
  ∧ timers s' = ∅.
Proof.
  intros Hinv. unfold quiesce.
  destruct (run_timeouts v s (map_to_list (timers s)).*1 Hinv) as [Hq1 Hinv1].
  { intros h [d Hh]. apply list_elem_of_fmap. exists (h, d).
    split; [done|]. by apply elem_of_map_to_list. }
  unfold timeout_events in *.
  set (s1 := run_events v s (Timeout <$> (map_to_list (timers s)).*1)) in *.
  destruct (run_responses v answer s1 (map_to_list (requests s1)).*1)
    as (Hq2 & Hr2 & Hinv2 & Hn2); [done|done|apply NoDup_fst_map_to_list| |].
  { intros p'. rewrite list_elem_of_fmap. split.
    - intros ([p'' r] & -> & Hin%elem_of_map_to_list). by eexists.
    - intros [r Hr]. exists (p', r). split; [done|].
      by apply elem_of_map_to_list. }
  unfold response_events. simpl.
  split; [done|]. split; [done|]. split; [done|].
  pose proof Hinv2 as (_ & Hpark & Ht). split.
  - apply map_eq. intros p. rewrite lookup_empty.
    destruct (awaiting _ !! p) eqn:Hp; [|done].
    destruct (Hpark p) as [r Hr]; [by eauto|].
    by rewrite Hr2, lookup_empty in Hr.
  - unfold timers_ok in Ht. by rewrite Hq2 in Ht.
Qed.
End quiescence.

(** X14. Every promise that a public method returns, at any point of any
    run and in each revision ([run], [getExecutionStatus], the [pulse]
    operations and [push], immediate or queued): whatever happens next, it
    is never settled by more than one call, and once the live timeouts have
    fired and the requests in flight are answered it has been settled by
    exactly one call. *)
Theorem X14_every_returned_promise_settled_exactly_once
    (v : variant) (config : option MaxflowConfig) (before : list event)
    (op : operation) (p : nat) (after : list event)
    (answer : nat → outcome) :
  let s := run_events v (constructor v config) before in
  (call v op s).1 = Return (Some p) →
  let s' := run_events v (call v op s).2 after in
  (calls p s' ≤ 1)%nat
  ∧ ∃ o, filter (λ c, c.1 = p) (settled (quiesce v answer s')) = [(p, o)].
Proof.
  intros s Hcall s'.
  pose proof (reachable_invariant v config before) as Hinv. fold s in Hinv.
  pose proof (call_invariant v op s Hinv) as Hinv1.
  pose proof (run_events_invariant v _ after Hinv1) as Hinv'. fold s' in Hinv'.
  split; [by apply invariant_calls|].
  apply quiesce_settles; [done|].
  pose proof (call_promise_created v op s p Hcall) as Hlt.
  pose proof (run_events_next_promise v _ after Hinv1) as Hmono.
  fold s' in Hmono. lia.
Qed.

Lemma X14_every_returned_promise_settled_exactly_once_witness :
  (call MaxflowClient_ts (PulseGet "id")
        (run_events MaxflowClient_ts
           (constructor MaxflowClient_ts credentials) three_pushes)).1
  = Return (Some 3%nat)
  ∧ (let v := MaxflowClient_ts in
     let s := run_events v (constructor v credentials) three_pushes in
     let s' := run_events v (call v (PulseGet "id") s).2 [Flush] in
     (calls 3 s' ≤ 1)%nat
     ∧ ∃ o, filter (λ c, c.1 = 3%nat)
              (settled (quiesce v (λ _, Fulfilled JNull) s'))
            = [(3%nat, o)]).
Proof.
  split; [reflexivity|].
  apply (X14_every_returned_promise_settled_exactly_once MaxflowClient_ts
           credentials three_pushes (PulseGet "id") 3 [Flush]
           (λ _, Fulfilled JNull)).
  reflexivity.
Defined.

(** X15. Once the host has fired the live timeouts and the transport has
    answered the requests in flight, at any point of any run, the client is
    idle: the queue is empty, no timeout is live, both timer fields are
    null, no request is in flight, no item waits for an answer, and every
    promise created so far has been settled by exactly one call. *)
Theorem X15_quiescent_client_is_idle
    (v : variant) (config : option MaxflowConfig) (evs : list event)
    (answer : nat → outcome) :
  let s := quiesce v answer (run_events v (constructor v config) evs) in
  queue s = [] ∧ timers s = ∅ ∧ pushTimeout s = None
  ∧ maxAgeTimeout s = None ∧ requests s = ∅ ∧ awaiting s = ∅
  ∧ ∀ p, (p < next_promise s)%nat → calls p s = 1%nat.
Proof.
  intros s.
  pose proof (reachable_invariant v config evs) as Hinv.
  destruct (quiesce_idle v answer _ Hinv) as (Hinv' & Hq & Hr & Ha & Ht).
  fold s in Hinv', Hq, Hr, Ha, Ht.
  assert (handles_cleared s) as Hc.
  { subst s. unfold quiesce, run_events. rewrite <-!foldl_app.
    apply reachable_handles_cleared. }
  destruct (Hc Hq) as [Hp Hm].
  repeat split; try done.
  intros p Hlt.
  destruct (invariant_quiescent s p Hinv' Hq Hr Hlt) as [o Ho].
  unfold calls. by rewrite Ho.
Qed.

(** ** Every call that goes to the transport *)


